(** * Ethereal: search driver, quiescence search and Zobrist keys

    A shallow embedding of [src/zobrist.c] and [src/search.c].  The tuner
    of [src/texel.c] computes in double-precision floating point and is not
    embedded, except for its integer bookkeeping (the tuple stack, the
    sparse coefficient tuples and the shuffle of the entries) and for
    [linearEvaluation] and [sigmoid], which are written over an arithmetic
    that is instantiated with binary64 and with the rationals.

    Conventions.
    - [uint64_t] values are integers in [0, 2^64); every operation that can
      leave that range is reduced modulo 2^64 where the C code wraps.
    - [int] scores, counters and plies are mathematical integers: signed
      overflow is undefined in C and no claim below depends on it.
    - Arrays whose dimension is declared in a header that is not part of the
      sources ([killer_moves], [depth_one_values], [line]) are total maps from
      indices to cells.  The local arrays [moves] and [values] are lists that
      hold exactly the first [size] cells.
    - [time(NULL)] is an oracle: the n-th call made by the program returns
      [time_at n]. *)

From Stdlib Require Import ZArith List Bool Lia Permutation.
From Stdlib Require PrimFloat Uint63 QArith.
Import ListNotations.
Local Open Scope Z_scope.

(** ** Arrays as total maps *)

Definition upd {A : Type} (f : Z -> A) (i : Z) (v : A) : Z -> A :=
  fun j => if j =? i then v else f j.

Definition upd2 {A : Type} (f : Z -> Z -> A) (i j : Z) (v : A) : Z -> Z -> A :=
  upd f i (upd (f i) j v).

(** [lo, lo+1, ..., lo+n-1]: the index values of a counting [for] loop. *)
Definition Z_range (lo : Z) (n : nat) : list Z :=
  map (fun k => lo + Z.of_nat k) (seq 0 n).

(** ** zobrist.c *)

Module Zobrist.

(** Constants of [types.h] and [castle.h], which the file includes. *)
Record header := {
  PAWN : Z; KING : Z;
  WHITE : Z; BLACK : Z;
  SQUARE_NB : Z; FILE_NB : Z;
  makePiece : Z -> Z -> Z;
  WHITE_PAWN : Z; BLACK_PAWN : Z; WHITE_KING : Z; BLACK_KING : Z;
  WHITE_KING_RIGHTS : Z; WHITE_QUEEN_RIGHTS : Z;
  BLACK_KING_RIGHTS : Z; BLACK_QUEEN_RIGHTS : Z
}.

(** Modelled from the spec: [types.h] and [castle.h] are not among the
    sources.  Six piece types, two colours, 64 squares, 8 files, and a 4-bit
    castling mask with one bit for each primitive right.  Only the four
    rights matter for the castle table; the other constants fix how many
    keys are drawn before them (6 * 64 * 2 + 8). *)
Definition ethereal_header : header := {|
  PAWN := 0; KING := 5;
  WHITE := 0; BLACK := 1;
  SQUARE_NB := 64; FILE_NB := 8;
  makePiece := fun pt colour => pt * 4 + colour;
  WHITE_PAWN := 0; BLACK_PAWN := 1; WHITE_KING := 20; BLACK_KING := 21;
  WHITE_KING_RIGHTS := 1; WHITE_QUEEN_RIGHTS := 2;
  BLACK_KING_RIGHTS := 4; BLACK_QUEEN_RIGHTS := 8
|}.

Definition u64 (x : Z) : Z := x mod 2 ^ 64.

(** The globals of the file together with the [static] seed of [rand64]. *)
Record state := {
  seed : Z;
  ZobristKeys : Z -> Z -> Z;
  ZobristPawnKingKeys : Z -> Z -> Z;
  ZobristEnpassKeys : Z -> Z;
  ZobristCastleKeys : Z -> Z;
  ZobristTurnKey : Z
}.

(** Zero-initialised globals and the initial value of the seed. *)
Definition startup : state := {|
  seed := 1070372;
  ZobristKeys := fun _ _ => 0;
  ZobristPawnKingKeys := fun _ _ => 0;
  ZobristEnpassKeys := fun _ => 0;
  ZobristCastleKeys := fun _ => 0;
  ZobristTurnKey := 0
|}.

Definition set_seed (s : state) (v : Z) : state :=
  {| seed := v; ZobristKeys := ZobristKeys s;
     ZobristPawnKingKeys := ZobristPawnKingKeys s;
     ZobristEnpassKeys := ZobristEnpassKeys s;
     ZobristCastleKeys := ZobristCastleKeys s;
     ZobristTurnKey := ZobristTurnKey s |}.

Definition set_key (s : state) (p sq v : Z) : state :=
  {| seed := seed s; ZobristKeys := upd2 (ZobristKeys s) p sq v;
     ZobristPawnKingKeys := ZobristPawnKingKeys s;
     ZobristEnpassKeys := ZobristEnpassKeys s;
     ZobristCastleKeys := ZobristCastleKeys s;
     ZobristTurnKey := ZobristTurnKey s |}.

Definition set_pawn_king_key (s : state) (p sq v : Z) : state :=
  {| seed := seed s; ZobristKeys := ZobristKeys s;
     ZobristPawnKingKeys := upd2 (ZobristPawnKingKeys s) p sq v;
     ZobristEnpassKeys := ZobristEnpassKeys s;
     ZobristCastleKeys := ZobristCastleKeys s;
     ZobristTurnKey := ZobristTurnKey s |}.

Definition set_enpass_key (s : state) (f v : Z) : state :=
  {| seed := seed s; ZobristKeys := ZobristKeys s;
     ZobristPawnKingKeys := ZobristPawnKingKeys s;
     ZobristEnpassKeys := upd (ZobristEnpassKeys s) f v;
     ZobristCastleKeys := ZobristCastleKeys s;
     ZobristTurnKey := ZobristTurnKey s |}.

Definition set_castle_key (s : state) (cr v : Z) : state :=
  {| seed := seed s; ZobristKeys := ZobristKeys s;
     ZobristPawnKingKeys := ZobristPawnKingKeys s;
     ZobristEnpassKeys := ZobristEnpassKeys s;
     ZobristCastleKeys := upd (ZobristCastleKeys s) cr v;
     ZobristTurnKey := ZobristTurnKey s |}.

Definition set_turn_key (s : state) (v : Z) : state :=
  {| seed := seed s; ZobristKeys := ZobristKeys s;
     ZobristPawnKingKeys := ZobristPawnKingKeys s;
     ZobristEnpassKeys := ZobristEnpassKeys s;
     ZobristCastleKeys := ZobristCastleKeys s;
     ZobristTurnKey := v |}.

(** [rand64]: xorshift on the static seed; returns the drawn key and the
    state with the advanced seed. *)
Definition rand64 (s : state) : Z * state :=
  let s1 := Z.lxor (seed s) (Z.shiftr (seed s) 12) in
  let s2 := Z.lxor s1 (u64 (Z.shiftl s1 25)) in
  let s3 := Z.lxor s2 (Z.shiftr s2 27) in
  (u64 (s3 * 2685821657736338717), set_seed s s3).

Section WithHeader.

Variable H : header.

(** Body of the inner loop over squares of the first loop nest. *)
Definition init_piece_square (pt : Z) (s : state) (sq : Z) : state :=
  let '(k1, s1) := rand64 s in
  let s1 := set_key s1 (makePiece H pt (WHITE H)) sq k1 in
  let '(k2, s2) := rand64 s1 in
  set_key s2 (makePiece H pt (BLACK H)) sq k2.

Definition init_piece_keys (s : state) : state :=
  fold_left
    (fun s pt =>
       fold_left (init_piece_square pt) (Z_range 0 (Z.to_nat (SQUARE_NB H))) s)
    (Z_range (PAWN H) (Z.to_nat (KING H - PAWN H + 1))) s.

Definition init_pawn_king_square (s : state) (sq : Z) : state :=
  let s := set_pawn_king_key s (WHITE_PAWN H) sq (ZobristKeys s (WHITE_PAWN H) sq) in
  let s := set_pawn_king_key s (BLACK_PAWN H) sq (ZobristKeys s (BLACK_PAWN H) sq) in
  let s := set_pawn_king_key s (WHITE_KING H) sq (ZobristKeys s (WHITE_KING H) sq) in
  set_pawn_king_key s (BLACK_KING H) sq (ZobristKeys s (BLACK_KING H) sq).

Definition init_pawn_king_keys (s : state) : state :=
  fold_left init_pawn_king_square (Z_range 0 (Z.to_nat (SQUARE_NB H))) s.

Definition init_enpass_keys (s : state) : state :=
  fold_left
    (fun s f => let '(k, s') := rand64 s in set_enpass_key s' f k)
    (Z_range 0 (Z.to_nat (FILE_NB H))) s.

(** The four assignments [ZobristCastleKeys[X_RIGHTS] = rand64()]. *)
Definition draw_castle_keys (s : state) : state :=
  let '(k, s) := rand64 s in
  let s := set_castle_key s (WHITE_KING_RIGHTS H) k in
  let '(k, s) := rand64 s in
  let s := set_castle_key s (WHITE_QUEEN_RIGHTS H) k in
  let '(k, s) := rand64 s in
  let s := set_castle_key s (BLACK_KING_RIGHTS H) k in
  let '(k, s) := rand64 s in
  set_castle_key s (BLACK_QUEEN_RIGHTS H) k.

(** [if (cr & right) ZobristCastleKeys[cr] ^= ZobristCastleKeys[right];] *)
Definition combine_right (cr right : Z) (s : state) : state :=
  if Z.land cr right =? 0 then s
  else set_castle_key s cr
         (Z.lxor (ZobristCastleKeys s cr) (ZobristCastleKeys s right)).

(** Body of the loop over [cr]: the table is read and written in place. *)
Definition combine_castle_step (s : state) (cr : Z) : state :=
  let s := combine_right cr (WHITE_KING_RIGHTS H) s in
  let s := combine_right cr (WHITE_QUEEN_RIGHTS H) s in
  let s := combine_right cr (BLACK_KING_RIGHTS H) s in
  combine_right cr (BLACK_QUEEN_RIGHTS H) s.

Definition combine_castle_keys (s : state) : state :=
  fold_left combine_castle_step (Z_range 0 16) s.

Definition initZobrist (s : state) : state :=
  let s := init_piece_keys s in
  let s := init_pawn_king_keys s in
  let s := init_enpass_keys s in
  let s := draw_castle_keys s in
  let s := combine_castle_keys s in
  let '(k, s) := rand64 s in
  set_turn_key s k.

(** The state in which the four primitive castle keys have just been drawn,
    before the combining loop runs. *)
Definition before_combine (s : state) : state :=
  draw_castle_keys (init_enpass_keys (init_pawn_king_keys (init_piece_keys s))).

End WithHeader.

(** The xor of the primitive keys [kwk], [kwq], [kbk], [kbq] of the rights
    whose bits are set in [cr]: the table the comment in [initZobrist]
    describes. *)
Definition xor_of_rights (H : header) (kwk kwq kbk kbq cr : Z) : Z :=
  let pick right k := if Z.land cr right =? 0 then 0 else k in
  Z.lxor (Z.lxor (Z.lxor (pick (WHITE_KING_RIGHTS H) kwk)
                         (pick (WHITE_QUEEN_RIGHTS H) kwq))
                 (pick (BLACK_KING_RIGHTS H) kbk))
         (pick (BLACK_QUEEN_RIGHTS H) kbq).

End Zobrist.

(** ** Properties stated about the Zobrist keys *)

Module ZobristProps.

(** A non-zero 64-bit value. *)
Definition key64 (k : Z) : Prop := 0 < k < 2 ^ 64.

(** The four rows that [initZobrist] copies into the pawn-king table. *)
Definition pawn_king_row (H : Zobrist.header) (p : Z) : Prop :=
  p = Zobrist.WHITE_PAWN H \/ p = Zobrist.BLACK_PAWN H \/
  p = Zobrist.WHITE_KING H \/ p = Zobrist.BLACK_KING H.

(** The two cells of [ZobristKeys] written for piece type [pt] and square
    [sq]. *)
Definition piece_cells (H : Zobrist.header) (pt sq : Z) : list (Z * Z) :=
  [(Zobrist.makePiece H pt (Zobrist.WHITE H), sq);
   (Zobrist.makePiece H pt (Zobrist.BLACK H), sq)].

End ZobristProps.

(** ** search.c *)

Module Search.

(** [move_t] is a packed integer. *)
Abbreviation move_t := Z (only parsing).

(** C's [!x] on an [int]. *)
Definition lnot (x : Z) : Z := if x =? 0 then 1 else 0.

Record principle_variation_t := {
  length : Z;
  line : Z -> move_t
}.

(** Everything [search.c] takes from outside: the board module
    ([board.h], [move.h], [piece.h], [colour.h], [evaluate.h], [search.h],
    [types.h], [util.h] are not among the sources), the clock, and the
    contents of a local that the code reads before writing it. *)
Class Externals := {
  board_t : Type;
  (* fields of [board_t] read by the search *)
  turn : board_t -> Z;
  squares : board_t -> Z -> Z;
  piece_locations : board_t -> Z -> list Z;
  pawn_locations : board_t -> Z -> list Z;
  pawn_counts : board_t -> Z -> Z;
  (* move generator and make/unmake *)
  gen_all_moves : board_t -> list move_t;
  gen_all_captures : board_t -> list move_t;
  apply_move : board_t -> move_t -> board_t;
  revert_move : board_t -> move_t -> board_t;
  is_not_in_check : board_t -> Z -> bool;
  (* macros on moves and pieces *)
  MOVE_GET_CAPTURE : move_t -> Z;
  MOVE_GET_FROM : move_t -> Z;
  IS_EMPTY : Z -> bool;
  PIECE_TYPE : Z -> Z;
  QueenFlag : Z; RookFlag : Z; BishopFlag : Z; KnightFlag : Z;
  QueenValue : Z; RookValue : Z; BishopValue : Z; KnightValue : Z;
  PawnValue : Z;
  QUEEN_POSITION_VALUE : Z -> Z;
  ROOK_POSITION_VALUE : Z -> Z;
  BISHOP_POSITION_VALUE : Z -> Z;
  KNIGHT_POSITION_VALUE : Z -> Z;
  WHITE_PAWN_POSITION_VALUE : Z -> Z;
  BLACK_PAWN_POSITION_VALUE : Z -> Z;
  ColourWhite : Z; ColourBlack : Z;
  CheckMate : Z;
  MaxDepth : Z;
  (* the value returned by the n-th call of [time(NULL)] *)
  time_at : nat -> Z;
  (* the indeterminate contents of the local [lpv], which is declared
     without initialiser, in the invocation of [alpha_beta_prune] whose
     entry check is the n-th call of [time(NULL)] *)
  lpv_at : nat -> principle_variation_t
}.

Definition set_length (pv : principle_variation_t) (n : Z) :=
  {| length := n; line := line pv |}.

(** File-scope variables [StartTime], [EndTime], [EvaluatingPlayer], the
    number of [time(NULL)] calls made so far, and a ghost log of the moves
    handed to [apply_move], oldest first (not program state: it only makes
    the visiting order observable). *)
Record globals := {
  StartTime : Z;
  EndTime : Z;
  EvaluatingPlayer : Z;
  time_calls : nat;
  applied : list move_t
}.

Section WithExternals.

Context {E : Externals}.

Record search_tree_t := {
  ply : Z;
  raw_nodes : Z;
  alpha_beta_nodes : Z;
  quiescence_nodes : Z;
  board : board_t;
  principle_variation : principle_variation_t;
  killer_moves : Z -> Z -> move_t;
  depth_one_values : Z -> Z
}.

Definition set_ply (t : search_tree_t) (v : Z) : search_tree_t :=
  {| ply := v; raw_nodes := raw_nodes t; alpha_beta_nodes := alpha_beta_nodes t;
     quiescence_nodes := quiescence_nodes t; board := board t;
     principle_variation := principle_variation t;
     killer_moves := killer_moves t; depth_one_values := depth_one_values t |}.

Definition set_raw_nodes (t : search_tree_t) (v : Z) : search_tree_t :=
  {| ply := ply t; raw_nodes := v; alpha_beta_nodes := alpha_beta_nodes t;
     quiescence_nodes := quiescence_nodes t; board := board t;
     principle_variation := principle_variation t;
     killer_moves := killer_moves t; depth_one_values := depth_one_values t |}.

Definition set_alpha_beta_nodes (t : search_tree_t) (v : Z) : search_tree_t :=
  {| ply := ply t; raw_nodes := raw_nodes t; alpha_beta_nodes := v;
     quiescence_nodes := quiescence_nodes t; board := board t;
     principle_variation := principle_variation t;
     killer_moves := killer_moves t; depth_one_values := depth_one_values t |}.

Definition set_quiescence_nodes (t : search_tree_t) (v : Z) : search_tree_t :=
  {| ply := ply t; raw_nodes := raw_nodes t; alpha_beta_nodes := alpha_beta_nodes t;
     quiescence_nodes := v; board := board t;
     principle_variation := principle_variation t;
     killer_moves := killer_moves t; depth_one_values := depth_one_values t |}.

Definition set_board (t : search_tree_t) (v : board_t) : search_tree_t :=
  {| ply := ply t; raw_nodes := raw_nodes t; alpha_beta_nodes := alpha_beta_nodes t;
     quiescence_nodes := quiescence_nodes t; board := v;
     principle_variation := principle_variation t;
     killer_moves := killer_moves t; depth_one_values := depth_one_values t |}.

Definition set_principle_variation (t : search_tree_t)
    (v : principle_variation_t) : search_tree_t :=
  {| ply := ply t; raw_nodes := raw_nodes t; alpha_beta_nodes := alpha_beta_nodes t;
     quiescence_nodes := quiescence_nodes t; board := board t;
     principle_variation := v;
     killer_moves := killer_moves t; depth_one_values := depth_one_values t |}.

Definition set_killer_moves (t : search_tree_t) (v : Z -> Z -> move_t) : search_tree_t :=
  {| ply := ply t; raw_nodes := raw_nodes t; alpha_beta_nodes := alpha_beta_nodes t;
     quiescence_nodes := quiescence_nodes t; board := board t;
     principle_variation := principle_variation t;
     killer_moves := v; depth_one_values := depth_one_values t |}.

Definition set_depth_one_values (t : search_tree_t) (v : Z -> Z) : search_tree_t :=
  {| ply := ply t; raw_nodes := raw_nodes t; alpha_beta_nodes := alpha_beta_nodes t;
     quiescence_nodes := quiescence_nodes t; board := board t;
     principle_variation := principle_variation t;
     killer_moves := killer_moves t; depth_one_values := v |}.

Definition set_StartTime (g : globals) (v : Z) : globals :=
  {| StartTime := v; EndTime := EndTime g;
     EvaluatingPlayer := EvaluatingPlayer g;
     time_calls := time_calls g; applied := applied g |}.

Definition set_EndTime (g : globals) (v : Z) : globals :=
  {| StartTime := StartTime g; EndTime := v;
     EvaluatingPlayer := EvaluatingPlayer g;
     time_calls := time_calls g; applied := applied g |}.

Definition set_EvaluatingPlayer (g : globals) (v : Z) : globals :=
  {| StartTime := StartTime g; EndTime := EndTime g;
     EvaluatingPlayer := v;
     time_calls := time_calls g; applied := applied g |}.

(** [time(NULL)] *)
Definition time (g : globals) : Z * globals :=
  (time_at (time_calls g),
   {| StartTime := StartTime g; EndTime := EndTime g;
      EvaluatingPlayer := EvaluatingPlayer g;
      time_calls := S (time_calls g); applied := applied g |}).

Definition log_applied (g : globals) (m : move_t) : globals :=
  {| StartTime := StartTime g; EndTime := EndTime g;
     EvaluatingPlayer := EvaluatingPlayer g;
     time_calls := time_calls g; applied := applied g ++ [m] |}.

(** [apply_move(board, m)] and [revert_move(board, m)] on the tree's board. *)
Definition do_apply (g : globals) (t : search_tree_t) (m : move_t)
  : globals * search_tree_t :=
  (log_applied g m, set_board t (apply_move (board t) m)).

Definition do_revert (t : search_tree_t) (m : move_t) : search_tree_t :=
  set_board t (revert_move (board t) m).

(** *** evaluate_board *)

(** One of the two loops over [piece_locations]: the pointer walks the row
    until it meets -1.  [sign] is 1 for [+=] and -1 for [-=].  A row that
    holds no -1 would be read past its end; the walk stops there. *)
Fixpoint piece_loop (b : board_t) (sign : Z) (value : Z) (locs : list Z) : Z :=
  match locs with
  | [] => value
  | location :: rest =>
      if location =? -1 then value
      else
        let pt := PIECE_TYPE (squares b location) in
        let value :=
          if pt =? QueenFlag then value + sign * (QueenValue + QUEEN_POSITION_VALUE location)
          else if pt =? RookFlag then value + sign * (RookValue + ROOK_POSITION_VALUE location)
          else if pt =? BishopFlag then value + sign * (BishopValue + BISHOP_POSITION_VALUE location)
          else if pt =? KnightFlag then value + sign * (KnightValue + KNIGHT_POSITION_VALUE location)
          else value in
        piece_loop b sign value rest
  end.

(** One of the two loops over [pawn_locations]; both test [turn]. *)
Fixpoint pawn_loop (b : board_t) (sign : Z) (value : Z) (locs : list Z) : Z :=
  match locs with
  | [] => value
  | location :: rest =>
      if location =? -1 then value
      else
        let value :=
          if turn b =? ColourWhite then value + sign * WHITE_PAWN_POSITION_VALUE location
          else if turn b =? ColourBlack then value + sign * BLACK_PAWN_POSITION_VALUE location
          else value in
        pawn_loop b sign value rest
  end.

Definition evaluate_board (b : board_t) : Z :=
  let value := 0 in
  let value := piece_loop b 1 value (skipn 1 (piece_locations b (turn b))) in
  let value := piece_loop b (-1) value (skipn 1 (piece_locations b (lnot (turn b)))) in
  let value := value + PawnValue * (pawn_counts b (turn b) - pawn_counts b (lnot (turn b))) in
  let value := pawn_loop b 1 value (pawn_locations b (turn b)) in
  pawn_loop b (-1) value (pawn_locations b (lnot (turn b))).

(** *** order_by_value *)

Fixpoint set_nth {A : Type} (l : list A) (i : nat) (v : A) : list A :=
  match l, i with
  | [], _ => []
  | _ :: tl, O => v :: tl
  | hd :: tl, S i' => hd :: set_nth tl i' v
  end.

(** The three assignments through a temporary. *)
Definition swap {A : Type} (d : A) (l : list A) (i j : nat) : list A :=
  let temp := nth j l d in
  let l := set_nth l j (nth i l d) in
  set_nth l i temp.

(** Inner loop: [n] iterations are left, the next index is [j]. *)
Fixpoint order_inner (n i j : nat) (mv : list move_t * list Z)
  : list move_t * list Z :=
  match n with
  | O => mv
  | S n' =>
      let '(moves, values) := mv in
      let mv :=
        if nth j values 0 >? nth i values 0
        then (swap 0 moves i j, swap 0 values i j)
        else mv in
      order_inner n' i (S j) mv
  end.

(** Outer loop: [n] iterations are left, the next index is [i = size - n],
    so the inner loop runs over the [n - 1] indices above [i]. *)
Fixpoint order_outer (n i : nat) (mv : list move_t * list Z)
  : list move_t * list Z :=
  match n with
  | O => mv
  | S n' => order_outer n' (S i) (order_inner n' i (S i) mv)
  end.

Definition order_by_value (moves : list move_t) (values : list Z) (size : nat)
  : list move_t * list Z :=
  order_outer size 0 (moves, values).

(** The first [size] cells of an array, and storing them back. *)
Definition load_prefix {A : Type} (f : Z -> A) (size : nat) : list A :=
  map f (Z_range 0 size).

Definition store_prefix {A : Type} (f : Z -> A) (l : list A) : Z -> A :=
  fun i => if (0 <=? i) && (i <? Z.of_nat (List.length l))
           then nth (Z.to_nat i) l (f i) else f i.

(** *** basic_heuristic and update_killer_heuristic *)

(** The body of the scoring loop for one move.  C's [/] on [int] truncates
    toward zero; a divisor of 0 (undefined in C) gives 0 here. *)
Definition heuristic_value (t : search_tree_t) (m : move_t) : Z :=
  let arr := killer_moves t (ply t) in
  let cap := MOVE_GET_CAPTURE m in
  let value :=
    Z.quot ((if IS_EMPTY cap then 0 else 1) * cap)
           (squares (board t) (MOVE_GET_FROM m)) in
  let value :=
    if arr 0 =? m then value + 1500
    else if arr 1 =? m then value + 1000
    else if arr 2 =? m then value + 500
    else value in
  if m =? line (principle_variation t) (ply t - 1) then value + 30000 else value.

Definition basic_heuristic (t : search_tree_t) (moves : list move_t) (size : nat)
  : list move_t :=
  let values := map (heuristic_value t) (firstn size moves) in
  fst (order_by_value moves values size).

Definition update_killer_heuristic (t : search_tree_t) (move : move_t)
  : search_tree_t :=
  let arr := killer_moves t (ply t) in
  let arr := upd arr 2 (arr 1) in
  let arr := upd arr 1 (arr 0) in
  let arr := upd arr 0 move in
  set_killer_moves t (upd (killer_moves t) (ply t) arr).

(** *** quiescence_search *)

(** The loop [for (i = size-1; i >= 0; i--)]: [n] iterations are left and
    the loop variable is [n - 1].  [rec] is the recursive call.  The result
    carries [best]. *)
Fixpoint quiescence_loop
    (rec : globals -> search_tree_t -> Z -> Z -> option (Z * globals * search_tree_t))
    (moves : list move_t) (beta : Z) (n : nat)
    (g : globals) (t : search_tree_t) (alpha best : Z)
  : option (Z * globals * search_tree_t) :=
  match n with
  | O => Some (best, g, t)
  | S i =>
      let m := nth i moves 0 in
      let '(g, t) := do_apply g t m in
      if is_not_in_check (board t) (lnot (turn (board t))) then
        match rec g t (- beta) (- alpha) with
        | None => None
        | Some (r, g, t) =>
            let value := - r in
            let best := if value >? best then value else best in
            let alpha := if best >? alpha then best else alpha in
            if alpha >? beta then
              let t := update_killer_heuristic t m in
              let t := do_revert t m in
              Some (best, g, t)
            else quiescence_loop rec moves beta i g (do_revert t m) alpha best
        end
      else quiescence_loop rec moves beta i g (do_revert t m) alpha best
  end.

(** [fuel] bounds the depth of the recursion; [None] means it ran out. *)
Fixpoint quiescence_search (fuel : nat) (g : globals) (t : search_tree_t)
    (alpha beta : Z) : option (Z * globals * search_tree_t) :=
  match fuel with
  | O => None
  | S fuel' =>
      let t := set_raw_nodes t (raw_nodes t + 1) in
      let t := set_quiescence_nodes t (quiescence_nodes t + 1) in
      let '(now, g) := time g in
      if EndTime g <? now then
        Some (if turn (board t) =? EvaluatingPlayer g then - CheckMate else CheckMate,
              g, t)
      else
        let best := evaluate_board (board t) in
        let alpha := if best >? alpha then best else alpha in
        if alpha >? beta then Some (best, g, t)
        else
          let t := set_ply t (ply t + 1) in
          let moves := gen_all_captures (board t) in
          let size := List.length moves in
          let moves := basic_heuristic t moves size in
          match quiescence_loop (quiescence_search fuel') moves beta size
                                g t alpha best with
          | None => None
          | Some (best, g, t) => Some (best, g, set_ply t (ply t - 1))
          end
  end.

(** *** alpha_beta_prune *)

(** What the parameter [pv] points to: the tree's own principal variation
    (the call made by [get_best_move]) or the local [lpv] of the calling
    invocation.  In the second case the pointee travels with the call as
    [cpv] and is handed back with the result. *)
Inductive pv_ptr := PvTree | PvLocal.

Definition pv_load (p : pv_ptr) (t : search_tree_t) (cpv : principle_variation_t)
  : principle_variation_t :=
  match p with PvTree => principle_variation t | PvLocal => cpv end.

Definition pv_store (p : pv_ptr) (t : search_tree_t) (cpv : principle_variation_t)
    (v : principle_variation_t) : search_tree_t * principle_variation_t :=
  match p with
  | PvTree => (set_principle_variation t v, cpv)
  | PvLocal => (t, v)
  end.

(** [pv->line[0] = m; memcpy(pv->line + 1, lpv.line, sizeof(move_t) * lpv.length);
    pv->length = lpv.length + 1;]  A negative count copies nothing here. *)
Definition pv_prepend (pv : principle_variation_t) (m : move_t)
    (lpv : principle_variation_t) : principle_variation_t :=
  {| length := length lpv + 1;
     line := fun k =>
       if k =? 0 then m
       else if (1 <=? k) && (k <=? length lpv) then line lpv (k - 1)
       else line pv k |}.

Definition ab_result : Type :=
  Z * globals * search_tree_t * principle_variation_t.

Definition ab_call : Type :=
  globals -> search_tree_t -> pv_ptr -> principle_variation_t ->
  Z -> Z -> Z -> option ab_result.

Definition negate (r : option ab_result) : option ab_result :=
  match r with
  | None => None
  | Some (v, g, t, lpv) => Some (- v, g, t, lpv)
  end.

(** The three recursive calls of the loop body; the result carries [value]
    and the local [lpv]. *)
Definition search_child (rec : ab_call) (i : nat) (first_node_was_pv : bool)
    (depth alpha beta : Z) (g : globals) (t : search_tree_t)
    (lpv : principle_variation_t) : option ab_result :=
  if negb (Nat.eqb i 0) && first_node_was_pv then
    match negate (rec g t PvLocal lpv (depth - 1) (- alpha - 1) (- alpha)) with
    | None => None
    | Some (value, g, t, lpv) =>
        if (value >? alpha) && (value <? beta)
        then negate (rec g t PvLocal lpv (depth - 1) (- beta) (- value))
        else Some (value, g, t, lpv)
    end
  else negate (rec g t PvLocal lpv (depth - 1) (- beta) (- alpha)).

(** The loop [for (i = 0; i < size; i++)]: [n] iterations are left and the
    loop variable is [i].  The result carries [best] and [valid_size]. *)
Fixpoint alpha_beta_loop (rec : ab_call) (moves : list move_t) (p : pv_ptr)
    (depth beta : Z) (first_node_was_pv : bool) (n i : nat)
    (g : globals) (t : search_tree_t) (cpv lpv : principle_variation_t)
    (alpha best valid_size : Z)
  : option (Z * Z * globals * search_tree_t * principle_variation_t) :=
  match n with
  | O => Some (best, valid_size, g, t, cpv)
  | S n' =>
      let m := nth i moves 0 in
      let '(g, t) := do_apply g t m in
      if is_not_in_check (board t) (lnot (turn (board t))) then
        let valid_size := valid_size + 1 in
        match search_child rec i first_node_was_pv depth alpha beta g t lpv with
        | None => None
        | Some (value, g, t, lpv) =>
            let t :=
              if ply t =? 1
              then set_depth_one_values t (upd (depth_one_values t) (Z.of_nat i) value)
              else t in
            let best := if value >? best then value else best in
            let '(alpha, (t, cpv)) :=
              if best >? alpha then
                (best,
                 if negb (length lpv =? -1)
                 then pv_store p t cpv (pv_prepend (pv_load p t cpv) m lpv)
                 else (t, cpv))
              else (alpha, (t, cpv)) in
            if alpha >? beta then
              let t := update_killer_heuristic t m in
              let t := do_revert t m in
              Some (best, valid_size, g, t, cpv)
            else
              alpha_beta_loop rec moves p depth beta first_node_was_pv n' (S i)
                              g (do_revert t m) cpv lpv alpha best valid_size
        end
      else
        alpha_beta_loop rec moves p depth beta first_node_was_pv n' (S i)
                        g (do_revert t m) cpv lpv alpha best valid_size
  end.

(** The ordering step, lines 105-107: at the root the moves and the cells of
    [depth_one_values] are sorted together, elsewhere [basic_heuristic]
    runs; then [basic_heuristic] runs in both cases. *)
Definition order_moves (t : search_tree_t) (moves : list move_t) (size : nat)
  : search_tree_t * list move_t :=
  let '(t, moves) :=
    if ply t =? 1 then
      let '(moves, values) :=
        order_by_value moves (load_prefix (depth_one_values t) size) size in
      (set_depth_one_values t (store_prefix (depth_one_values t) values), moves)
    else (t, basic_heuristic t moves size) in
  (t, basic_heuristic t moves size).

Fixpoint alpha_beta_prune (fuel : nat) (g : globals) (t : search_tree_t)
    (p : pv_ptr) (cpv : principle_variation_t) (depth alpha beta : Z)
  : option ab_result :=
  match fuel with
  | O => None
  | S fuel' =>
      let t := set_raw_nodes t (raw_nodes t + 1) in
      let t := set_alpha_beta_nodes t (alpha_beta_nodes t + 1) in
      let lpv := lpv_at (time_calls g) in
      let '(now, g) := time g in
      if EndTime g <? now then
        let '(t, cpv) := pv_store p t cpv (set_length (pv_load p t cpv) (-1)) in
        Some (if turn (board t) =? EvaluatingPlayer g then - CheckMate else CheckMate,
              g, t, cpv)
      else if depth =? 0 then
        let t := set_raw_nodes t (raw_nodes t - 1) in
        let t := set_alpha_beta_nodes t (alpha_beta_nodes t - 1) in
        let '(t, cpv) := pv_store p t cpv (set_length (pv_load p t cpv) 0) in
        match quiescence_search fuel' g t alpha beta with
        | None => None
        | Some (v, g, t) => Some (v, g, t, cpv)
        end
      else
        let t := set_ply t (ply t + 1) in
        let moves := gen_all_moves (board t) in
        let size := List.length moves in
        let '(t, moves) := order_moves t moves size in
        (* with no move generated, [moves[0]] is read unwritten; the flag
           is then never used *)
        let first_node_was_pv :=
          line (principle_variation t) (ply t - 1) =? nth 0 moves 0 in
        match alpha_beta_loop (alpha_beta_prune fuel') moves p depth beta
                              first_node_was_pv size 0
                              g t cpv lpv alpha (- CheckMate) 0 with
        | None => None
        | Some (best, valid_size, g, t, cpv) =>
            let best :=
              if (valid_size =? 0) && is_not_in_check (board t) (turn (board t))
              then 0 else best in
            Some (best, g, set_ply t (ply t - 1), cpv)
        end
  end.

(** *** get_best_move *)

Definition init_search_tree_t (t : search_tree_t) (b : board_t) : search_tree_t :=
  let t := set_ply t 0 in
  let t := set_raw_nodes t 0 in
  let t := set_alpha_beta_nodes t 0 in
  let t := set_quiescence_nodes t 0 in
  let t := set_board t b in
  set_principle_variation t (set_length (principle_variation t) 0).

(** The loop [for (depth = 1; depth < MaxDepth; depth++)]: [n] iterations
    are left.  Printing is dropped; the [time(NULL)] call among the
    arguments of [printf] and the one of the exit test are kept. *)
Fixpoint deepening_loop (fuel n : nat) (depth : Z) (g : globals)
    (t : search_tree_t) : option (globals * search_tree_t) :=
  match n with
  | O => Some (g, t)
  | S n' =>
      match alpha_beta_prune fuel g t PvTree (principle_variation t)
                             depth (- CheckMate) CheckMate with
      | None => None
      | Some (value, g, t, _) =>
          let '(_, g) := time g in
          let '(now, g) := time g in
          if EndTime g <? now then Some (g, t)
          else deepening_loop fuel n' (depth + 1) g t
      end
  end.

(** [tree0] is the indeterminate initial content of the local [tree]; [g]
    holds the file-scope variables as the caller left them. *)
Definition get_best_move (fuel : nat) (g : globals) (tree0 : search_tree_t)
    (b : board_t) (alloted_time : Z)
  : option (move_t * globals * search_tree_t) :=
  let alloted_time := 10 in
  let '(now, g) := time g in
  let g := set_StartTime g now in
  let g := set_EndTime g (StartTime g + alloted_time) in
  let g := set_EvaluatingPlayer g (turn b) in
  let t := init_search_tree_t tree0 b in
  let initial_value := evaluate_board b in
  match deepening_loop fuel (Z.to_nat (MaxDepth - 1)) 1 g t with
  | None => None
  | Some (g, t) => Some (line (principle_variation t) 0, g, t)
  end.

End WithExternals.

End Search.

(** ** A miniature board

    The board module is not part of the sources, so the search is run on a
    small implementation of its interface: a position is the side to move
    and the number of pawns of each side; a capture removes one pawn of the
    side that is not to move.  [apply_move] and [revert_move] are exact
    inverses and every capture lowers the material on the board. *)

Module Pawns.

Import Search.

Record position := {
  white_to_move : bool;
  white_pawns : Z;
  black_pawns : Z
}.

(** Packed move: origin in bits 0-5, target in bits 6-11, captured piece
    from bit 12 upward (0 when the move captures nothing). *)
Definition mk_move (from to capture : Z) : move_t :=
  from + 64 * to + 4096 * capture.

Definition move_from (m : move_t) : Z := Z.land m 63.
Definition move_capture (m : move_t) : Z := Z.shiftr m 12.

Definition side (p : position) : Z := if white_to_move p then 0 else 1.

Definition count (p : position) (colour : Z) : Z :=
  if colour =? 0 then white_pawns p else black_pawns p.

Definition take (p : position) (delta : Z) : position :=
  if white_to_move p
  then {| white_to_move := true; white_pawns := white_pawns p;
          black_pawns := black_pawns p - delta |}
  else {| white_to_move := false; white_pawns := white_pawns p - delta;
          black_pawns := black_pawns p |}.

Definition pass (p : position) : position :=
  {| white_to_move := negb (white_to_move p);
     white_pawns := white_pawns p; black_pawns := black_pawns p |}.

Definition play (p : position) (m : move_t) : position :=
  pass (if move_capture m =? 0 then p else take p 1).

Definition unplay (p : position) (m : move_t) : position :=
  let p := pass p in
  if move_capture m =? 0 then p else take p (-1).

Definition quiet_a : move_t := mk_move 8 16 0.
Definition quiet_b : move_t := mk_move 9 17 0.
Definition capture_a : move_t := mk_move 8 17 1.
Definition capture_b : move_t := mk_move 10 19 5.

(** The side to move can capture when both sides still have a pawn. *)
Definition captures (p : position) : list move_t :=
  if (0 <? count p (side p)) && (0 <? count p (lnot (side p)))
  then [capture_a; capture_b] else [].

Definition material (p : position) : nat :=
  (Z.to_nat (white_pawns p) + Z.to_nat (black_pawns p))%nat.

Definition no_pv : principle_variation_t :=
  {| length := 0; line := fun _ => -1 |}.

(** The interface over [position], for a given clock. *)
Definition externals (clock : nat -> Z) : Externals := {|
  board_t := position;
  turn := side;
  squares := fun _ _ => 1;
  piece_locations := fun _ _ => [0; -1];
  pawn_locations := fun _ _ => [-1];
  pawn_counts := count;
  gen_all_moves := fun p => [quiet_a; quiet_b] ++ captures p;
  gen_all_captures := captures;
  apply_move := play;
  revert_move := unplay;
  is_not_in_check := fun _ _ => true;
  MOVE_GET_CAPTURE := move_capture;
  MOVE_GET_FROM := move_from;
  IS_EMPTY := fun piece => piece =? 0;
  PIECE_TYPE := fun piece => piece;
  QueenFlag := 5; RookFlag := 4; BishopFlag := 3; KnightFlag := 2;
  QueenValue := 900; RookValue := 500; BishopValue := 300; KnightValue := 300;
  PawnValue := 100;
  QUEEN_POSITION_VALUE := fun _ => 0;
  ROOK_POSITION_VALUE := fun _ => 0;
  BISHOP_POSITION_VALUE := fun _ => 0;
  KNIGHT_POSITION_VALUE := fun _ => 0;
  WHITE_PAWN_POSITION_VALUE := fun _ => 0;
  BLACK_PAWN_POSITION_VALUE := fun _ => 0;
  ColourWhite := 0; ColourBlack := 1;
  CheckMate := 32000;
  MaxDepth := 64;
  time_at := clock;
  lpv_at := fun _ => no_pv
|}.

(** A clock that stands still, and one on which every call of
    [time(NULL)] returns one second more than the previous one. *)
Definition frozen : nat -> Z := fun _ => 0.
Definition ticking : nat -> Z := fun n => Z.of_nat n.

(** A clock that reads 0 for the first [k] calls and 100 afterwards. *)
Definition jumping (k : nat) : nat -> Z :=
  fun n => if (n <? k)%nat then 0 else 100.

Definition one_pawn_each : position :=
  {| white_to_move := true; white_pawns := 1; black_pawns := 1 |}.

(** A search tree at the root of a search on [p]: no principal variation,
    the killer slots hold the quiet null move 0. *)
Definition fresh_tree (clock : nat -> Z) (p : position)
  : @search_tree_t (externals clock) :=
  {| ply := 0; raw_nodes := 0; alpha_beta_nodes := 0; quiescence_nodes := 0;
     board := (p : @board_t (externals clock));
     principle_variation := no_pv;
     killer_moves := fun _ _ => 0;
     depth_one_values := fun _ => 0 |}.

(** File-scope variables of a search for white with the deadline at 10. *)
Definition running : globals :=
  {| StartTime := 0; EndTime := 10; EvaluatingPlayer := 0;
     time_calls := 0; applied := [] |}.

End Pawns.

(** ** The miniature board with no legal move

    The same board, except that every move leaves the side that played it
    in check; [in_check] tells whether the side to move is in check. *)

Module Cornered.

Import Search.

Definition externals (in_check : bool) : Externals := {|
  board_t := Pawns.position;
  turn := Pawns.side;
  squares := fun _ _ => 1;
  piece_locations := fun _ _ => [0; -1];
  pawn_locations := fun _ _ => [-1];
  pawn_counts := Pawns.count;
  gen_all_moves := fun p => [Pawns.quiet_a; Pawns.quiet_b] ++ Pawns.captures p;
  gen_all_captures := Pawns.captures;
  apply_move := Pawns.play;
  revert_move := Pawns.unplay;
  is_not_in_check :=
    fun p colour => if colour =? Pawns.side p then negb in_check else false;
  MOVE_GET_CAPTURE := Pawns.move_capture;
  MOVE_GET_FROM := Pawns.move_from;
  IS_EMPTY := fun piece => piece =? 0;
  PIECE_TYPE := fun piece => piece;
  QueenFlag := 5; RookFlag := 4; BishopFlag := 3; KnightFlag := 2;
  QueenValue := 900; RookValue := 500; BishopValue := 300; KnightValue := 300;
  PawnValue := 100;
  QUEEN_POSITION_VALUE := fun _ => 0;
  ROOK_POSITION_VALUE := fun _ => 0;
  BISHOP_POSITION_VALUE := fun _ => 0;
  KNIGHT_POSITION_VALUE := fun _ => 0;
  WHITE_PAWN_POSITION_VALUE := fun _ => 0;
  BLACK_PAWN_POSITION_VALUE := fun _ => 0;
  ColourWhite := 0; ColourBlack := 1;
  CheckMate := 32000;
  MaxDepth := 64;
  time_at := Pawns.frozen;
  lpv_at := fun _ => Pawns.no_pv
|}.

Definition fresh_tree (in_check : bool) (p : Pawns.position)
  : @search_tree_t (externals in_check) :=
  {| ply := 0; raw_nodes := 0; alpha_beta_nodes := 0; quiescence_nodes := 0;
     board := (p : @board_t (externals in_check));
     principle_variation := Pawns.no_pv;
     killer_moves := fun _ _ => 0;
     depth_one_values := fun _ => 0 |}.

End Cornered.

(** ** A game tree with three root moves

    The root, with white to move, has the moves 1, 2 and 3; each leads to a
    node with black to move and the single reply 4, after which white is to
    move and nothing is generated.  Nodes are numbered: 0 is the root, [i]
    the node after root move [i], [10 + i] the node after the reply.  No
    move is a capture and no side is ever in check.  [static] is the value
    of a node for white; [pawn_counts] carries it into [evaluate_board]. *)

Module Fork.

Import Search.

Definition after_root (b : Z) : bool := (1 <=? b) && (b <=? 3).

Definition side (b : Z) : Z := if after_root b then 1 else 0.

Definition moves (b : Z) : list move_t :=
  if b =? 0 then [1; 2; 3] else if after_root b then [4] else [].

Definition play (b : Z) (m : move_t) : Z := if b =? 0 then m else b + 10.

Definition unplay (b : Z) (m : move_t) : Z := if after_root b then 0 else b - 10.

Definition static (b : Z) : Z :=
  if b =? 1 then 10 else if b =? 2 then 5
  else if b =? 12 then 20 else if b =? 13 then 30 else 0.

Definition externals (clock : nat -> Z) : Externals := {|
  board_t := Z;
  turn := side;
  squares := fun _ _ => 1;
  piece_locations := fun _ _ => [0; -1];
  pawn_locations := fun _ _ => [-1];
  pawn_counts := fun b colour => if colour =? 0 then static b else 0;
  gen_all_moves := moves;
  gen_all_captures := fun _ => [];
  apply_move := play;
  revert_move := unplay;
  is_not_in_check := fun _ _ => true;
  MOVE_GET_CAPTURE := fun _ => 0;
  MOVE_GET_FROM := fun _ => 0;
  IS_EMPTY := fun piece => piece =? 0;
  PIECE_TYPE := fun piece => piece;
  QueenFlag := 5; RookFlag := 4; BishopFlag := 3; KnightFlag := 2;
  QueenValue := 900; RookValue := 500; BishopValue := 300; KnightValue := 300;
  PawnValue := 1;
  QUEEN_POSITION_VALUE := fun _ => 0;
  ROOK_POSITION_VALUE := fun _ => 0;
  BISHOP_POSITION_VALUE := fun _ => 0;
  KNIGHT_POSITION_VALUE := fun _ => 0;
  WHITE_PAWN_POSITION_VALUE := fun _ => 0;
  BLACK_PAWN_POSITION_VALUE := fun _ => 0;
  ColourWhite := 0; ColourBlack := 1;
  CheckMate := 32000;
  MaxDepth := 64;
  time_at := clock;
  lpv_at := fun _ => Pawns.no_pv
|}.

(** The indeterminate local [tree] of [get_best_move], taken with no
    principal variation and empty killer slots. *)
Definition fresh_tree (clock : nat -> Z) : @search_tree_t (externals clock) :=
  {| ply := 0; raw_nodes := 0; alpha_beta_nodes := 0; quiescence_nodes := 0;
     board := (0 : @board_t (externals clock));
     principle_variation := Pawns.no_pv;
     killer_moves := fun _ _ => 0;
     depth_one_values := fun _ => 0 |}.


End Fork.

(** ** Properties stated about the search *)

Module SearchProps.

Import Search.

Section WithExternals.

Context {E : Externals}.

(** A move that captures nothing. *)
Definition is_quiet (m : move_t) : bool := IS_EMPTY (MOVE_GET_CAPTURE m).

(** A move that one of the two generators produces on some board. *)
Definition generated (m : move_t) : Prop :=
  exists b, In m (gen_all_moves b) \/ In m (gen_all_captures b).

(** A move that the capture generator produces on some board. *)
Definition generated_capture (m : move_t) : Prop :=
  exists b, In m (gen_all_captures b).

(** Every slot [killer_moves[p][0..2]] holds a move satisfying [P]. *)
Definition killers_satisfy (P : move_t -> Prop) (t : search_tree_t) : Prop :=
  forall p s, 0 <= s <= 2 -> P (killer_moves t p s).

(** A value that some killer slot of [t0] holds. *)
Definition held_by (t0 : search_tree_t) (m : move_t) : Prop :=
  exists p s, 0 <= s <= 2 /\ m = killer_moves t0 p s.

(** What a call leaves in place besides the board: the ply, and any
    property [P] of the killer slots. *)
Definition keeps (P : move_t -> Prop) (t t' : search_tree_t) : Prop :=
  ply t' = ply t /\ (killers_satisfy P t -> killers_satisfy P t').

(** The file-scope variables a call leaves in place. *)
Definition same_deadline (g g' : globals) : Prop :=
  StartTime g' = StartTime g /\ EndTime g' = EndTime g /\
  EvaluatingPlayer g' = EvaluatingPlayer g.

(** The contract of the board module the search relies on: make and unmake
    are exact inverses, a capture lowers the measure [mu] (the material on
    the board), no move raises it. *)
Record board_laws (mu : board_t -> nat) : Prop := {
  revert_apply : forall b m, revert_move (apply_move b m) m = b;
  capture_lowers :
    forall b m, In m (gen_all_captures b) -> (mu (apply_move b m) < mu b)%nat;
  move_keeps :
    forall b m, In m (gen_all_moves b) -> (mu (apply_move b m) <= mu b)%nat
}.

(** [apply_move] and [revert_move] are exact inverses. *)
Definition inverses : Prop :=
  forall b m, revert_move (apply_move b m) m = b.

(** What holds whenever a call of [quiescence_search] returns [r]: the ply
    and the property [P] of the killer slots are kept, the deadline and the
    tree's principal variation are untouched, the board is restored if make
    and unmake are inverses, and unless the deadline had passed at entry the
    score is at least the stand-pat score. *)
Definition quiescence_returns (P : move_t -> Prop) (g : globals)
    (t : search_tree_t) (r : Z * globals * search_tree_t) : Prop :=
  let '(v, g', t') := r in
  keeps P t t' /\ same_deadline g g' /\
  principle_variation t' = principle_variation t /\
  (inverses -> board t' = board t) /\
  (time_at (time_calls g) <= EndTime g -> evaluate_board (board t) <= v).

(** What holds whenever a call of [alpha_beta_prune] returns [r]. *)
Definition alpha_beta_returns (P : move_t -> Prop) (g : globals)
    (t : search_tree_t) (r : ab_result) : Prop :=
  let '(v, g', t', cpv') := r in
  keeps P t t' /\ same_deadline g g' /\ (inverses -> board t' = board t).

(** The rows [q <= p] of the killer table are in [t'] as they are in [t]. *)
Definition killer_rows_kept (p : Z) (t t' : search_tree_t) : Prop :=
  forall q s, q <= p -> killer_moves t' q s = killer_moves t q s.

(** Row [p] of the killer table is in [t'] as it is in [t]. *)
Definition killer_row_kept (p : Z) (t t' : search_tree_t) : Prop :=
  forall s, killer_moves t' p s = killer_moves t p s.

(** Row [p] of [t'] is row [p] of [t] after one store of [m]: [m] in slot
    0, the former slot 0 in slot 1, the former slot 1 in slot 2. *)
Definition killer_row_pushed (p : Z) (m : move_t) (t t' : search_tree_t) : Prop :=
  killer_moves t' p 0 = m /\
  killer_moves t' p 1 = killer_moves t p 0 /\
  killer_moves t' p 2 = killer_moves t p 1 /\
  forall s, s < 0 \/ 2 < s -> killer_moves t' p s = killer_moves t p s.

(** Between two trees the node counters only grow, and [raw_nodes] grows
    by as much as the other two together. *)
Definition counters_grow (t t' : search_tree_t) : Prop :=
  alpha_beta_nodes t <= alpha_beta_nodes t' /\
  quiescence_nodes t <= quiescence_nodes t' /\
  raw_nodes t' - raw_nodes t
  = (alpha_beta_nodes t' - alpha_beta_nodes t)
    + (quiescence_nodes t' - quiescence_nodes t).

(** Every generated move leaves the side that played it in check. *)
Definition no_legal_move (b : board_t) : Prop :=
  forall m, In m (gen_all_moves b) ->
    is_not_in_check (apply_move b m) (lnot (turn (apply_move b m))) = false.

(** The first [size] cells of [vs] are in non-increasing order. *)
Definition descending (size : nat) (vs : list Z) : Prop :=
  forall p q, (p < q < size)%nat -> nth q vs 0 <= nth p vs 0.

(** [b'] is the board [b] with the other side to move. *)
Definition other_to_move (b b' : board_t) : Prop :=
  turn b' = lnot (turn b) /\
  (forall sq, squares b' sq = squares b sq) /\
  (forall c, piece_locations b' c = piece_locations b c) /\
  (forall c, pawn_locations b' c = pawn_locations b c) /\
  (forall c, pawn_counts b' c = pawn_counts b c).

(** The two pawn tables give the same value on every square listed in a
    pawn row of [b]; in particular when no pawn is listed. *)
Definition pawn_tables_agree (b : board_t) : Prop :=
  forall c sq, In sq (pawn_locations b c) -> sq <> -1 ->
               WHITE_PAWN_POSITION_VALUE sq = BLACK_PAWN_POSITION_VALUE sq.

(** The clock never runs backwards. *)
Definition monotone_clock : Prop :=
  forall n m, (n <= m)%nat -> time_at n <= time_at m.

End WithExternals.

End SearchProps.

(** ** texel.c: tuple stack, coefficient tuples and shuffle *)

Module Texel.

(** Constants of [texel.h], which the file includes. *)
Record header := { NPOSITIONS : Z; STACKSIZE : Z }.

Record TexelTuple := { index : Z; coeff : Z }.

(** A [TexelTuple*]: the block of [STACKSIZE] cells that a [calloc]
    returned, blocks being numbered in the order of allocation, and a cell
    of it.  Pointer arithmetic moves inside the block. *)
Record pointer := { block : nat; cell : Z }.

(** The two fields of [TexelEntry] that [updateMemory] sets. *)
Record TexelEntry := { tuples : pointer; ntuples : Z }.

(** The globals [TupleStack] and [TupleStackSize], the number of blocks
    allocated so far and the contents of their cells. *)
Record memory := {
  TupleStack : pointer;
  TupleStackSize : Z;
  blocks : nat;
  cells : nat -> Z -> TexelTuple
}.

Definition set_TupleStack (m : memory) (p : pointer) : memory :=
  {| TupleStack := p; TupleStackSize := TupleStackSize m;
     blocks := blocks m; cells := cells m |}.

Definition set_TupleStackSize (m : memory) (n : Z) : memory :=
  {| TupleStack := TupleStack m; TupleStackSize := n;
     blocks := blocks m; cells := cells m |}.

(** [p[k] = t] *)
Definition store (m : memory) (p : pointer) (k : Z) (t : TexelTuple) : memory :=
  {| TupleStack := TupleStack m; TupleStackSize := TupleStackSize m;
     blocks := blocks m;
     cells := fun b c =>
                if Nat.eqb b (block p) && (c =? cell p + k) then t
                else cells m b c |}.

(** [calloc(STACKSIZE, sizeof(TexelTuple))]: a new block of zeroed cells.
    The allocation is taken to succeed; the code does not test for NULL. *)
Definition calloc (m : memory) : pointer * memory :=
  ({| block := blocks m; cell := 0 |},
   {| TupleStack := TupleStack m; TupleStackSize := TupleStackSize m;
      blocks := S (blocks m);
      cells := fun b c =>
                 if Nat.eqb b (blocks m) then {| index := 0; coeff := 0 |}
                 else cells m b c |}).

Section WithHeader.

Variable H : header.

(** The memory in which [runTexelTuning] calls [initTexelEntries]:
    [TupleStackSize] has its initialiser and [TupleStack] points to the
    block of the first [calloc]. *)
Definition tuner_memory : memory :=
  {| TupleStack := {| block := 0; cell := 0 |};
     TupleStackSize := STACKSIZE H;
     blocks := 1;
     cells := fun _ _ => {| index := 0; coeff := 0 |} |}.

Definition updateMemory (m : memory) (size : Z) : TexelEntry * memory :=
  let m :=
    if TupleStackSize m <? size then
      let m := set_TupleStackSize m (STACKSIZE H) in
      let '(p, m) := calloc m in
      set_TupleStack m p
    else m in
  let te := {| tuples := TupleStack m; ntuples := size |} in
  let m := set_TupleStack m {| block := block (TupleStack m);
                               cell := cell (TupleStack m) + size |} in
  (te, set_TupleStackSize m (TupleStackSize m - size)).

(** [for (k = 0, j = 0; j < NTERMS; j++) k += coeffs[j] != 0;] over the
    [NTERMS] cells of [coeffs]. *)
Definition count_nonzero (coeffs : list Z) : Z :=
  fold_left (fun k c => k + (if c =? 0 then 0 else 1)) coeffs 0.

(** The loop that initialises the tuples: [coeffs] holds the cells from
    index [j] on, [k] is the next tuple to write. *)
Fixpoint fill_tuples (te : TexelEntry) (coeffs : list Z) (j k : Z) (m : memory)
  : memory :=
  match coeffs with
  | [] => m
  | c :: rest =>
      if c =? 0 then fill_tuples te rest (j + 1) k m
      else fill_tuples te rest (j + 1) (k + 1)
             (store m (tuples te) k {| index := j; coeff := c |})
  end.

(** The end of the body of the loop of [initTexelEntries], from the count
    of the non-zero coefficients on, for the vector [coeffs] that
    [initCoefficients] has filled. *)
Definition init_tuples (m : memory) (coeffs : list Z) : TexelEntry * memory :=
  let k := count_nonzero coeffs in
  let '(te, m) := updateMemory m k in
  (te, fill_tuples te coeffs 0 0 m).

(** The loop of [initTexelEntries] as far as the tuples go: [positions]
    holds, for each line of the input, the coefficient vector of its
    position, and the result holds the entries in the order of [tes]. *)
Definition initTexelEntries (m : memory) (positions : list (list Z))
  : list TexelEntry * memory :=
  fold_left
    (fun (st : list TexelEntry * memory) coeffs =>
       let '(te, m) := init_tuples (snd st) coeffs in (fst st ++ [te], m))
    positions ([], m).

Section Shuffle.

(** [rand64] is not the function of zobrist.c, which is [static]: any
    generator with a state.  [entry] stands for the whole [TexelEntry]. *)
Context {entry rng : Type}.
Variable rand64 : rng -> Z * rng.

(** One round of the loop.  Reading or writing a cell outside the array is
    undefined behaviour: [None]. *)
Definition shuffle_round (st : rng * list entry) : option (rng * list entry) :=
  let '(g, tes) := st in
  let '(r, g) := rand64 g in
  let A := Z.to_nat (r mod NPOSITIONS H) in
  let '(r, g) := rand64 g in
  let B := Z.to_nat (r mod NPOSITIONS H) in
  match nth_error tes A, nth_error tes B with
  | Some temp, Some b =>
      let tes := Search.set_nth tes A b in
      Some (g, Search.set_nth tes B temp)
  | _, _ => None
  end.

(** [n] rounds are left. *)
Fixpoint shuffle_loop (n : nat) (st : rng * list entry)
  : option (rng * list entry) :=
  match n with
  | O => Some st
  | S n' =>
      match shuffle_round st with
      | Some st' => shuffle_loop n' st'
      | None => None
      end
  end.

Definition shuffleTexelEntries (g : rng) (tes : list entry)
  : option (rng * list entry) :=
  shuffle_loop (Z.to_nat (NPOSITIONS H)) (g, tes).

End Shuffle.

End WithHeader.

End Texel.

(** ** Properties stated about the tuple stack *)

Module TexelProps.

Import Texel.

(** The stack pointer lies in an allocated block and [TupleStackSize] is
    the number of cells left in that block. *)
Definition well_formed (H : header) (m : memory) : Prop :=
  0 <= cell (TupleStack m) /\ 0 <= TupleStackSize m /\
  cell (TupleStack m) + TupleStackSize m = STACKSIZE H /\
  (block (TupleStack m) < blocks m)%nat.

(** The tuples of [te] lie inside an allocated block and, in the block of
    the stack pointer, before it. *)
Definition allocated (H : header) (m : memory) (te : TexelEntry) : Prop :=
  (block (tuples te) < blocks m)%nat /\
  0 <= cell (tuples te) /\ 0 <= ntuples te /\
  cell (tuples te) + ntuples te <= STACKSIZE H /\
  (block (tuples te) = block (TupleStack m) ->
   cell (tuples te) + ntuples te <= cell (TupleStack m)).

(** Two entries share no cell. *)
Definition disjoint (a b : TexelEntry) : Prop :=
  block (tuples a) <> block (tuples b) \/
  cell (tuples a) + ntuples a <= cell (tuples b) \/
  cell (tuples b) + ntuples b <= cell (tuples a).

(** [te->tuples[0], ..., te->tuples[te->ntuples - 1]] *)
Definition read_tuples (m : memory) (te : TexelEntry) : list TexelTuple :=
  map (fun k => cells m (block (tuples te)) (cell (tuples te) + Z.of_nat k))
      (seq 0 (Z.to_nat (ntuples te))).

(** The non-zero cells of a coefficient vector whose first cell has index
    [j], each with its index, in the order of the vector. *)
Fixpoint sparse_from (j : Z) (coeffs : list Z) : list TexelTuple :=
  match coeffs with
  | [] => []
  | c :: rest =>
      if c =? 0 then sparse_from (j + 1) rest
      else {| index := j; coeff := c |} :: sparse_from (j + 1) rest
  end.

Definition sparse (coeffs : list Z) : list TexelTuple := sparse_from 0 coeffs.

(** The sum over the tuples of coefficient times weight of the index. *)
Definition sparse_sum (w : Z -> Z) (ts : list TexelTuple) : Z :=
  fold_right (fun t acc => coeff t * w (index t) + acc) 0 ts.

(** The sum over all cells of a vector of cell times weight of its index. *)
Fixpoint dense_sum_from (w : Z -> Z) (j : Z) (coeffs : list Z) : Z :=
  match coeffs with
  | [] => 0
  | c :: rest => c * w j + dense_sum_from w (j + 1) rest
  end.

Definition dense_sum (w : Z -> Z) (coeffs : list Z) : Z :=
  dense_sum_from w 0 coeffs.

End TexelProps.

(** ** texel.c: the linear evaluation and the sigmoid *)

Module TexelEval.

Import Texel.

(** The arithmetic the two functions compute in: the conversion of an
    [int] or of a constant, and the operations they use. *)
Class Arithmetic (F : Type) := {
  of_int : Z -> F;
  add : F -> F -> F;
  sub : F -> F -> F;
  mul : F -> F -> F;
  div : F -> F -> F;
  opp : F -> F
}.

(** Conversion of an [int] to [double]; exact for every 32-bit value. *)
Definition binary64_of_int (z : Z) : PrimFloat.float :=
  if z <? 0 then PrimFloat.opp (PrimFloat.of_uint63 (Uint63.of_Z (- z)))
  else PrimFloat.of_uint63 (Uint63.of_Z z).

(** C's [double]: IEEE 754 binary64, rounding to nearest even, every
    operation rounded on its own (no contraction of a product and a sum
    into one fused operation). *)
#[export] Instance binary64 : Arithmetic PrimFloat.float := {|
  of_int := binary64_of_int;
  add := PrimFloat.add; sub := PrimFloat.sub;
  mul := PrimFloat.mul; div := PrimFloat.div; opp := PrimFloat.opp
|}.

(** The same expressions read without rounding, over the rationals. *)
#[export] Instance exact : Arithmetic QArith_base.Q := {|
  of_int := QArith_base.inject_Z;
  add := QArith_base.Qplus; sub := QArith_base.Qminus;
  mul := QArith_base.Qmult; div := QArith_base.Qdiv; opp := QArith_base.Qopp
|}.

(** The fields of [TexelEntry] that [linearEvaluation] reads; [tuples]
    holds [te->tuples[0]] to [te->tuples[te->ntuples - 1]].  [eval] and
    [phase] are taken as the values the expression converts them to. *)
Record TexelEntry (F : Type) := {
  eval : F;
  phase : F;
  tuples : list TexelTuple
}.

Arguments eval {F}.
Arguments phase {F}.
Arguments tuples {F}.

Section WithArithmetic.

Context {F : Type} {A : Arithmetic F}.

(** The indices [MG] and [EG] of types.h. *)
Variables MG EG : Z.

Definition linearEvaluation (te : TexelEntry F) (params : Z -> Z -> F) : F :=
  let '(mg, eg) :=
    fold_left
      (fun (acc : F * F) t =>
         (add (fst acc) (mul (of_int (coeff t)) (params (index t) MG)),
          add (snd acc) (mul (of_int (coeff t)) (params (index t) EG))))
      (tuples te) (of_int 0, of_int 0) in
  add (eval te)
      (div (add (mul mg (sub (of_int 256) (phase te))) (mul eg (phase te)))
           (of_int 256)).

(** [pow] of libm. *)
Variable pow : F -> F -> F.

Definition sigmoid (K S : F) : F :=
  div (of_int 1)
      (add (of_int 1)
           (pow (of_int 10) (div (mul (opp K) S) (of_int 400)))).

End WithArithmetic.

End TexelEval.

(** ** The formulas that the evaluation is compared with *)

Module TexelEvalProps.

Import Texel TexelEval.

Section WithArithmetic.

Context {F : Type} {A : Arithmetic F}.

Variables MG EG : Z.

(** The evaluation term by term: [eval] plus the sum over the tuples of
    [coeff * ((params[index][MG] * (256 - phase) + params[index][EG] * phase) / 256)],
    the terms added in the order of the tuples. *)
Definition per_term_evaluation (te : TexelEntry F) (params : Z -> Z -> F) : F :=
  add (eval te)
      (fold_left
         (fun s t =>
            add s
                (mul (of_int (coeff t))
                     (div (add (mul (params (index t) MG)
                                    (sub (of_int 256) (phase te)))
                               (mul (params (index t) EG) (phase te)))
                          (of_int 256))))
         (tuples te) (of_int 0)).

(** The sum over the tuples of [coeff * params[index][ph]], in the order
    of the tuples. *)
Definition weighted_sum (ph : Z) (te : TexelEntry F) (params : Z -> Z -> F) : F :=
  fold_left (fun s t => add s (mul (of_int (coeff t)) (params (index t) ph)))
            (tuples te) (of_int 0).

End WithArithmetic.

End TexelEvalProps.

(** * Theorems *)

(** ** Zobrist castle keys *)

Section ZobristCastle.

Import Zobrist.

(** Drawing the turn key leaves the castle table alone. *)
Lemma rand64_keeps_castle_keys (s : state) :
  ZobristCastleKeys (let '(k, s') := rand64 s in set_turn_key s' k)
  = ZobristCastleKeys s.
Proof. reflexivity. Qed.

(** One round of the combining loop writes no cell but its own. *)
Lemma combine_castle_step_other (s : state) (cr j : Z) :
  j <> cr ->
  ZobristCastleKeys (combine_castle_step ethereal_header s cr) j = ZobristCastleKeys s j.
Proof.
  intros Hne. apply Z.eqb_neq in Hne.
  unfold combine_castle_step, combine_right.
  repeat match goal with
         | |- context [Z.land ?a ?b =? 0] => destruct (Z.land a b =? 0)
         end;
    cbn [ZobristCastleKeys set_castle_key]; unfold upd; rewrite ?Hne; reflexivity.
Qed.

(** The round of a primitive right xors the cell with itself. *)
Lemma combine_castle_step_primitive (s : state) (cr : Z) :
  In cr [1; 2; 4; 8] ->
  ZobristCastleKeys (combine_castle_step ethereal_header s cr) cr = 0.
Proof.
  intros Hin. simpl in Hin.
  destruct Hin as [<- | [<- | [<- | [<- | []]]]];
    unfold combine_castle_step, combine_right; simpl;
    unfold upd; simpl; apply Z.lxor_nilpotent.
Qed.

(** Whatever keys were drawn, the loop leaves 0 in the cells of the four
    primitive rights. *)
Lemma combine_clears_primitive_keys (s : state) (cr : Z) :
  In cr [1; 2; 4; 8] ->
  ZobristCastleKeys (combine_castle_keys ethereal_header s) cr = 0.
Proof.
  intros Hin. pose proof Hin as Hin'. simpl in Hin'.
  unfold combine_castle_keys.
  change (Z_range 0 16) with [0;1;2;3;4;5;6;7;8;9;10;11;12;13;14;15].
  cbn [fold_left].
  destruct Hin' as [<- | [<- | [<- | [<- | []]]]];
    rewrite !combine_castle_step_other by discriminate;
    apply combine_castle_step_primitive; exact Hin.
Qed.

(** For every seed and every earlier content of the tables, [initZobrist]
    ends with 0 in the cells of the four primitive rights. *)
Lemma initZobrist_clears_primitive_keys (s : state) (cr : Z) :
  In cr [1; 2; 4; 8] ->
  ZobristCastleKeys (initZobrist ethereal_header s) cr = 0.
Proof.
  intros Hin. unfold initZobrist.
  rewrite rand64_keeps_castle_keys.
  apply combine_clears_primitive_keys, Hin.
Qed.

End ZobristCastle.

(** C5 (the code at the failing input).  At program start the four keys
    drawn for the primitive rights are the ones listed, and when
    [initZobrist] returns all sixteen cells of [ZobristCastleKeys] are 0: the
    cell of the single right [WHITE_KING_RIGHTS] is not the key drawn for
    it, and no cell is the xor of the keys of the rights set in its index
    except the cell with index 0. *)
Theorem castle_keys_all_zero_after_initZobrist :
  let H := Zobrist.ethereal_header in
  let drawn := Zobrist.before_combine H Zobrist.startup in
  let final := Zobrist.initZobrist H Zobrist.startup in
  map (Zobrist.ZobristCastleKeys drawn) [1; 2; 4; 8]
  = [7487338029351702425; 10138645747811604478;
     16332212992845378228; 6795873897769436611]
  /\ map (Zobrist.ZobristCastleKeys final) (Z_range 0 16) = repeat 0 16
  /\ Zobrist.ZobristCastleKeys final 1
     <> Zobrist.xor_of_rights H 7487338029351702425 10138645747811604478
                              16332212992845378228 6795873897769436611 1.
Proof.
  cbv zeta.
  split; [ vm_compute; reflexivity | ].
  split; [ vm_compute; reflexivity | ].
  vm_compute. discriminate.
Qed.

(** ** Move ordering only permutes the generated moves *)

Section Ordering.

Import Search SearchProps.

Context {E : Externals}.

Lemma set_nth_length {A : Type} (l : list A) (i : nat) (v : A) :
  List.length (set_nth l i v) = List.length l.
Proof.
  revert i; induction l as [|a l IH]; intros [|i]; simpl; auto.
Qed.

Lemma set_nth_Forall {A : Type} (P : A -> Prop) (l : list A) (i : nat) (v : A) :
  P v -> Forall P l -> Forall P (set_nth l i v).
Proof.
  intros Hv. revert i; induction l as [|a l IH]; intros [|i] Hl; simpl; auto;
    inversion Hl; subst; constructor; auto.
Qed.

Lemma Forall_nth_in {A : Type} (P : A -> Prop) (l : list A) (i : nat) (d : A) :
  Forall P l -> (i < List.length l)%nat -> P (nth i l d).
Proof.
  intros Hl Hi. rewrite Forall_forall in Hl. apply Hl, nth_In, Hi.
Qed.

Lemma swap_length {A : Type} (d : A) (l : list A) (i j : nat) :
  List.length (swap d l i j) = List.length l.
Proof. unfold swap. now rewrite !set_nth_length. Qed.

Lemma swap_Forall {A : Type} (P : A -> Prop) (d : A) (l : list A) (i j : nat) :
  Forall P l -> (i < List.length l)%nat -> (j < List.length l)%nat ->
  Forall P (swap d l i j).
Proof.
  intros Hl Hi Hj. unfold swap.
  apply set_nth_Forall; [ now apply Forall_nth_in | ].
  apply set_nth_Forall; [ now apply Forall_nth_in | exact Hl ].
Qed.

Lemma order_inner_moves (P : move_t -> Prop) :
  forall n i j moves values,
    (i < List.length moves)%nat -> (j + n <= List.length moves)%nat ->
    Forall P moves ->
    Forall P (fst (order_inner n i j (moves, values))) /\
    List.length (fst (order_inner n i j (moves, values))) = List.length moves.
Proof.
  induction n as [|n IH]; intros i j moves values Hi Hj HP; simpl; [ auto | ].
  destruct (nth j values 0 >? nth i values 0).
  - destruct (IH i (S j) (swap 0 moves i j) (swap 0 values i j)) as [H1 H2];
      rewrite ?swap_length; try lia.
    + apply swap_Forall; auto; lia.
    + split; [ exact H1 | now rewrite H2, swap_length ].
  - apply IH; auto; lia.
Qed.

Lemma order_outer_moves (P : move_t -> Prop) :
  forall n i moves values,
    (i + n <= List.length moves)%nat -> Forall P moves ->
    Forall P (fst (order_outer n i (moves, values))) /\
    List.length (fst (order_outer n i (moves, values))) = List.length moves.
Proof.
  induction n as [|n IH]; intros i moves values Hi HP; simpl; [ auto | ].
  destruct (order_inner_moves P n i (S i) moves values) as [H1 H2];
    auto; try lia.
  destruct (order_inner n i (S i) (moves, values)) as [moves' values'].
  simpl in H1, H2.
  destruct (IH (S i) moves' values') as [H3 H4]; auto; try lia.
  split; [ exact H3 | now rewrite H4 ].
Qed.

(** [order_by_value] returns the moves it was given, in some order. *)
Lemma order_by_value_moves (P : move_t -> Prop) moves values :
  Forall P moves ->
  Forall P (fst (order_by_value moves values (List.length moves))) /\
  List.length (fst (order_by_value moves values (List.length moves)))
  = List.length moves.
Proof. intros HP. apply order_outer_moves; auto. Qed.

Lemma basic_heuristic_moves (P : move_t -> Prop) t moves :
  Forall P moves ->
  Forall P (basic_heuristic t moves (List.length moves)) /\
  List.length (basic_heuristic t moves (List.length moves)) = List.length moves.
Proof. intros HP. apply order_by_value_moves, HP. Qed.

(** The ordering step of [alpha_beta_prune] touches only
    [depth_one_values] in the tree and returns the generated moves. *)
Lemma order_moves_ok (P : move_t -> Prop) t moves :
  Forall P moves ->
  let r := order_moves t moves (List.length moves) in
  Forall P (snd r) /\ List.length (snd r) = List.length moves /\
  board (fst r) = board t /\ ply (fst r) = ply t /\
  killer_moves (fst r) = killer_moves t /\
  principle_variation (fst r) = principle_variation t.
Proof.
  intros HP. unfold order_moves.
  destruct (ply t =? 1).
  - destruct (order_by_value_moves P moves
                (load_prefix (depth_one_values t) (List.length moves)) HP)
      as [H1 H2].
    destruct (order_by_value moves _ _) as [moves' values']. simpl in H1, H2.
    destruct (basic_heuristic_moves P
                (set_depth_one_values t (store_prefix (depth_one_values t) values'))
                moves' H1) as [H3 H4].
    rewrite H2 in H3, H4. simpl. repeat split; assumption.
  - destruct (basic_heuristic_moves P t moves HP) as [H1 H2].
    destruct (basic_heuristic_moves P t _ H1) as [H3 H4].
    rewrite H2 in H3, H4. simpl. repeat split; assumption.
Qed.

End Ordering.

(** ** Bookkeeping: the ply, the killer slots and the deadline *)

Section Keeps.

Import Search SearchProps.

Context {E : Externals}.

Variable P : move_t -> Prop.

Lemma keeps_refl t : keeps P t t.
Proof. split; auto. Qed.

Lemma keeps_trans t1 t2 t3 : keeps P t1 t2 -> keeps P t2 t3 -> keeps P t1 t3.
Proof. intros [H1 H2] [H3 H4]. split; [ congruence | auto ]. Qed.

(** A tree that differs in neither ply nor killer table. *)
Lemma keeps_same t t' :
  ply t' = ply t -> killer_moves t' = killer_moves t -> keeps P t t'.
Proof.
  intros Hp Hk. split; [ exact Hp | ].
  unfold killers_satisfy. rewrite Hk. auto.
Qed.

Lemma keeps_update_killer t m : P m -> keeps P t (update_killer_heuristic t m).
Proof.
  intros Hm. split; [ reflexivity | ].
  intros Hk p s Hs. unfold update_killer_heuristic. cbn [killer_moves set_killer_moves].
  unfold upd.
  destruct (p =? ply t); [ | apply Hk, Hs ].
  destruct (s =? 0); [ exact Hm | ].
  destruct (s =? 1); [ apply Hk; lia | ].
  destruct (s =? 2); [ apply Hk; lia | apply Hk, Hs ].
Qed.

Lemma same_deadline_refl g : same_deadline g g.
Proof. repeat split. Qed.

Lemma same_deadline_trans g1 g2 g3 :
  same_deadline g1 g2 -> same_deadline g2 g3 -> same_deadline g1 g3.
Proof. unfold same_deadline. intuition congruence. Qed.

Lemma same_deadline_time g : same_deadline g (snd (time g)).
Proof. repeat split. Qed.

Lemma same_deadline_log g m : same_deadline g (log_applied g m).
Proof. repeat split. Qed.

End Keeps.

(** ** What holds whenever a call returns *)

Section Returns.

Import Search SearchProps.

Context {E : Externals}.

Variable P : move_t -> Prop.

Lemma quiescence_loop_returns
    (rec : globals -> search_tree_t -> Z -> Z -> option (Z * globals * search_tree_t))
    (Hrec : forall g t a b r, rec g t a b = Some r -> quiescence_returns P g t r) :
  forall n moves beta g t alpha best best' g' t',
    (forall i, (i < n)%nat -> P (nth i moves 0)) ->
    quiescence_loop rec moves beta n g t alpha best = Some (best', g', t') ->
    keeps P t t' /\ same_deadline g g' /\
    principle_variation t' = principle_variation t /\
    (inverses -> board t' = board t) /\
    best <= best'.
Proof.
  induction n as [|n IH]; intros moves beta g t alpha best best' g' t' HP Hrun.
  - simpl in Hrun. injection Hrun as <- <- <-.
    split; [ apply keeps_refl | ]. split; [ apply same_deadline_refl | ].
    split; [ reflexivity | ]. split; [ reflexivity | lia ].
  - simpl in Hrun.
    assert (Hm : P (nth n moves 0)) by (apply HP; lia).
    assert (HP' : forall i, (i < n)%nat -> P (nth i moves 0))
      by (intros; apply HP; lia).
    clear HP. revert Hrun. generalize dependent (nth n moves 0). intros m Hm.
    destruct (is_not_in_check _ _).
    + destruct (rec _ _ _ _) as [[[r g1] t1]|] eqn:Hr; [ | discriminate ].
      apply Hrec in Hr. destruct Hr as (Hk & Hg & Hpv & Hb & _).
      simpl in Hb, Hpv.
      assert (Hbest : best <= (if - r >? best then - r else best))
        by (destruct (Z.gtb_spec (- r) best); lia).
      generalize dependent (if - r >? best then - r else best). intros best1 Hbest.
      generalize (if best1 >? alpha then best1 else alpha). intros alpha1.
      assert (Hk1 : keeps P t t1).
      { eapply keeps_trans; [ | exact Hk ]. apply keeps_same; reflexivity. }
      assert (Hg1 : same_deadline g g1)
        by (eapply same_deadline_trans; [ apply same_deadline_log | exact Hg ]).
      destruct (alpha1 >? beta).
      * intros [= <- <- <-].
        split.
        { eapply keeps_trans; [ exact Hk1 | ].
          eapply keeps_trans; [ apply keeps_update_killer, Hm | ].
          apply keeps_same; reflexivity. }
        split; [ exact Hg1 | ]. split; [ exact Hpv | ].
        split; [ | exact Hbest ].
        intros Hinv. simpl. rewrite (Hb Hinv). apply Hinv.
      * intros Hrun. apply IH in Hrun; [ | exact HP' ].
        destruct Hrun as (Hk' & Hg' & Hpv' & Hb' & Hle).
        split.
        { eapply keeps_trans; [ exact Hk1 | ].
          eapply keeps_trans; [ | exact Hk' ]. apply keeps_same; reflexivity. }
        split; [ eapply same_deadline_trans; eassumption | ].
        split; [ rewrite Hpv'; exact Hpv | ].
        split; [ | lia ].
        intros Hinv. rewrite (Hb' Hinv). simpl. rewrite (Hb Hinv). apply Hinv.
    + intros Hrun. apply IH in Hrun; [ | exact HP' ].
      destruct Hrun as (Hk' & Hg' & Hpv' & Hb' & Hle).
      split; [ eapply keeps_trans; [ | exact Hk' ]; apply keeps_same; reflexivity | ].
      split; [ eapply same_deadline_trans; [ apply same_deadline_log | exact Hg' ] | ].
      split; [ rewrite Hpv'; reflexivity | ].
      split; [ | exact Hle ].
      intros Hinv. rewrite (Hb' Hinv). simpl. apply Hinv.
Qed.

Lemma quiescence_search_returns
    (capture_P : forall b m, In m (gen_all_captures b) -> P m) :
  forall fuel g t alpha beta r,
    quiescence_search fuel g t alpha beta = Some r ->
    quiescence_returns P g t r.
Proof.
  induction fuel as [|fuel IH]; intros g t alpha beta r Hrun; [ discriminate | ].
  simpl in Hrun. revert Hrun.
  destruct (EndTime g <? time_at (time_calls g)) eqn:Hexp.
  - intros [= <-].
    split; [ apply keeps_same; reflexivity | ].
    split; [ apply same_deadline_time | ].
    split; [ reflexivity | ]. split; [ reflexivity | ].
    intros Hok. apply Z.ltb_lt in Hexp. lia.
  - destruct (_ >? beta).
    + intros [= <-].
      split; [ apply keeps_same; reflexivity | ].
      split; [ apply same_deadline_time | ].
      split; [ reflexivity | ]. split; [ reflexivity | ].
      intros _. simpl. lia.
    + set (t1 := set_ply _ _).
      destruct (quiescence_loop _ _ _ _ _ _ _ _) as [[[best' g'] t']|] eqn:Hl;
        [ | discriminate ].
      intros [= <-].
      destruct (basic_heuristic_moves P t1 (gen_all_captures (board t)))
        as [Hall Hlen]; [ apply Forall_forall, capture_P | ].
      apply (quiescence_loop_returns _ IH) in Hl.
      2:{ intros i Hi. apply (Forall_nth_in _ _ _ _ Hall). rewrite Hlen. exact Hi. }
      destruct Hl as ([Hp Hkm] & Hg & Hpv & Hb & Hle).
      split; [ split; [ simpl; rewrite Hp; simpl; lia | exact Hkm ] | ].
      split; [ eapply same_deadline_trans; [ apply same_deadline_time | exact Hg ] | ].
      split; [ exact Hpv | ]. split; [ exact Hb | intros _; exact Hle ].
Qed.

Lemma alpha_beta_returns_trans g1 t1 v1 g2 t2 l2 r :
  alpha_beta_returns P g1 t1 (v1, g2, t2, l2) ->
  alpha_beta_returns P g2 t2 r -> alpha_beta_returns P g1 t1 r.
Proof.
  intros (Hk & Hg & Hb). destruct r as [[[v g3] t3] l3]. intros (Hk' & Hg' & Hb').
  split; [ eapply keeps_trans; eassumption | ].
  split; [ eapply same_deadline_trans; eassumption | ].
  intros Hinv. rewrite (Hb' Hinv). apply Hb, Hinv.
Qed.

Section AlphaBetaLoopReturns.

Variable rec : ab_call.
Hypothesis Hrec :
  forall g t p cpv d a b r,
    rec g t p cpv d a b = Some r -> alpha_beta_returns P g t r.

Lemma search_child_returns i fnp depth alpha beta g t lpv r :
  search_child rec i fnp depth alpha beta g t lpv = Some r ->
  alpha_beta_returns P g t r.
Proof.
  unfold search_child.
  destruct (negb (Nat.eqb i 0) && fnp).
  - destruct (rec g t PvLocal lpv (depth - 1) (- alpha - 1) (- alpha))
      as [[[[v g1] t1] l1]|] eqn:Hr; [ | discriminate ].
    apply Hrec in Hr. simpl.
    destruct ((- v >? alpha) && (- v <? beta)).
    + destruct (rec g1 t1 PvLocal l1 (depth - 1) (- beta) (- - v))
        as [[[[v2 g2] t2] l2]|] eqn:Hr2; [ | discriminate ].
      apply Hrec in Hr2. simpl. intros [= <-].
      apply (alpha_beta_returns_trans _ _ _ _ _ _ (- v2, g2, t2, l2) Hr). exact Hr2.
    + intros [= <-]. exact Hr.
  - destruct (rec g t PvLocal lpv (depth - 1) (- beta) (- alpha))
      as [[[[v g1] t1] l1]|] eqn:Hr; [ | discriminate ].
    apply Hrec in Hr. simpl. intros [= <-]. exact Hr.
Qed.

Lemma alpha_beta_loop_returns moves p depth beta fnp :
  forall n i g t cpv lpv alpha best valid_size best' valid' g' t' cpv',
    (forall k, (i <= k < i + n)%nat -> P (nth k moves 0)) ->
    alpha_beta_loop rec moves p depth beta fnp n i
                    g t cpv lpv alpha best valid_size
    = Some (best', valid', g', t', cpv') ->
    keeps P t t' /\ same_deadline g g' /\ (inverses -> board t' = board t).
Proof.
  induction n as [|n IH];
    intros i g t cpv lpv alpha best valid_size best' valid' g' t' cpv' HP Hrun.
  - simpl in Hrun. injection Hrun as <- <- <- <- <-.
    split; [ apply keeps_refl | ]. split; [ apply same_deadline_refl | reflexivity ].
  - simpl in Hrun.
    assert (Hm : P (nth i moves 0)) by (apply HP; lia).
    assert (HP' : forall k, (S i <= k < S i + n)%nat -> P (nth k moves 0))
      by (intros; apply HP; lia).
    clear HP. revert Hrun. generalize dependent (nth i moves 0). intros m Hm.
    destruct (is_not_in_check _ _).
    + destruct (search_child _ _ _ _ _ _ _ _ _) as [[[[value g1] t1] lpv1]|] eqn:Hc;
        [ | discriminate ].
      apply search_child_returns in Hc. destruct Hc as (Hk & Hg & Hb).
      simpl in Hb.
      generalize (if value >? best then value else best). intros best1.
      set (t2 := if ply t1 =? 1
                 then set_depth_one_values t1
                        (upd (depth_one_values t1) (Z.of_nat i) value)
                 else t1).
      assert (Ht2 : board t2 = board t1 /\ ply t2 = ply t1 /\
                    killer_moves t2 = killer_moves t1)
        by (subst t2; destruct (ply t1 =? 1); simpl; auto).
      clearbody t2.
      destruct (if best1 >? alpha then _ else _) as [alpha1 [t3 cpv3]] eqn:Hupd.
      assert (Ht3 : board t3 = board t1 /\ ply t3 = ply t1 /\
                    killer_moves t3 = killer_moves t1).
      { revert Hupd. destruct (best1 >? alpha);
          [ destruct (negb (length lpv1 =? -1)); [ destruct p | ] | ];
          simpl; intros [= <- <- <-]; simpl; exact Ht2. }
      clear Hupd. destruct Ht3 as (Hb3 & Hp3 & Hk3).
      assert (Hk13 : keeps P t t3).
      { eapply keeps_trans; [ | eapply keeps_trans; [ exact Hk | ] ].
        - apply keeps_same; reflexivity.
        - apply keeps_same; assumption. }
      assert (Hg1 : same_deadline g g1)
        by (eapply same_deadline_trans; [ apply same_deadline_log | exact Hg ]).
      assert (Hb13 : inverses -> revert_move (board t3) m = board t)
        by (intros Hinv; rewrite Hb3, (Hb Hinv); apply Hinv).
      destruct (alpha1 >? beta).
      * intros [= <- <- <- <- <-].
        split; [ | split; [ exact Hg1 | exact Hb13 ] ].
        eapply keeps_trans; [ exact Hk13 | ].
        eapply keeps_trans; [ apply keeps_update_killer, Hm | ].
        apply keeps_same; reflexivity.
      * intros Hrun. apply IH in Hrun; [ | exact HP' ].
        destruct Hrun as (Hkl & Hgl & Hbl).
        split; [ | split; [ eapply same_deadline_trans; eassumption | ] ].
        { eapply keeps_trans; [ exact Hk13 | ].
          eapply keeps_trans; [ | exact Hkl ]. apply keeps_same; reflexivity. }
        intros Hinv. rewrite (Hbl Hinv). apply Hb13, Hinv.
    + intros Hrun. apply IH in Hrun; [ | exact HP' ].
      destruct Hrun as (Hkl & Hgl & Hbl).
      split; [ eapply keeps_trans; [ | exact Hkl ]; apply keeps_same; reflexivity | ].
      split; [ eapply same_deadline_trans; [ apply same_deadline_log | exact Hgl ] | ].
      intros Hinv. rewrite (Hbl Hinv). simpl. apply Hinv.
Qed.

End AlphaBetaLoopReturns.

Lemma alpha_beta_prune_returns
    (capture_P : forall b m, In m (gen_all_captures b) -> P m)
    (move_P : forall b m, In m (gen_all_moves b) -> P m) :
  forall fuel g t p cpv depth alpha beta r,
    alpha_beta_prune fuel g t p cpv depth alpha beta = Some r ->
    alpha_beta_returns P g t r.
Proof.
  induction fuel as [|fuel IH]; intros g t p cpv depth alpha beta r Hrun;
    [ discriminate | ].
  simpl in Hrun. revert Hrun.
  destruct (EndTime g <? time_at (time_calls g)).
  - destruct p; simpl; intros [= <-];
      (split; [ apply keeps_same; reflexivity | ]);
      (split; [ apply same_deadline_time | reflexivity ]).
  - destruct (depth =? 0).
    + set (t1 := set_alpha_beta_nodes _ _).
      destruct (pv_store p t1 cpv _) as [t2 cpv2] eqn:Hst.
      assert (Ht2 : board t2 = board t /\ ply t2 = ply t /\
                    killer_moves t2 = killer_moves t)
        by (revert Hst; destruct p; simpl; intros [= <- <-]; simpl; auto).
      destruct Ht2 as (Hb2 & Hp2 & Hk2).
      destruct (quiescence_search fuel _ t2 alpha beta) as [[[v g1] t3]|] eqn:Hq;
        [ | discriminate ].
      intros [= <-].
      apply (quiescence_search_returns capture_P) in Hq.
      destruct Hq as (Hk & Hg & _ & Hb & _).
      split; [ eapply keeps_trans; [ apply keeps_same; eassumption | exact Hk ] | ].
      split; [ eapply same_deadline_trans; [ apply same_deadline_time | exact Hg ] | ].
      intros Hinv. rewrite (Hb Hinv). exact Hb2.
    + set (t1 := set_ply _ _).
      destruct (order_moves_ok P t1 (gen_all_moves (board t)))
        as (Hall & Hlen & Hb2 & Hp2 & Hk2 & _);
        [ apply Forall_forall, move_P | ].
      destruct (order_moves t1 _ _) as [t2 moves].
      simpl in Hall, Hlen, Hb2, Hp2, Hk2.
      destruct (alpha_beta_loop _ _ _ _ _ _ _ _ _ _ _ _ _ _ _)
        as [[[[[best' valid'] g'] t'] cpv']|] eqn:Hl; [ | discriminate ].
      intros [= <-].
      apply (alpha_beta_loop_returns _ IH) in Hl.
      2:{ intros k Hk. apply (Forall_nth_in _ _ _ _ Hall). rewrite Hlen. lia. }
      destruct Hl as ([Hp Hkm] & Hg & Hb).
      split; [ split | ].
      * simpl. rewrite Hp, Hp2. simpl. lia.
      * intros H0. apply Hkm. intros q s Hs. rewrite Hk2. apply H0, Hs.
      * split; [ eapply same_deadline_trans; [ apply same_deadline_time | exact Hg ] | ].
        intros Hinv. simpl. rewrite (Hb Hinv). exact Hb2.
Qed.

End Returns.

(** ** The calls return *)

Section Termination.

Import Search SearchProps.

Context {E : Externals}.

Variable mu : board_t -> nat.
Hypothesis laws : board_laws mu.

Lemma laws_inverses : inverses.
Proof. exact (revert_apply _ laws). Qed.

Lemma quiescence_loop_terminates
    (rec : globals -> search_tree_t -> Z -> Z -> option (Z * globals * search_tree_t))
    (fuel : nat)
    (Hret : forall g t a b r,
        rec g t a b = Some r -> quiescence_returns (fun _ => True) g t r)
    (Htot : forall g t a b,
        (mu (board t) < fuel)%nat -> exists r, rec g t a b = Some r) :
  forall n moves beta g t alpha best,
    (mu (board t) <= fuel)%nat ->
    (forall i, (i < n)%nat -> In (nth i moves 0) (gen_all_captures (board t))) ->
    exists r, quiescence_loop rec moves beta n g t alpha best = Some r.
Proof.
  induction n as [|n IH]; intros moves beta g t alpha best Hmu Hin.
  - eexists. reflexivity.
  - simpl.
    assert (Hm : In (nth n moves 0) (gen_all_captures (board t)))
      by (apply Hin; lia).
    assert (Hin' : forall i, (i < n)%nat ->
                   In (nth i moves 0) (gen_all_captures (board t)))
      by (intros; apply Hin; lia).
    clear Hin. generalize dependent (nth n moves 0). intros m Hm.
    pose proof (laws_inverses (board t) m) as Hinv.
    destruct (is_not_in_check _ _).
    + destruct (Htot (log_applied g m) (set_board t (apply_move (board t) m))
                     (- beta) (- alpha)) as [[[r g1] t1] Hr].
      { simpl. pose proof (capture_lowers _ laws _ _ Hm). lia. }
      rewrite Hr.
      destruct (Hret _ _ _ _ _ Hr) as (_ & _ & _ & Hb & _).
      specialize (Hb laws_inverses). simpl in Hb.
      destruct (_ >? beta); [ eexists; reflexivity | ].
      apply IH; simpl; rewrite Hb, Hinv; assumption.
    + apply IH; simpl; rewrite Hinv; assumption.
Qed.

(** [quiescence_search] returns as soon as the fuel exceeds the material on
    the board. *)
Lemma quiescence_search_terminates :
  forall fuel g t alpha beta,
    (mu (board t) < fuel)%nat ->
    exists r, quiescence_search fuel g t alpha beta = Some r.
Proof.
  induction fuel as [|fuel IH]; intros g t alpha beta Hmu; [ lia | ].
  simpl.
  destruct (EndTime g <? time_at (time_calls g)); [ eexists; reflexivity | ].
  destruct (_ >? beta); [ eexists; reflexivity | ].
  set (t1 := set_ply _ _).
  destruct (basic_heuristic_moves (fun m => In m (gen_all_captures (board t)))
              t1 (gen_all_captures (board t))) as [Hall Hlen].
  { apply Forall_forall. auto. }
  destruct (quiescence_loop_terminates (quiescence_search fuel) fuel
              (quiescence_search_returns (fun _ => True) (fun _ _ _ => I) fuel) IH
              (List.length (gen_all_captures (board t)))
              (basic_heuristic t1 (gen_all_captures (board t))
                 (List.length (gen_all_captures (board t))))
              beta (snd (time g)) t1
              (if evaluate_board (board t) >? alpha
               then evaluate_board (board t) else alpha)
              (evaluate_board (board t)))
    as [[[best' g'] t'] Hl].
  { simpl. lia. }
  { intros i Hi. apply (Forall_nth_in _ _ _ _ Hall). rewrite Hlen. exact Hi. }
  simpl in Hl. rewrite Hl. eexists. reflexivity.
Qed.

Section AlphaBetaLoopTerminates.

Variable rec : ab_call.
Variable fuel : nat.
Hypothesis Hret :
  forall g t p cpv d a b r,
    rec g t p cpv d a b = Some r -> alpha_beta_returns (fun _ => True) g t r.
Hypothesis Htot :
  forall g t p cpv d a b,
    0 <= d -> (Z.to_nat d + mu (board t) + 1 < fuel)%nat ->
    exists r, rec g t p cpv d a b = Some r.

Lemma search_child_terminates i fnp depth alpha beta g t lpv :
  0 < depth -> (Z.to_nat (depth - 1) + mu (board t) + 1 < fuel)%nat ->
  exists r, search_child rec i fnp depth alpha beta g t lpv = Some r.
Proof.
  intros Hd Hmu. unfold search_child.
  destruct (negb (Nat.eqb i 0) && fnp).
  - destruct (Htot g t PvLocal lpv (depth - 1) (- alpha - 1) (- alpha))
      as [[[[v g1] t1] l1] Hr]; [ lia | exact Hmu | ].
    rewrite Hr. simpl.
    destruct ((- v >? alpha) && (- v <? beta)); [ | eexists; reflexivity ].
    destruct (Hret _ _ _ _ _ _ _ _ Hr) as (_ & _ & Hb).
    specialize (Hb laws_inverses).
    destruct (Htot g1 t1 PvLocal l1 (depth - 1) (- beta) (- - v))
      as [[[[v2 g2] t2] l2] Hr2]; [ lia | rewrite Hb; exact Hmu | ].
    rewrite Hr2. simpl. eexists. reflexivity.
  - destruct (Htot g t PvLocal lpv (depth - 1) (- beta) (- alpha))
      as [[[[v g1] t1] l1] Hr]; [ lia | exact Hmu | ].
    rewrite Hr. simpl. eexists. reflexivity.
Qed.

Lemma alpha_beta_loop_terminates moves p depth beta fnp :
  0 < depth ->
  forall n i g t cpv lpv alpha best valid_size,
    (Z.to_nat (depth - 1) + mu (board t) + 1 < fuel)%nat ->
    (forall k, (i <= k < i + n)%nat ->
               In (nth k moves 0) (gen_all_moves (board t))) ->
    exists r, alpha_beta_loop rec moves p depth beta fnp n i
                              g t cpv lpv alpha best valid_size = Some r.
Proof.
  intros Hd.
  induction n as [|n IH]; intros i g t cpv lpv alpha best valid_size Hmu Hin.
  - eexists. reflexivity.
  - simpl.
    assert (Hm : In (nth i moves 0) (gen_all_moves (board t)))
      by (apply Hin; lia).
    assert (Hin' : forall k, (S i <= k < S i + n)%nat ->
                   In (nth k moves 0) (gen_all_moves (board t)))
      by (intros; apply Hin; lia).
    clear Hin. generalize dependent (nth i moves 0). intros m Hm.
    pose proof (laws_inverses (board t) m) as Hinv.
    pose proof (move_keeps _ laws _ _ Hm) as Hle.
    destruct (is_not_in_check _ _).
    + destruct (search_child_terminates i fnp depth alpha beta (log_applied g m)
                  (set_board t (apply_move (board t) m)) lpv Hd)
        as [[[[value g1] t1] lpv1] Hc].
      { simpl. lia. }
      rewrite Hc.
      destruct (search_child_returns (fun _ => True) rec Hret _ _ _ _ _ _ _ _ _ Hc)
        as (_ & _ & Hb).
      specialize (Hb laws_inverses). simpl in Hb.
      generalize (if value >? best then value else best). intros best1.
      set (t2 := if ply t1 =? 1
                 then set_depth_one_values t1
                        (upd (depth_one_values t1) (Z.of_nat i) value)
                 else t1).
      assert (Ht2 : board t2 = board t1)
        by (subst t2; destruct (ply t1 =? 1); reflexivity).
      clearbody t2.
      destruct (if best1 >? alpha then _ else _) as [alpha1 [t3 cpv3]] eqn:Hupd.
      assert (Ht3 : board t3 = board t1).
      { revert Hupd. destruct (best1 >? alpha);
          [ destruct (negb (length lpv1 =? -1)); [ destruct p | ] | ];
          simpl; intros [= <- <- <-]; simpl; exact Ht2. }
      clear Hupd.
      destruct (alpha1 >? beta); [ eexists; reflexivity | ].
      apply IH; simpl; rewrite Ht3, Hb, Hinv; assumption.
    + apply IH; simpl; rewrite Hinv; assumption.
Qed.

End AlphaBetaLoopTerminates.

(** [alpha_beta_prune] returns as soon as the fuel exceeds the depth plus
    the material on the board. *)
Lemma alpha_beta_prune_terminates :
  forall fuel g t p cpv depth alpha beta,
    0 <= depth -> (Z.to_nat depth + mu (board t) + 1 < fuel)%nat ->
    exists r, alpha_beta_prune fuel g t p cpv depth alpha beta = Some r.
Proof.
  induction fuel as [|fuel IH]; intros g t p cpv depth alpha beta Hd Hmu; [ lia | ].
  simpl.
  destruct (EndTime g <? time_at (time_calls g)).
  - destruct p; simpl; eexists; reflexivity.
  - destruct (depth =? 0) eqn:Hz.
    + set (t1 := set_alpha_beta_nodes _ _).
      destruct (pv_store p t1 cpv _) as [t2 cpv2] eqn:Hst.
      assert (Hb2 : board t2 = board t)
        by (revert Hst; destruct p; simpl; intros [= <- <-]; reflexivity).
      destruct (quiescence_search_terminates fuel (snd (time g)) t2 alpha beta)
        as [[[v g1] t3] Hq].
      { rewrite Hb2. lia. }
      simpl in Hq. rewrite Hq. eexists. reflexivity.
    + apply Z.eqb_neq in Hz.
      set (t1 := set_ply _ _).
      destruct (order_moves_ok (fun m => In m (gen_all_moves (board t)))
                  t1 (gen_all_moves (board t)))
        as (Hall & Hlen & Hb2 & _).
      { apply Forall_forall. auto. }
      destruct (order_moves t1 _ _) as [t2 moves]. simpl in Hall, Hlen, Hb2.
      destruct (alpha_beta_loop_terminates (alpha_beta_prune fuel) fuel
                  (alpha_beta_prune_returns (fun _ => True)
                     (fun _ _ _ => I) (fun _ _ _ => I) fuel)
                  IH moves p depth beta
                  (line (principle_variation t2) (ply t2 - 1) =? nth 0 moves 0)
                  ltac:(lia)
                  (List.length (gen_all_moves (board t))) 0%nat (snd (time g)) t2
                  cpv (lpv_at (time_calls g)) alpha (- CheckMate) 0)
        as [[[[[best' valid'] g'] t'] cpv'] Hl].
      { rewrite Hb2. simpl. lia. }
      { intros k Hk. rewrite Hb2. simpl.
        apply (Forall_nth_in _ _ _ _ Hall). rewrite Hlen. lia. }
      simpl in Hl. rewrite Hl. eexists. reflexivity.
Qed.

End Termination.

(** ** The miniature board obeys the contract *)

Section PawnsFacts.

Import Search SearchProps Pawns.

Lemma unplay_play (p : position) (m : Z) : unplay (play p m) m = p.
Proof.
  destruct p as [[|] w b]; unfold play, unplay, pass, take;
    destruct (move_capture m =? 0); simpl; f_equal; lia.
Qed.

Lemma captures_capture (p : position) (m : Z) :
  In m (captures p) ->
  move_capture m <> 0 /\ 0 < count p (lnot (side p)).
Proof.
  unfold captures.
  destruct (0 <? count p (side p)); simpl; [ | contradiction ].
  destruct (0 <? count p (lnot (side p))) eqn:Hc; simpl; [ | contradiction ].
  apply Z.ltb_lt in Hc.
  intros [<- | [<- | []]]; split; auto; vm_compute; discriminate.
Qed.

Lemma play_capture_lowers (p : position) (m : Z) :
  In m (captures p) -> (material (play p m) < material p)%nat.
Proof.
  intros Hin. destruct (captures_capture p m Hin) as [Hc Hpos].
  apply Z.eqb_neq in Hc. unfold play. rewrite Hc.
  destruct p as [[|] w b]; unfold material, take, pass, count, side, lnot in *;
    simpl in *; lia.
Qed.

Lemma play_keeps (p : position) (m : Z) :
  In m ([quiet_a; quiet_b] ++ captures p) ->
  (material (play p m) <= material p)%nat.
Proof.
  intros Hin. apply in_app_or in Hin. destruct Hin as [Hq | Hc].
  - assert (Hm : move_capture m = 0)
      by (destruct Hq as [<- | [<- | []]]; reflexivity).
    unfold play. rewrite Hm. destruct p as [[|] w b]; unfold material, pass; simpl; lia.
  - apply Nat.lt_le_incl, play_capture_lowers, Hc.
Qed.

Lemma pawns_laws (clock : nat -> Z) :
  @board_laws (externals clock) material.
Proof.
  constructor; simpl.
  - apply unplay_play.
  - apply play_capture_lowers.
  - apply play_keeps.
Qed.

Lemma frozen_monotone : @monotone_clock (externals frozen).
Proof. intros n m _. reflexivity. Qed.

Lemma jumping_monotone (k : nat) : @monotone_clock (externals (jumping k)).
Proof.
  intros n m Hnm. simpl. unfold jumping.
  destruct (Nat.ltb_spec n k), (Nat.ltb_spec m k); lia.
Qed.

End PawnsFacts.

(** ** The killer rows across a call *)

Section KillerRows.

Import Search SearchProps.

Context {E : Externals}.

Lemma killer_rows_kept_trans p t1 t2 t3 :
  killer_rows_kept p t1 t2 -> killer_rows_kept p t2 t3 -> killer_rows_kept p t1 t3.
Proof. intros H1 H2 q s Hq. rewrite (H2 q s Hq). apply H1, Hq. Qed.

Lemma killer_rows_kept_same p t t' :
  killer_moves t' = killer_moves t -> killer_rows_kept p t t'.
Proof. intros Hk q s _. rewrite Hk. reflexivity. Qed.

Lemma killer_rows_kept_below p p' t t' :
  p' <= p -> killer_rows_kept p t t' -> killer_rows_kept p' t t'.
Proof. intros Hp Hk q s Hq. apply Hk. lia. Qed.

(** One store: the row of the current ply is pushed, every other row is
    kept. *)
Lemma update_killer_rows t m :
  killer_row_pushed (ply t) m t (update_killer_heuristic t m) /\
  (forall q s, q <> ply t ->
     killer_moves (update_killer_heuristic t m) q s = killer_moves t q s).
Proof.
  unfold killer_row_pushed, update_killer_heuristic.
  cbn [killer_moves set_killer_moves]. unfold upd. split.
  - rewrite !Z.eqb_refl. cbn. repeat split.
    intros s Hs.
    destruct (Z.eqb_spec s 0); [ lia | ].
    destruct (Z.eqb_spec s 1); [ lia | ].
    destruct (Z.eqb_spec s 2); [ lia | reflexivity ].
  - intros q s Hq. destruct (Z.eqb_spec q (ply t)); [ contradiction | reflexivity ].
Qed.

(** A store seen from a tree with the same killer table. *)
Lemma killer_row_pushed_from p m t0 t t' :
  killer_moves t = killer_moves t0 ->
  killer_row_pushed p m t t' -> killer_row_pushed p m t0 t'.
Proof. unfold killer_row_pushed. intros ->. auto. Qed.

Lemma killer_row_pushed_base p m t0 t t' :
  killer_row_kept p t0 t ->
  killer_row_pushed p m t t' -> killer_row_pushed p m t0 t'.
Proof.
  unfold killer_row_pushed, killer_row_kept. intros Hk (H0 & H1 & H2 & H3).
  rewrite <- !Hk. repeat split; try assumption.
  intros s Hs. rewrite <- Hk. apply H3, Hs.
Qed.

Lemma killer_row_pushed_then p m t t1 t' :
  killer_row_pushed p m t t1 -> killer_row_kept p t1 t' ->
  killer_row_pushed p m t t'.
Proof.
  unfold killer_row_pushed, killer_row_kept. intros (H0 & H1 & H2 & H3) Hk.
  rewrite !Hk. repeat split; try assumption.
  intros s Hs. rewrite Hk. apply H3, Hs.
Qed.

Section QuiescenceLoop.

Variable rec :
  globals -> search_tree_t -> Z -> Z -> option (Z * globals * search_tree_t).
Hypothesis Hrec :
  forall g t a b v g' t',
    rec g t a b = Some (v, g', t') ->
    ply t' = ply t /\ killer_rows_kept (ply t) t t'.

(** The capture loop stores at most once, in the row of its ply, the move
    at which it stops; it stops there exactly when [alpha] has risen above
    [beta], and then [best] is above [beta] too. *)
Lemma quiescence_loop_killers :
  forall n moves beta g t alpha best best' g' t',
    quiescence_loop rec moves beta n g t alpha best = Some (best', g', t') ->
    ply t' = ply t /\ killer_rows_kept (ply t - 1) t t' /\
    ((killer_row_kept (ply t) t t' /\
      (best <= alpha -> alpha <= beta -> best' <= beta))
     \/ (exists i, (i < n)%nat /\
           killer_row_pushed (ply t) (nth i moves 0) t t' /\
           (alpha <= beta -> beta < best'))).
Proof.
  induction n as [|n IH]; intros moves beta g t alpha best best' g' t' Hrun.
  - simpl in Hrun. injection Hrun as <- <- <-.
    split; [ reflexivity | ]. split; [ intros q s _; reflexivity | ].
    left. split; [ intros s; reflexivity | lia ].
  - cbn [quiescence_loop do_apply] in Hrun.
    set (m := nth n moves 0) in *.
    set (t0 := set_board t (apply_move (board t) m)) in *.
    destruct (is_not_in_check (board t0) (lnot (turn (board t0)))).
    + destruct (rec (log_applied g m) t0 (- beta) (- alpha))
        as [[[r g1] t1]|] eqn:Hr; [ | discriminate ].
      apply Hrec in Hr. destruct Hr as (Hp1 & Hk1).
      change (ply t0) with (ply t) in Hp1, Hk1.
      assert (Hk1' : forall q s, q <= ply t -> killer_moves t1 q s = killer_moves t q s)
        by exact Hk1.
      set (best1 := if - r >? best then - r else best) in *.
      set (alpha1 := if best1 >? alpha then best1 else alpha) in *.
      assert (Hba : best1 <= alpha1)
        by (subst alpha1; destruct (Z.gtb_spec best1 alpha); lia).
      destruct (Z.gtb_spec alpha1 beta) as [Hcut | Hno].
      * injection Hrun as <- <- <-.
        destruct (update_killer_rows t1 m) as (Hpush & Hother).
        rewrite Hp1 in Hpush, Hother.
        split; [ simpl; exact Hp1 | ]. split.
        -- intros q s Hq. cbn [do_revert killer_moves set_board].
           rewrite Hother by lia. apply Hk1'. lia.
        -- right. exists n. split; [ lia | ]. split.
           ++ apply (killer_row_pushed_base _ _ t t1);
                [ intros s; apply Hk1'; lia | exact Hpush ].
           ++ intros Hab. subst alpha1.
              destruct (Z.gtb_spec best1 alpha); lia.
      * apply IH in Hrun.
        change (ply (do_revert t1 m)) with (ply t1) in Hrun.
        rewrite Hp1 in Hrun.
        destruct Hrun as (Hp' & Hk' & Hout).
        assert (Hbase : forall q s, q <= ply t ->
                   killer_moves (do_revert t1 m) q s = killer_moves t q s)
          by exact Hk1'.
        split; [ exact Hp' | ]. split.
        -- intros q s Hq. rewrite (Hk' q s Hq). apply Hbase. lia.
        -- destruct Hout as [(Hrow & Hv) | (i & Hi & Hpush & Hv)].
           ++ left. split; [ | intros _ _; apply Hv; lia ].
              intros s. rewrite (Hrow s). apply Hbase. lia.
           ++ right. exists i. split; [ lia | ]. split; [ | intros _; apply Hv; lia ].
              apply (killer_row_pushed_base _ _ t (do_revert t1 m));
                [ intros s; apply Hbase; lia | exact Hpush ].
    + apply IH in Hrun.
      change (ply (do_revert t0 m)) with (ply t) in Hrun.
      destruct Hrun as (Hp' & Hk' & Hout).
      split; [ exact Hp' | ]. split; [ exact Hk' | ].
      destruct Hout as [(Hrow & Hv) | (i & Hi & Hpush & Hv)].
      * left. split; [ exact Hrow | exact Hv ].
      * right. exists i. split; [ lia | ]. split; [ exact Hpush | exact Hv ].
Qed.

End QuiescenceLoop.

(** [quiescence_search] called at ply [p]: the rows up to [p] are kept, and
    row [p + 1] is kept or holds one more move, a generated capture that
    lifted the score above [beta]. *)
Lemma quiescence_search_killers :
  forall fuel g t alpha beta v g' t',
    quiescence_search fuel g t alpha beta = Some (v, g', t') ->
    ply t' = ply t /\ killer_rows_kept (ply t) t t' /\
    ((killer_row_kept (ply t + 1) t t' /\
      (time_at (time_calls g) <= EndTime g ->
       evaluate_board (board t) <= beta -> alpha <= beta -> v <= beta))
     \/ (exists m, In m (gen_all_captures (board t)) /\
           killer_row_pushed (ply t + 1) m t t' /\ beta < v)).
Proof.
  induction fuel as [|fuel IH]; intros g t alpha beta v g' t' Hrun; [ discriminate | ].
  cbn [quiescence_search time fst snd EndTime time_calls] in Hrun. revert Hrun.
  destruct (Z.ltb_spec (EndTime g) (time_at (time_calls g))) as [Hexp | Hok].
  - intros [= <- <- <-].
    split; [ reflexivity | ]. split; [ intros q s _; reflexivity | ].
    left. split; [ intros s; reflexivity | lia ].
  - cbn [board set_quiescence_nodes set_raw_nodes].
    set (best := evaluate_board (board t)).
    set (alpha1 := if best >? alpha then best else alpha).
    assert (Hba : best <= alpha1)
      by (subst alpha1; destruct (Z.gtb_spec best alpha); lia).
    destruct (Z.gtb_spec alpha1 beta) as [Hcut | Hno].
    + intros [= <- <- <-].
      split; [ reflexivity | ]. split; [ intros q s _; reflexivity | ].
      left. split; [ intros s; reflexivity | ].
      intros _ Hb Hab. subst alpha1. destruct (Z.gtb_spec best alpha); lia.
    + set (t1 := set_ply _ _).
      destruct (quiescence_loop _ _ _ _ _ _ _ _) as [[[best' g1] t2]|] eqn:Hl;
        [ | discriminate ].
      intros [= <- <- <-].
      destruct (basic_heuristic_moves (fun m => In m (gen_all_captures (board t)))
                  t1 (gen_all_captures (board t))) as [Hall Hlen];
        [ apply Forall_forall; auto | ].
      apply (quiescence_loop_killers _
               (fun g t a b v g' t' H =>
                  let '(conj H1 (conj H2 _)) := IH g t a b v g' t' H in
                  conj H1 H2)) in Hl.
      change (ply t1) with (ply t + 1) in Hl.
      change (killer_moves t1) with (killer_moves t) in Hl.
      destruct Hl as (Hp & Hk & Hout).
      assert (Hk' : forall q s, q <= ply t ->
                 killer_moves t2 q s = killer_moves t q s).
      { intros q s Hq. rewrite (Hk q s ltac:(lia)). reflexivity. }
      split; [ simpl; lia | ]. split; [ exact Hk' | ].
      destruct Hout as [(Hrow & Hv) | (i & Hi & Hpush & Hv)].
      * left. split; [ exact Hrow | intros _ _ _; apply Hv; lia ].
      * right. exists (nth i (basic_heuristic t1 (gen_all_captures (board t))
                               (List.length (gen_all_captures (board t)))) 0).
        split; [ apply (Forall_nth_in _ _ _ _ Hall); rewrite Hlen; exact Hi | ].
        split; [ exact Hpush | apply Hv; lia ].
Qed.

Section AlphaBetaLoop.

Variable rec : ab_call.
Hypothesis Hrec :
  forall g t p cpv d a b v g' t' cpv',
    rec g t p cpv d a b = Some (v, g', t', cpv') ->
    ply t' = ply t /\ killer_rows_kept (ply t) t t'.

Lemma search_child_killers i fnp depth alpha beta g t lpv v g' t' lpv' :
  search_child rec i fnp depth alpha beta g t lpv = Some (v, g', t', lpv') ->
  ply t' = ply t /\ killer_rows_kept (ply t) t t'.
Proof.
  unfold search_child.
  destruct (negb (Nat.eqb i 0) && fnp).
  - destruct (rec g t PvLocal lpv (depth - 1) (- alpha - 1) (- alpha))
      as [[[[v1 g1] t1] l1]|] eqn:Hr; [ | discriminate ].
    apply Hrec in Hr. destruct Hr as (Hp1 & Hk1). cbn [negate].
    destruct ((- v1 >? alpha) && (- v1 <? beta)).
    + destruct (rec g1 t1 PvLocal l1 (depth - 1) (- beta) (- - v1))
        as [[[[v2 g2] t2] l2]|] eqn:Hr2; [ | discriminate ].
      apply Hrec in Hr2. destruct Hr2 as (Hp2 & Hk2). rewrite Hp1 in Hk2.
      cbn [negate]. intros [= <- <- <- <-].
      split; [ congruence | ]. eapply killer_rows_kept_trans; eassumption.
    + intros [= <- <- <- <-]. split; assumption.
  - destruct (rec g t PvLocal lpv (depth - 1) (- beta) (- alpha))
      as [[[[v1 g1] t1] l1]|] eqn:Hr; [ | discriminate ].
    apply Hrec in Hr. cbn [negate]. intros [= <- <- <- <-]. exact Hr.
Qed.

(** The move loop stores at most once, in the row of its ply, the move at
    which it stops.  If it runs to its end and found a legal move, [best] is
    at most [beta]; if it stops at a move, [best] is above [beta]. *)
Lemma alpha_beta_loop_killers moves p depth beta fnp :
  forall n i g t cpv lpv alpha best valid_size best' valid' g' t' cpv',
    alpha_beta_loop rec moves p depth beta fnp n i
                    g t cpv lpv alpha best valid_size
    = Some (best', valid', g', t', cpv') ->
    ply t' = ply t /\ killer_rows_kept (ply t - 1) t t' /\
    ((killer_row_kept (ply t) t t' /\
      ((valid' = valid_size /\ best' = best)
       \/ (valid_size < valid' /\ best' <= beta)))
     \/ (exists k, (i <= k < i + n)%nat /\
           killer_row_pushed (ply t) (nth k moves 0) t t' /\
           valid_size < valid' /\ (alpha <= beta -> beta < best'))).
Proof.
  induction n as [|n IH];
    intros i g t cpv lpv alpha best valid_size best' valid' g' t' cpv' Hrun.
  - simpl in Hrun. injection Hrun as <- <- <- <- <-.
    split; [ reflexivity | ]. split; [ intros q s _; reflexivity | ].
    left. split; [ intros s; reflexivity | left; split; reflexivity ].
  - cbn [alpha_beta_loop do_apply] in Hrun.
    set (m := nth i moves 0) in *.
    set (t0 := set_board t (apply_move (board t) m)) in *.
    destruct (is_not_in_check (board t0) (lnot (turn (board t0)))).
    + destruct (search_child rec i fnp depth alpha beta (log_applied g m) t0 lpv)
        as [[[[value g1] t1] lpv1]|] eqn:Hc; [ | discriminate ].
      apply search_child_killers in Hc. destruct Hc as (Hp1 & Hk1).
      change (ply t0) with (ply t) in Hp1, Hk1.
      assert (Hk1' : forall q s, q <= ply t -> killer_moves t1 q s = killer_moves t q s)
        by exact Hk1.
      set (t2 := if ply t1 =? 1
                 then set_depth_one_values t1
                        (upd (depth_one_values t1) (Z.of_nat i) value)
                 else t1) in *.
      assert (Ht2 : ply t2 = ply t /\ killer_moves t2 = killer_moves t1)
        by (subst t2; destruct (ply t1 =? 1); simpl; auto).
      clearbody t2.
      set (best1 := if value >? best then value else best) in *.
      destruct (if best1 >? alpha then _ else _) as [alpha1 [t3 cpv3]] eqn:Hupd.
      assert (Ht3 : ply t3 = ply t /\ killer_moves t3 = killer_moves t1 /\
                    best1 <= alpha1 /\ (alpha <= beta -> beta < alpha1 -> beta < best1)).
      { revert Hupd. destruct (Z.gtb_spec best1 alpha);
          [ destruct (negb (length lpv1 =? -1)); [ destruct p | ] | ];
          simpl; intros [= <- <- <-]; simpl;
          (split; [ apply Ht2 | split; [ apply Ht2 | split; lia ] ]). }
      clear Hupd. destruct Ht3 as (Hp3 & Hk3 & Hba & Hhigh).
      assert (Hbase : forall q s, q <= ply t ->
                 killer_moves t3 q s = killer_moves t q s)
        by (intros q s Hq; rewrite Hk3; apply Hk1', Hq).
      destruct (Z.gtb_spec alpha1 beta) as [Hcut | Hno].
      * injection Hrun as <- <- <- <- <-.
        destruct (update_killer_rows t3 m) as (Hpush & Hother).
        rewrite Hp3 in Hpush, Hother.
        split; [ simpl; exact Hp3 | ]. split.
        -- intros q s Hq. cbn [do_revert killer_moves set_board].
           rewrite Hother by lia. apply Hbase. lia.
        -- right. exists i. split; [ lia | ]. split; [ | split; [ lia | ] ].
           ++ apply (killer_row_pushed_base _ _ t t3);
                [ intros s; apply Hbase; lia | exact Hpush ].
           ++ intros Hab. apply Hhigh; assumption.
      * apply IH in Hrun.
        change (ply (do_revert t3 m)) with (ply t3) in Hrun.
        change (killer_rows_kept (ply t3 - 1) (do_revert t3 m) t')
          with (killer_rows_kept (ply t3 - 1) t3 t') in Hrun.
        rewrite Hp3 in Hrun.
        destruct Hrun as (Hp' & Hk' & Hout).
        split; [ exact Hp' | ]. split.
        -- intros q s Hq. rewrite (Hk' q s Hq). apply Hbase. lia.
        -- destruct Hout as [(Hrow & Hv) | (k & Hi & Hpush & Hvs & Hv)].
           ++ left. split.
              ** intros s. rewrite (Hrow s). apply (Hbase (ply t) s). lia.
              ** right. destruct Hv as [[-> ->] | [Hlt Hle]]; split; lia.
           ++ right. exists k. split; [ lia | ]. split; [ | split; [ lia | ] ].
              ** apply (killer_row_pushed_base _ _ t (do_revert t3 m));
                   [ intros s; apply (Hbase (ply t) s); lia | exact Hpush ].
              ** intros _. apply Hv. lia.
    + apply IH in Hrun.
      change (ply (do_revert t0 m)) with (ply t) in Hrun.
      destruct Hrun as (Hp' & Hk' & Hout).
      split; [ exact Hp' | ]. split; [ exact Hk' | ].
      destruct Hout as [(Hrow & Hv) | (k & Hi & Hpush & Hvs & Hv)].
      * left. split; [ exact Hrow | exact Hv ].
      * right. exists k. split; [ lia | ]. split; [ exact Hpush | ].
        split; [ exact Hvs | exact Hv ].
Qed.

End AlphaBetaLoop.

(** [alpha_beta_prune] called at ply [p]: the rows up to [p] are kept, and
    row [p + 1] is kept or holds one more move.  At depth 0 that move is a
    capture stored by [quiescence_search]; at any other depth it is one of
    the generated moves, whatever it captures. *)
Lemma alpha_beta_prune_killers :
  forall fuel g t p cpv depth alpha beta v g' t' cpv',
    alpha_beta_prune fuel g t p cpv depth alpha beta = Some (v, g', t', cpv') ->
    ply t' = ply t /\ killer_rows_kept (ply t) t t' /\
    ((killer_row_kept (ply t + 1) t t' /\
      (time_at (time_calls g) <= EndTime g -> depth <> 0 ->
       - CheckMate <= beta -> v <= beta \/ v = 0))
     \/ (exists m,
           (if depth =? 0 then In m (gen_all_captures (board t))
            else In m (gen_all_moves (board t))) /\
           killer_row_pushed (ply t + 1) m t t' /\
           (alpha <= beta -> beta < v))).
Proof.
  induction fuel as [|fuel IH];
    intros g t p cpv depth alpha beta v g' t' cpv' Hrun; [ discriminate | ].
  cbn [alpha_beta_prune time fst snd EndTime time_calls] in Hrun. revert Hrun.
  destruct (Z.ltb_spec (EndTime g) (time_at (time_calls g))) as [Hexp | Hok].
  - destruct p; simpl; intros [= <- <- <- <-];
      (split; [ reflexivity | ]); (split; [ intros q s _; reflexivity | ]);
      left; (split; [ intros s; reflexivity | lia ]).
  - destruct (Z.eqb_spec depth 0) as [Hd | Hd].
    + set (t1 := set_alpha_beta_nodes _ _).
      destruct (pv_store p t1 cpv _) as [t2 cpv2] eqn:Hst.
      assert (Ht2 : board t2 = board t /\ ply t2 = ply t /\
                    killer_moves t2 = killer_moves t)
        by (revert Hst; destruct p; simpl; intros [= <- <-]; simpl; auto).
      destruct Ht2 as (Hb2 & Hp2 & Hk2).
      destruct (quiescence_search fuel _ t2 alpha beta) as [[[v1 g1] t3]|] eqn:Hq;
        [ | discriminate ].
      intros [= <- <- <- <-].
      apply quiescence_search_killers in Hq.
      rewrite Hp2, Hb2 in Hq. destruct Hq as (Hp & Hk & Hout).
      split; [ exact Hp | ]. split.
      * intros q s Hq. rewrite (Hk q s Hq), Hk2. reflexivity.
      * destruct Hout as [(Hrow & _) | (m & Hin & Hpush & Hv)].
        -- left. split; [ | intros _ Hne; contradiction ].
           intros s. rewrite (Hrow s), Hk2. reflexivity.
        -- right. exists m. split; [ exact Hin | ]. split; [ | intros _; exact Hv ].
           apply (killer_row_pushed_from _ _ t t2); assumption.
    + set (t1 := set_ply _ _).
      destruct (order_moves_ok (fun m => In m (gen_all_moves (board t)))
                  t1 (gen_all_moves (board t)))
        as (Hall & Hlen & Hb2 & Hp2 & Hk2 & _);
        [ apply Forall_forall; auto | ].
      change (board t1) with (board t).
      destruct (order_moves t1 _ _) as [t2 moves].
      cbn [fst snd] in Hall, Hlen, Hb2, Hp2, Hk2.
      change (ply t1) with (ply t + 1) in Hp2.
      change (killer_moves t1) with (killer_moves t) in Hk2.
      destruct (alpha_beta_loop _ _ _ _ _ _ _ _ _ _ _ _ _ _ _)
        as [[[[[best' valid'] g1] t3] cpv3]|] eqn:Hl; [ | discriminate ].
      intros [= <- <- <- <-].
      apply (alpha_beta_loop_killers _
               (fun g t p cpv d a b v g' t' cpv' H =>
                  let '(conj H1 (conj H2 _)) := IH g t p cpv d a b v g' t' cpv' H in
                  conj H1 H2)) in Hl.
      rewrite Hp2 in Hl. destruct Hl as (Hp & Hk & Hout).
      split; [ simpl; lia | ]. split.
      * intros q s Hq. cbn [killer_moves set_ply].
        rewrite (Hk q s ltac:(lia)), Hk2. reflexivity.
      * destruct Hout as [(Hrow & Hv) | (k & Hi & Hpush & Hvs & Hv)].
        -- left. split.
           ++ intros s. cbn [killer_moves set_ply]. rewrite (Hrow s), Hk2. reflexivity.
           ++ intros _ _ Hmate.
              destruct Hv as [[-> ->] | [Hlt Hle]].
              ** cbn [Z.eqb andb].
                 destruct (is_not_in_check _ _); [ right; reflexivity | left; lia ].
              ** destruct (Z.eqb_spec valid' 0); [ lia | ]. cbn [andb]. left. exact Hle.
        -- right. exists (nth k moves 0).
           destruct (Z.eqb_spec depth 0); [ contradiction | ].
           split; [ apply (Forall_nth_in _ _ _ _ Hall); rewrite Hlen; lia | ].
           split.
           ++ apply (killer_row_pushed_then _ _ _ t3);
                [ | intros s; reflexivity ].
              apply (killer_row_pushed_from _ _ t t2); assumption.
           ++ intros Hab. destruct (Z.eqb_spec valid' 0); [ lia | ].
              cbn [andb]. apply Hv, Hab.
Qed.

End KillerRows.

(** ** The claims about the search *)

Section SearchClaims.

Import Search SearchProps.

(** Both search functions return once the fuel of the model exceeds the
    depth plus the material on the board. *)
Lemma search_returns
    (E : Externals) (mu : board_t -> nat) (laws : board_laws mu)
    (fuel : nat) (g : globals) (t : search_tree_t) (p : pv_ptr)
    (cpv : principle_variation_t) (depth alpha beta : Z) :
  0 <= depth ->
  (Z.to_nat depth + mu (board t) + 1 < fuel)%nat ->
  (exists r, alpha_beta_prune fuel g t p cpv depth alpha beta = Some r) /\
  (exists r, quiescence_search fuel g t alpha beta = Some r).
Proof.
  intros Hd Hmu. split.
  - apply (alpha_beta_prune_terminates mu laws); assumption.
  - apply (quiescence_search_terminates mu laws). lia.
Qed.

(** C8.  With [apply_move] and [revert_move] exact inverses, every call of
    [alpha_beta_prune] and every call of [quiescence_search] that returns
    leaves [tree->board] equal to the board at entry.  The statement covers
    every path through the code: loop completion, cutoff, skipped illegal
    move, delegation at depth 0 and the return on an expired deadline.  The
    calls do return: on a board module whose captures lower the material
    (and with it the depth of the recursion), enough fuel gives a result. *)
Theorem search_restores_board
    (E : Externals) (fuel : nat) (g : globals) (t : search_tree_t) (p : pv_ptr)
    (cpv : principle_variation_t) (depth alpha beta : Z) :
  inverses ->
  (forall v g' t' cpv',
      alpha_beta_prune fuel g t p cpv depth alpha beta = Some (v, g', t', cpv') ->
      board t' = board t) /\
  (forall v g' t',
      quiescence_search fuel g t alpha beta = Some (v, g', t') ->
      board t' = board t) /\
  (forall mu : board_t -> nat,
      board_laws mu -> 0 <= depth ->
      (Z.to_nat depth + mu (board t) + 1 < fuel)%nat ->
      (exists r, alpha_beta_prune fuel g t p cpv depth alpha beta = Some r) /\
      (exists r, quiescence_search fuel g t alpha beta = Some r)).
Proof.
  intros Hinv. split; [ | split ].
  - intros v g' t' cpv' Hrun.
    apply (alpha_beta_prune_returns (fun _ => True)
             (fun _ _ _ => I) (fun _ _ _ => I)) in Hrun.
    destruct Hrun as (_ & _ & Hb). apply Hb, Hinv.
  - intros v g' t' Hrun.
    apply (quiescence_search_returns (fun _ => True) (fun _ _ _ => I)) in Hrun.
    destruct Hrun as (_ & _ & _ & Hb & _). apply Hb, Hinv.
  - intros mu laws. apply search_returns, laws.
Qed.

Lemma search_restores_board_witness :
  let E := Pawns.externals Pawns.frozen in
  let t := Pawns.fresh_tree Pawns.frozen Pawns.one_pawn_each in
  (exists v g' t' cpv',
      alpha_beta_prune 8 Pawns.running t PvTree Pawns.no_pv 2 (-32000) 32000
      = Some (v, g', t', cpv') /\ board t' = board t) /\
  (exists v g' t',
      quiescence_search 8 Pawns.running t (-32000) 32000 = Some (v, g', t') /\
      board t' = board t).
Proof.
  cbv zeta.
  destruct (search_restores_board (Pawns.externals Pawns.frozen) 8 Pawns.running
              (Pawns.fresh_tree Pawns.frozen Pawns.one_pawn_each)
              PvTree Pawns.no_pv 2 (-32000) 32000 unplay_play)
    as (Hab & Hq & _).
  split.
  - eexists _, _, _, _. split; [ vm_compute; reflexivity | ].
    eapply Hab. vm_compute. reflexivity.
  - eexists _, _, _. split; [ vm_compute; reflexivity | ].
    eapply Hq. vm_compute. reflexivity.
Defined.

(** C9.  If the deadline has not passed when the call reads the clock at
    its entry -- so in particular if it has not passed at any node visited
    during the call -- then for every position and every window, the lowest
    [alpha] included, every score that [quiescence_search] returns is at
    least [evaluate_board] of the position, whatever the clock does later in
    the call; and the call does return such a score once the fuel of the
    model exceeds the material on the board. *)
Theorem quiescence_at_least_stand_pat
    (E : Externals) (fuel : nat) (g : globals) (t : search_tree_t)
    (alpha beta : Z) :
  time_at (time_calls g) <= EndTime g ->
  (forall v g' t',
      quiescence_search fuel g t alpha beta = Some (v, g', t') ->
      evaluate_board (board t) <= v) /\
  (forall mu : board_t -> nat,
      board_laws mu -> (mu (board t) < fuel)%nat ->
      exists v g' t',
        quiescence_search fuel g t alpha beta = Some (v, g', t') /\
        evaluate_board (board t) <= v).
Proof.
  intros Hentry.
  assert (Hret : forall v g' t',
             quiescence_search fuel g t alpha beta = Some (v, g', t') ->
             evaluate_board (board t) <= v).
  { intros v g' t' Hrun.
    apply (quiescence_search_returns (fun _ => True) (fun _ _ _ => I)) in Hrun.
    destruct Hrun as (_ & _ & _ & _ & Hv). apply Hv, Hentry. }
  split; [ exact Hret | ].
  intros mu laws Hmu.
  destruct (quiescence_search_terminates mu laws fuel g t alpha beta Hmu)
    as [[[v g'] t'] Hrun].
  exists v, g', t'. split; [ exact Hrun | ]. eapply Hret, Hrun.
Qed.

(** The clock reads 0 at the entry of the call and 100, past the deadline
    of 10, at every later reading: the calls for the two captures return at
    their entry checks, and the score is the stand-pat score. *)
Lemma quiescence_at_least_stand_pat_witness :
  let E := Pawns.externals (Pawns.jumping 1) in
  let t := Pawns.fresh_tree (Pawns.jumping 1) Pawns.one_pawn_each in
  exists v g' t',
    quiescence_search 8 Pawns.running t (- CheckMate) CheckMate
    = Some (v, g', t') /\
    evaluate_board (board t) <= v.
Proof.
  cbv zeta.
  destruct (quiescence_at_least_stand_pat (Pawns.externals (Pawns.jumping 1)) 8
              Pawns.running
              (Pawns.fresh_tree (Pawns.jumping 1) Pawns.one_pawn_each)
              (-32000) 32000) as [_ Hreturns].
  - vm_compute. discriminate.
  - apply (Hreturns Pawns.material (pawns_laws (Pawns.jumping 1))).
    vm_compute. lia.
Defined.

(** C7 (as stated, refuted).  On the miniature board, with white to move,
    one pawn each and the window (-50, 50), every killer slot holds a quiet
    move before [quiescence_search] runs; the capture [capture_a] raises
    [alpha] above [beta], and after the call [killer_moves[1][0]] holds that
    capture. *)
Lemma quiescence_stores_capture_as_killer :
  let E := Pawns.externals Pawns.frozen in
  let t := Pawns.fresh_tree Pawns.frozen Pawns.one_pawn_each in
  killers_satisfy (fun m => is_quiet m = true) t /\
  exists v g' t',
    quiescence_search 8 Pawns.running t (-50) 50 = Some (v, g', t') /\
    killer_moves t' 1 0 = Pawns.capture_a /\
    is_quiet (killer_moves t' 1 0) = false /\
    ~ killers_satisfy (fun m => is_quiet m = true) t'.
Proof.
  cbv zeta. split; [ intros p s _; reflexivity | ].
  eexists _, _, _. split; [ vm_compute; reflexivity | ].
  split; [ reflexivity | ]. split; [ reflexivity | ].
  intros Hk. specialize (Hk 1 0 ltac:(lia)). vm_compute in Hk. discriminate.
Qed.

(** C7 (amended).  The killer table holds the moves at which the loops
    stopped, captures included: [update_killer_heuristic] is called at every
    cutoff of both search functions and the capture field of the move is
    never tested.  Whenever a call made at ply [p] returns,
    - every slot holds a generated move or a value the table held at entry
      (after [quiescence_search]: a generated capture or such a value);
    - the rows of the plies up to [p] are as they were;
    - row [p + 1] is as it was, or one move [m] has been stored in it: [m]
      in slot 0, the former slots 0 and 1 in slots 1 and 2.  In
      [quiescence_search], and in [alpha_beta_prune] at depth 0, [m] is one
      of the captures generated for the position of the call; in
      [alpha_beta_prune] at any other depth it is one of the generated
      moves, capture or not.  Called with [alpha <= beta], the store goes
      with a score above [beta];
    - the store is not skipped: a call of [quiescence_search] that began
      before the deadline with [alpha] and the stand-pat score at most
      [beta] and left row [p + 1] as it was returns a score of at most
      [beta], and so does a call of [alpha_beta_prune] at a depth other
      than 0 with [-CheckMate <= beta], unless it returns the score 0 of a
      position without a legal move.
    The calls do return: on a board module whose captures lower the
    material, enough fuel gives a result. *)
Theorem killer_table_holds_cutoff_moves
    (E : Externals) (fuel : nat) (g : globals) (t : search_tree_t) (p : pv_ptr)
    (cpv : principle_variation_t) (depth alpha beta : Z) :
  (forall v g' t' cpv',
      alpha_beta_prune fuel g t p cpv depth alpha beta = Some (v, g', t', cpv') ->
      killers_satisfy (fun m => generated m \/ held_by t m) t' /\
      killer_rows_kept (ply t) t t' /\
      ((killer_row_kept (ply t + 1) t t' /\
        (time_at (time_calls g) <= EndTime g -> depth <> 0 ->
         - CheckMate <= beta -> v <= beta \/ v = 0))
       \/ (exists m,
             (if depth =? 0 then In m (gen_all_captures (board t))
              else In m (gen_all_moves (board t))) /\
             killer_row_pushed (ply t + 1) m t t' /\
             (alpha <= beta -> beta < v)))) /\
  (forall v g' t',
      quiescence_search fuel g t alpha beta = Some (v, g', t') ->
      killers_satisfy (fun m => generated_capture m \/ held_by t m) t' /\
      killer_rows_kept (ply t) t t' /\
      ((killer_row_kept (ply t + 1) t t' /\
        (time_at (time_calls g) <= EndTime g ->
         evaluate_board (board t) <= beta -> alpha <= beta -> v <= beta))
       \/ (exists m,
             In m (gen_all_captures (board t)) /\
             killer_row_pushed (ply t + 1) m t t' /\ beta < v))) /\
  (forall mu : board_t -> nat,
      board_laws mu -> 0 <= depth ->
      (Z.to_nat depth + mu (board t) + 1 < fuel)%nat ->
      (exists r, alpha_beta_prune fuel g t p cpv depth alpha beta = Some r) /\
      (exists r, quiescence_search fuel g t alpha beta = Some r)).
Proof.
  assert (Hentry : forall Q, killers_satisfy (fun m => Q m \/ held_by t m) t)
    by (intros Q q s Hs; right; exists q, s; auto).
  split; [ | split ].
  - intros v g' t' cpv' Hrun.
    destruct (alpha_beta_prune_killers _ _ _ _ _ _ _ _ _ _ _ _ Hrun)
      as (_ & Hrows & Hout).
    apply (alpha_beta_prune_returns (fun m => generated m \/ held_by t m)
             (fun b m Hin => or_introl (ex_intro _ b (or_intror Hin)))
             (fun b m Hin => or_introl (ex_intro _ b (or_introl Hin)))) in Hrun.
    destruct Hrun as ([_ Hk] & _).
    split; [ apply Hk, Hentry | ]. split; [ exact Hrows | exact Hout ].
  - intros v g' t' Hrun.
    destruct (quiescence_search_killers _ _ _ _ _ _ _ _ Hrun)
      as (_ & Hrows & Hout).
    apply (quiescence_search_returns (fun m => generated_capture m \/ held_by t m)
             (fun b m Hin => or_introl (ex_intro _ b Hin))) in Hrun.
    destruct Hrun as ([_ Hk] & _).
    split; [ apply Hk, Hentry | ]. split; [ exact Hrows | exact Hout ].
  - intros mu laws. apply search_returns, laws.
Qed.

(** On the miniature board, with the window (-50, 50): with one pawn each
    [alpha_beta_prune] at depth 1 stops at the capture [capture_b] and
    [quiescence_search] at the capture [capture_a]; with a white pawn only
    there is no capture and [alpha_beta_prune] stops at the quiet move
    [quiet_a].  Each time the move is in slot 0 of row 1 afterwards. *)
Lemma killer_table_holds_cutoff_moves_witness :
  let E := Pawns.externals Pawns.frozen in
  let t := Pawns.fresh_tree Pawns.frozen Pawns.one_pawn_each in
  let q := Pawns.fresh_tree Pawns.frozen
             {| Pawns.white_to_move := true; Pawns.white_pawns := 1;
                Pawns.black_pawns := 0 |} in
  (exists v g' t' cpv',
      alpha_beta_prune 8 Pawns.running t PvTree Pawns.no_pv 1 (-50) 50
      = Some (v, g', t', cpv') /\
      (killers_satisfy (fun m => generated m \/ held_by t m) t' /\
       killer_rows_kept (ply t) t t' /\
       ((killer_row_kept (ply t + 1) t t' /\
         (time_at (time_calls Pawns.running) <= EndTime Pawns.running -> 1 <> 0 ->
          - CheckMate <= 50 -> v <= 50 \/ v = 0))
        \/ (exists m,
              In m (gen_all_moves (board t)) /\
              killer_row_pushed (ply t + 1) m t t' /\
              (-50 <= 50 -> 50 < v)))) /\
      v = 100 /\ killer_moves t' 1 0 = Pawns.capture_b) /\
  (exists v g' t',
      quiescence_search 8 Pawns.running t (-50) 50 = Some (v, g', t') /\
      (killers_satisfy (fun m => generated_capture m \/ held_by t m) t' /\
       killer_rows_kept (ply t) t t' /\
       ((killer_row_kept (ply t + 1) t t' /\
         (time_at (time_calls Pawns.running) <= EndTime Pawns.running ->
          evaluate_board (board t) <= 50 -> -50 <= 50 -> v <= 50))
        \/ (exists m,
              In m (gen_all_captures (board t)) /\
              killer_row_pushed (ply t + 1) m t t' /\ 50 < v))) /\
      v = 100 /\ killer_moves t' 1 0 = Pawns.capture_a) /\
  (exists v g' t' cpv',
      alpha_beta_prune 8 Pawns.running q PvTree Pawns.no_pv 1 (-50) 50
      = Some (v, g', t', cpv') /\
      (killers_satisfy (fun m => generated m \/ held_by q m) t' /\
       killer_rows_kept (ply q) q t' /\
       ((killer_row_kept (ply q + 1) q t' /\
         (time_at (time_calls Pawns.running) <= EndTime Pawns.running -> 1 <> 0 ->
          - CheckMate <= 50 -> v <= 50 \/ v = 0))
        \/ (exists m,
              In m (gen_all_moves (board q)) /\
              killer_row_pushed (ply q + 1) m q t' /\
              (-50 <= 50 -> 50 < v)))) /\
      v = 100 /\ killer_moves t' 1 0 = Pawns.quiet_a /\
      is_quiet Pawns.quiet_a = true).
Proof.
  cbv zeta.
  destruct (killer_table_holds_cutoff_moves (Pawns.externals Pawns.frozen) 8
              Pawns.running (Pawns.fresh_tree Pawns.frozen Pawns.one_pawn_each)
              PvTree Pawns.no_pv 1 (-50) 50)
    as (Hab & Hq & _).
  destruct (killer_table_holds_cutoff_moves (Pawns.externals Pawns.frozen) 8
              Pawns.running
              (Pawns.fresh_tree Pawns.frozen
                 {| Pawns.white_to_move := true; Pawns.white_pawns := 1;
                    Pawns.black_pawns := 0 |})
              PvTree Pawns.no_pv 1 (-50) 50)
    as (Hab' & _ & _).
  split; [ | split ].
  - eexists _, _, _, _. split; [ vm_compute; reflexivity | ].
    split; [ eapply Hab; vm_compute; reflexivity | split; reflexivity ].
  - eexists _, _, _. split; [ vm_compute; reflexivity | ].
    split; [ eapply Hq; vm_compute; reflexivity | split; reflexivity ].
  - eexists _, _, _, _. split; [ vm_compute; reflexivity | ].
    split; [ eapply Hab'; vm_compute; reflexivity | repeat split ].
Defined.

(** C4 (as stated, refuted).  On the miniature board with one pawn each the
    stand-pat score is 0; called with [alpha = beta = 0] the updated [alpha]
    satisfies [alpha >= beta], yet the function goes on, plays [capture_a]
    and returns 100 instead of the stand-pat score. *)
Lemma quiescence_searches_when_alpha_equals_beta :
  let E := Pawns.externals Pawns.frozen in
  let t := Pawns.fresh_tree Pawns.frozen Pawns.one_pawn_each in
  let best := evaluate_board (board t) in
  Z.max 0 best >= 0 /\
  exists g' t',
    quiescence_search 8 Pawns.running t 0 0 = Some (100, g', t') /\
    100 <> best /\
    applied g' = [Pawns.capture_a] /\
    quiescence_nodes t' = 2.
Proof.
  cbv zeta. split; [ vm_compute; discriminate | ].
  eexists _, _. split; [ vm_compute; reflexivity | ].
  split; [ vm_compute; discriminate | ]. split; reflexivity.
Qed.

(** C4 (amended).  If the deadline has not passed at entry and, after the
    stand-pat update, [alpha > beta] holds (strictly), then
    [quiescence_search] returns the stand-pat score at once: the node
    counters are incremented, nothing else in the tree changes, no move is
    generated or played and the clock is read once. *)
Theorem quiescence_stand_pat_cutoff
    (E : Externals) (fuel : nat) (g : globals) (t : search_tree_t)
    (alpha beta : Z) :
  time_at (time_calls g) <= EndTime g ->
  Z.max alpha (evaluate_board (board t)) > beta ->
  quiescence_search (S fuel) g t alpha beta
  = Some (evaluate_board (board t),
          snd (time g),
          set_quiescence_nodes (set_raw_nodes t (raw_nodes t + 1))
                               (quiescence_nodes t + 1)).
Proof.
  intros Htime Hcut. simpl.
  destruct (Z.ltb_spec (EndTime g) (time_at (time_calls g))); [ lia | ].
  destruct (Z.gtb_spec (evaluate_board (board t)) alpha).
  - destruct (Z.gtb_spec (evaluate_board (board t)) beta); [ reflexivity | lia ].
  - destruct (Z.gtb_spec alpha beta); [ reflexivity | lia ].
Qed.

Lemma quiescence_stand_pat_cutoff_witness :
  let E := Pawns.externals Pawns.frozen in
  let t := Pawns.fresh_tree Pawns.frozen Pawns.one_pawn_each in
  quiescence_search 1 Pawns.running t 0 (-1)
  = Some (evaluate_board (board t),
          snd (time Pawns.running),
          set_quiescence_nodes (set_raw_nodes t (raw_nodes t + 1))
                               (quiescence_nodes t + 1)).
Proof.
  apply (quiescence_stand_pat_cutoff (Pawns.externals Pawns.frozen));
    vm_compute; [ discriminate | reflexivity ].
Defined.

(** C3 (the code at the failing input).  On the miniature board with one
    pawn each, the two captures score 1 and 5; [basic_heuristic] puts the
    capture scoring 5 at index 0, and the loop of [quiescence_search], which
    counts down from [size - 1], plays the capture scoring 1 first. *)
Theorem quiescence_plays_lowest_score_first :
  let E := Pawns.externals Pawns.frozen in
  let t := Pawns.fresh_tree Pawns.frozen Pawns.one_pawn_each in
  gen_all_captures (board t) = [Pawns.capture_a; Pawns.capture_b] /\
  map (heuristic_value (set_ply t 1)) [Pawns.capture_a; Pawns.capture_b]
  = [1; 5] /\
  basic_heuristic (set_ply t 1) [Pawns.capture_a; Pawns.capture_b] 2
  = [Pawns.capture_b; Pawns.capture_a] /\
  exists v g' t',
    quiescence_search 8 Pawns.running t (- CheckMate) CheckMate
    = Some (v, g', t') /\
    applied g' = [Pawns.capture_a; Pawns.capture_b].
Proof.
  cbv zeta. repeat (split; [ vm_compute; reflexivity | ]).
  eexists _, _, _. split; [ vm_compute; reflexivity | reflexivity ].
Qed.

(** C2 (the code at the failing input).  At the root of the miniature board
    with one pawn each, with previous root scores 40, 30, 20, 10 for the four
    generated moves, the order by previous root score is the generated
    order; the ordering step returns the moves in the order of
    [basic_heuristic] instead, captures first, and the root loop of a
    depth-1 search plays them in that order. *)
Theorem root_moves_ordered_by_basic_heuristic :
  let E := Pawns.externals Pawns.frozen in
  let t := set_depth_one_values
             (Pawns.fresh_tree Pawns.frozen Pawns.one_pawn_each)
             (store_prefix (fun _ => 0) [40; 30; 20; 10]) in
  let moves := gen_all_moves (board t) in
  moves = [Pawns.quiet_a; Pawns.quiet_b; Pawns.capture_a; Pawns.capture_b] /\
  fst (order_by_value moves (load_prefix (depth_one_values t) 4) 4) = moves /\
  snd (order_moves (set_ply t 1) moves 4)
  = [Pawns.capture_b; Pawns.capture_a; Pawns.quiet_a; Pawns.quiet_b] /\
  exists v g' t' cpv',
    alpha_beta_prune 8 Pawns.running t PvTree Pawns.no_pv 1
                     (- CheckMate) CheckMate
    = Some (v, g', t', cpv') /\
    applied g'
    = [Pawns.capture_b; Pawns.capture_a; Pawns.quiet_a; Pawns.quiet_b].
Proof.
  cbv zeta. repeat (split; [ vm_compute; reflexivity | ]).
  eexists _, _, _, _. split; [ vm_compute; reflexivity | reflexivity ].
Qed.







(** The driver loop leaves the deadline alone. *)
Lemma deepening_loop_returns (E : Externals) (fuel : nat) :
  forall n depth g t g' t',
    deepening_loop fuel n depth g t = Some (g', t') ->
    same_deadline g g' /\ (inverses -> board t' = board t).
Proof.
  induction n as [|n IH]; intros depth g t g' t' Hrun.
  - simpl in Hrun. injection Hrun as <- <-.
    split; [ apply same_deadline_refl | reflexivity ].
  - cbn [deepening_loop] in Hrun. revert Hrun.
    destruct (alpha_beta_prune fuel g t PvTree _ depth _ _)
      as [[[[v g1] t1] cpv1]|] eqn:Hr; [ | discriminate ].
    apply (alpha_beta_prune_returns (fun _ => True)
             (fun _ _ _ => I) (fun _ _ _ => I)) in Hr.
    destruct Hr as (_ & Hg & Hb).
    cbn [time fst snd EndTime time_calls].
    destruct (_ <? _).
    + intros [= <- <-]. split; [ | exact Hb ].
      eapply same_deadline_trans; [ exact Hg | ]. repeat split.
    + intros Hrun. apply IH in Hrun. destruct Hrun as (Hg' & Hb').
      split; [ | intros Hinv; rewrite (Hb' Hinv); apply Hb, Hinv ].
      eapply same_deadline_trans; [ exact Hg | ].
      eapply same_deadline_trans; [ | exact Hg' ]. repeat split.
Qed.

(** The driver loop returns. *)
Lemma deepening_loop_terminates
    (E : Externals) (mu : board_t -> nat) (laws : board_laws mu) (fuel : nat) :
  forall n depth g t,
    0 <= depth ->
    (Z.to_nat depth + n + mu (board t) < fuel)%nat ->
    exists r, deepening_loop fuel n depth g t = Some r.
Proof.
  induction n as [|n IH]; intros depth g t Hd Hmu.
  - eexists. reflexivity.
  - cbn [deepening_loop].
    destruct (alpha_beta_prune_terminates mu laws fuel g t PvTree
                (principle_variation t) depth (- CheckMate) CheckMate Hd)
      as [[[[v g1] t1] cpv1] Hr]; [ lia | ].
    rewrite Hr. cbn [time fst snd EndTime time_calls].
    apply (alpha_beta_prune_returns (fun _ => True)
             (fun _ _ _ => I) (fun _ _ _ => I)) in Hr.
    destruct Hr as (_ & _ & Hb). specialize (Hb (laws_inverses mu laws)).
    destruct (_ <? _); [ eexists; reflexivity | ].
    apply IH; [ lia | rewrite Hb; lia ].
Qed.

(** C1 (what the code does).  Whatever budget [alloted_time] the caller
    passes, [get_best_move] records the reading of the clock as [StartTime]
    and sets [EndTime] to [StartTime + 10]: the parameter is overwritten
    with 10 before it is used.  This is the state in every result of the
    function, and the function does return once the fuel of the model
    exceeds [MaxDepth] plus the material on the board. *)
Theorem get_best_move_deadline_is_ten_seconds
    (E : Externals) (fuel : nat) (g : globals) (tree0 : search_tree_t)
    (b : board_t) (alloted_time : Z) :
  (forall m g' t',
      get_best_move fuel g tree0 b alloted_time = Some (m, g', t') ->
      StartTime g' = time_at (time_calls g) /\
      EndTime g' = StartTime g' + 10) /\
  (forall mu : board_t -> nat,
      board_laws mu -> (Z.to_nat MaxDepth + mu b + 1 < fuel)%nat ->
      exists r, get_best_move fuel g tree0 b alloted_time = Some r).
Proof.
  unfold get_best_move. cbn [time fst snd]. split.
  - intros m g' t'.
    destruct (deepening_loop _ _ _ _ _) as [[g1 t1]|] eqn:Hl; [ | discriminate ].
    intros [= <- <- <-].
    apply deepening_loop_returns in Hl. destruct Hl as ((Hs & He & _) & _).
    rewrite Hs, He. split; reflexivity.
  - intros mu laws Hfuel.
    match goal with
    | |- context [deepening_loop fuel ?n 1 ?g1 ?t1] =>
        destruct (deepening_loop_terminates E mu laws fuel n 1 g1 t1)
          as [[g' t'] Hl]; [ lia | simpl; lia | ]
    end.
    rewrite Hl. eexists. reflexivity.
Qed.

Lemma get_best_move_deadline_is_ten_seconds_witness :
  let E := Pawns.externals Pawns.ticking in
  exists m g' t',
    get_best_move 100 Pawns.running
                  (Pawns.fresh_tree Pawns.ticking Pawns.one_pawn_each)
                  Pawns.one_pawn_each 5
    = Some (m, g', t') /\
    StartTime g' = 0 /\ EndTime g' = 10.
Proof.
  cbv zeta. eexists _, _, _. split; [ vm_compute; reflexivity | ].
  eapply (get_best_move_deadline_is_ten_seconds (Pawns.externals Pawns.ticking)
            100 Pawns.running
            (Pawns.fresh_tree Pawns.ticking Pawns.one_pawn_each)
            Pawns.one_pawn_each 5).
  vm_compute. reflexivity.
Defined.

End SearchClaims.

(** ** The linear evaluation of the tuner *)

Section LinearEvaluation.

Import Texel TexelEval TexelEvalProps.
Import QArith.

Variables MG EG : Z.

(** The loop over the tuples keeps two sums that do not depend on each
    other. *)
Lemma linearEvaluation_sums {F : Type} {A : Arithmetic F}
    (params : Z -> Z -> F) (l : list TexelTuple) :
  forall mg eg,
    fold_left
      (fun (acc : F * F) t =>
         (add (fst acc) (mul (of_int (coeff t)) (params (index t) MG)),
          add (snd acc) (mul (of_int (coeff t)) (params (index t) EG))))
      l (mg, eg)
    = (fold_left (fun s t => add s (mul (of_int (coeff t)) (params (index t) MG)))
                 l mg,
       fold_left (fun s t => add s (mul (of_int (coeff t)) (params (index t) EG)))
                 l eg).
Proof.
  induction l as [|t l IH]; intros mg eg; simpl; [ reflexivity | apply IH ].
Qed.

(** Without rounding, interpolating each term and adding up is the same as
    adding up and interpolating once. *)
Lemma per_term_loop_exact (ph : Q) (params : Z -> Z -> Q) (l : list TexelTuple) :
  forall mg eg s,
    (s == (mg * (inject_Z 256 - ph) + eg * ph) / inject_Z 256)%Q ->
    (fold_left
       (fun s t => s + inject_Z (coeff t) *
                      ((params (index t) MG * (inject_Z 256 - ph)
                        + params (index t) EG * ph) / inject_Z 256))
       l s
     == (fold_left (fun s t => s + inject_Z (coeff t) * params (index t) MG) l mg
           * (inject_Z 256 - ph)
         + fold_left (fun s t => s + inject_Z (coeff t) * params (index t) EG) l eg
           * ph) / inject_Z 256)%Q.
Proof.
  induction l as [|t l IH]; intros mg eg s Hs; simpl; [ exact Hs | ].
  apply IH. rewrite Hs. field; discriminate.
Qed.

(** C10 (amended).  In every arithmetic [linearEvaluation] returns
    [eval + (mg * (256 - phase) + eg * phase) / 256], where [mg] and [eg]
    are the sums of [coeff * params[index][MG]] and of
    [coeff * params[index][EG]] over the tuples.  Read without rounding
    this is the term-by-term formula, for every entry and every parameter
    vector.  [sigmoid (K, S)] is [1 / (1 + pow (10, -K * S / 400))] with
    the operations in this order. *)
Theorem linearEvaluation_interpolates_the_sums :
  (forall (F : Type) (A : Arithmetic F) (te : TexelEntry F) (params : Z -> Z -> F),
      linearEvaluation MG EG te params
      = add (eval te)
            (div (add (mul (weighted_sum MG te params) (sub (of_int 256) (phase te)))
                      (mul (weighted_sum EG te params) (phase te)))
                 (of_int 256))) /\
  (forall (te : TexelEntry Q) (params : Z -> Z -> Q),
      (linearEvaluation (A := exact) MG EG te params
       == per_term_evaluation (A := exact) MG EG te params)%Q) /\
  (forall (F : Type) (A : Arithmetic F) (pow : F -> F -> F) (K S : F),
      sigmoid pow K S
      = div (of_int 1)
            (add (of_int 1) (pow (of_int 10) (div (mul (opp K) S) (of_int 400))))).
Proof.
  split; [ | split ].
  - intros F A te params. unfold linearEvaluation, weighted_sum.
    rewrite linearEvaluation_sums. reflexivity.
  - intros te params. unfold linearEvaluation, per_term_evaluation.
    rewrite linearEvaluation_sums. cbn [of_int add sub mul div exact].
    apply Qplus_comp; [ reflexivity | ]. symmetry.
    apply per_term_loop_exact. field; discriminate.
  - reflexivity.
Qed.

End LinearEvaluation.

Section LinearEvaluationRounding.

Import Texel TexelEval TexelEvalProps.

(** C10 (as stated, refuted).  In the code's arithmetic, binary64, with
    [MG = 0] and [EG = 1]: for the entry with [eval = 0], [phase = 64] and
    the single tuple of index 0 and coefficient 3, and parameters 7/10 and
    1/10, [linearEvaluation] returns a value strictly below that of the
    term-by-term formula. *)
Lemma linearEvaluation_differs_from_per_term_formula :
  let te : TexelEntry PrimFloat.float :=
    {| eval := of_int 0; phase := of_int 64;
       tuples := [ {| index := 0; coeff := 3 |} ] |} in
  let params : Z -> Z -> PrimFloat.float :=
    fun _ ph => div (of_int (if ph =? 0 then 7 else 1)) (of_int 10) in
  PrimFloat.ltb (linearEvaluation 0 1 te params)
                (per_term_evaluation 0 1 te params) = true /\
  linearEvaluation 0 1 te params <> per_term_evaluation 0 1 te params.
Proof.
  intros te params.
  assert (Hlt : PrimFloat.ltb (linearEvaluation 0 1 te params)
                              (per_term_evaluation 0 1 te params) = true)
    by (vm_compute; reflexivity).
  split; [ exact Hlt | ].
  intros Heq. rewrite Heq in Hlt. vm_compute in Hlt. discriminate Hlt.
Qed.

End LinearEvaluationRounding.

(** * Further properties of the code *)

(** ** order_by_value sorts, and keeps moves and values paired *)

Section Sorting.

Import Search SearchProps.

Lemma nth_set_nth {A : Type} (l : list A) (i k : nat) (v d : A) :
  nth k (set_nth l i v) d
  = if Nat.eqb k i && Nat.ltb i (List.length l) then v else nth k l d.
Proof.
  revert i k; induction l as [|a l IH]; intros i k.
  - simpl. rewrite andb_false_r. destruct i; reflexivity.
  - destruct i as [|i], k as [|k]; simpl; auto.
Qed.

Lemma nth_swap {A : Type} (d : A) (l : list A) (i j k : nat) :
  (i < List.length l)%nat -> (j < List.length l)%nat ->
  nth k (swap d l i j) d
  = if Nat.eqb k i then nth j l d
    else if Nat.eqb k j then nth i l d else nth k l d.
Proof.
  intros Hi Hj. unfold swap. rewrite !nth_set_nth, set_nth_length.
  apply Nat.ltb_lt in Hi, Hj. rewrite Hi, Hj, !andb_true_r. reflexivity.
Qed.

Lemma set_nth_perm {A : Type} (d a : A) (l : list A) (j : nat) :
  (j < List.length l)%nat ->
  Permutation (a :: l) (nth j l d :: set_nth l j a).
Proof.
  revert j; induction l as [|b l IH]; intros [|j] Hj; simpl in *; try lia.
  - apply perm_swap.
  - eapply perm_trans; [ apply perm_swap | ].
    eapply perm_trans; [ apply perm_skip, (IH j); lia | ]. apply perm_swap.
Qed.

(** Exchanging two cells of an array permutes it. *)
Lemma swap_perm {A : Type} (d : A) (l : list A) (i j : nat) :
  (i < List.length l)%nat -> (j < List.length l)%nat ->
  Permutation l (swap d l i j).
Proof.
  revert i j; induction l as [|a l IH]; intros i j Hi Hj; simpl in *; [ lia | ].
  destruct i as [|i], j as [|j]; unfold swap; simpl.
  - reflexivity.
  - apply set_nth_perm. lia.
  - apply set_nth_perm. lia.
  - apply perm_skip. apply (IH i j); lia.
Qed.

Lemma set_nth_combine {A B : Type} (l : list A) (l' : list B) i a b :
  combine (set_nth l i a) (set_nth l' i b) = set_nth (combine l l') i (a, b).
Proof.
  revert l' i; induction l as [|x l IH]; intros l' i.
  - destruct l'; reflexivity.
  - destruct l' as [|y l'], i as [|i]; simpl; try reflexivity.
    now rewrite IH.
Qed.

Lemma swap_combine (ms vs : list Z) (i j : nat) :
  List.length ms = List.length vs ->
  combine (swap 0 ms i j) (swap 0 vs i j) = swap (0, 0) (combine ms vs) i j.
Proof.
  intros Hlen. unfold swap.
  rewrite !set_nth_combine, !combine_nth by assumption. reflexivity.
Qed.

(** The inner loop for position [i]: cells outside [i, j + n) keep their
    content, the cells inside are rearranged among themselves, and cell [i]
    ends at least as large as every cell after it up to the end of the
    scan. *)
Lemma order_inner_values :
  forall n i j ms vs,
    (i < j)%nat -> (j + n <= List.length vs)%nat ->
    (forall k, (i < k < j)%nat -> nth k vs 0 <= nth i vs 0) ->
    let vs' := snd (order_inner n i j (ms, vs)) in
    List.length vs' = List.length vs /\
    (forall k, (k < i)%nat -> nth k vs' 0 = nth k vs 0) /\
    (forall k, (j + n <= k)%nat -> nth k vs' 0 = nth k vs 0) /\
    (forall k, (i < k < j + n)%nat -> nth k vs' 0 <= nth i vs' 0) /\
    (forall q, (i <= q < j + n)%nat ->
               exists q', (i <= q' < j + n)%nat /\ nth q vs' 0 = nth q' vs 0).
Proof.
  induction n as [|n IH]; intros i j ms vs Hij Hj Hpre; simpl.
  - split; [ reflexivity | ]. split; [ reflexivity | ]. split; [ reflexivity | ].
    split; [ intros k Hk; apply Hpre; lia | ].
    intros q Hq. exists q. auto.
  - set (mv1 := if nth j vs 0 >? nth i vs 0
                then (swap 0 ms i j, swap 0 vs i j) else (ms, vs)).
    assert (Hlen1 : List.length (snd mv1) = List.length vs)
      by (subst mv1; destruct (_ >? _); simpl; [ apply swap_length | reflexivity ]).
    assert (Hnth1 : forall k, nth k (snd mv1) 0
                    = if nth j vs 0 >? nth i vs 0
                      then (if Nat.eqb k i then nth j vs 0
                            else if Nat.eqb k j then nth i vs 0 else nth k vs 0)
                      else nth k vs 0).
    { intros k. subst mv1. destruct (_ >? _); simpl; [ | reflexivity ].
      apply nth_swap; lia. }
    destruct mv1 as [ms1 vs1]. simpl in Hlen1, Hnth1.
    destruct (IH i (S j) ms1 vs1) as (H1 & H2 & H3 & H4 & H5); try lia.
    { intros k Hk. rewrite !Hnth1, Nat.eqb_refl.
      destruct (Z.gtb_spec (nth j vs 0) (nth i vs 0)) as [Hgt|Hle].
      - destruct (Nat.eqb_spec k i); [ lia | ].
        destruct (Nat.eqb_spec k j); [ lia | ].
        specialize (Hpre k ltac:(lia)). lia.
      - destruct (Nat.eq_dec k j) as [->|Hne]; [ lia | ]. apply Hpre. lia. }
    split; [ lia | ].
    split.
    { intros k Hk. rewrite H2 by lia. rewrite Hnth1.
      destruct (_ >? _); [ | reflexivity ].
      destruct (Nat.eqb_spec k i); [ lia | ].
      destruct (Nat.eqb_spec k j); [ lia | reflexivity ]. }
    split.
    { intros k Hk. rewrite H3 by lia. rewrite Hnth1.
      destruct (_ >? _); [ | reflexivity ].
      destruct (Nat.eqb_spec k i); [ lia | ].
      destruct (Nat.eqb_spec k j); [ lia | reflexivity ]. }
    split.
    { intros k Hk. apply H4. lia. }
    intros q Hq. destruct (H5 q ltac:(lia)) as (q1 & Hq1 & Heq).
    rewrite Heq, Hnth1.
    destruct (_ >? _); [ | exists q1; split; [ lia | reflexivity ] ].
    destruct (Nat.eqb_spec q1 i); [ exists j; split; [ lia | reflexivity ] | ].
    destruct (Nat.eqb_spec q1 j); [ exists i; split; [ lia | reflexivity ] | ].
    exists q1. split; [ lia | reflexivity ].
Qed.

Lemma order_outer_values :
  forall n i ms vs,
    (i + n <= List.length vs)%nat ->
    (forall p q, (p < i)%nat -> (p < q < i + n)%nat -> nth q vs 0 <= nth p vs 0) ->
    let vs' := snd (order_outer n i (ms, vs)) in
    List.length vs' = List.length vs /\
    descending (i + n) vs' /\
    (forall k, (i + n <= k)%nat -> nth k vs' 0 = nth k vs 0).
Proof.
  induction n as [|n IH]; intros i ms vs Hlen Hdom; simpl.
  - split; [ reflexivity | ]. split; [ | reflexivity ].
    intros p q Hpq. apply Hdom; lia.
  - pose proof (order_inner_values n i (S i) ms vs ltac:(lia) ltac:(lia)
                  ltac:(intros; lia)) as Hin.
    destruct (order_inner n i (S i) (ms, vs)) as [ms1 vs1]. simpl in Hin.
    destruct Hin as (H1 & H2 & H3 & H4 & H5).
    destruct (IH (S i) ms1 vs1) as (H6 & H7 & H8); try lia.
    { intros p q Hp Hq.
      destruct (Nat.eq_dec p i) as [->|Hne]; [ apply H4; lia | ].
      rewrite (H2 p) by lia.
      destruct (Nat.lt_ge_cases q i) as [Hlt|Hge].
      - rewrite (H2 q) by lia. apply Hdom; lia.
      - destruct (H5 q ltac:(lia)) as (q' & Hq' & ->). apply Hdom; lia. }
    split; [ lia | ].
    split.
    { replace (i + S n)%nat with (S i + n)%nat by lia. exact H7. }
    intros k Hk. rewrite H8 by lia. apply H3. lia.
Qed.

Lemma order_inner_pairs :
  forall n i j ms vs,
    List.length ms = List.length vs ->
    (i < List.length vs)%nat -> (j + n <= List.length vs)%nat ->
    let r := order_inner n i j (ms, vs) in
    List.length (fst r) = List.length (snd r) /\
    List.length (snd r) = List.length vs /\
    Permutation (combine ms vs) (combine (fst r) (snd r)).
Proof.
  induction n as [|n IH]; intros i j ms vs Hlen Hi Hj; simpl; [ auto | ].
  destruct (nth j vs 0 >? nth i vs 0).
  - destruct (IH i (S j) (swap 0 ms i j) (swap 0 vs i j)) as (H1 & H2 & H3);
      rewrite ?swap_length; try lia.
    split; [ exact H1 | ]. split; [ now rewrite H2, swap_length | ].
    eapply perm_trans; [ | exact H3 ].
    rewrite swap_combine by assumption.
    apply swap_perm; rewrite length_combine; lia.
  - apply IH; auto; lia.
Qed.

Lemma order_outer_pairs :
  forall n i ms vs,
    List.length ms = List.length vs -> (i + n <= List.length vs)%nat ->
    let r := order_outer n i (ms, vs) in
    List.length (fst r) = List.length (snd r) /\
    List.length (snd r) = List.length vs /\
    Permutation (combine ms vs) (combine (fst r) (snd r)).
Proof.
  induction n as [|n IH]; intros i ms vs Hlen Hi; simpl; [ auto | ].
  pose proof (order_inner_pairs n i (S i) ms vs Hlen ltac:(lia) ltac:(lia)) as Hin.
  destruct (order_inner n i (S i) (ms, vs)) as [ms1 vs1]. simpl in Hin.
  destruct Hin as (H1 & H2 & H3).
  destruct (IH (S i) ms1 vs1) as (H4 & H5 & H6); try lia.
  split; [ exact H4 | ]. split; [ lia | ].
  eapply perm_trans; eassumption.
Qed.

Lemma order_by_value_spec (moves : list Z) (values : list Z) (size : nat) :
  List.length moves = List.length values ->
  (size <= List.length values)%nat ->
  let r := order_by_value moves values size in
  descending size (snd r) /\
  (forall k, (size <= k)%nat -> nth k (snd r) 0 = nth k values 0) /\
  Permutation (combine moves values) (combine (fst r) (snd r)).
Proof.
  intros Hlen Hsize. unfold order_by_value.
  destruct (order_outer_values size 0 moves values Hsize ltac:(intros; lia))
    as (_ & Hd & Hk).
  destruct (order_outer_pairs size 0 moves values Hlen Hsize) as (_ & _ & Hp).
  auto.
Qed.

Lemma nth_swap_other {A : Type} (d : A) (l : list A) (i j k : nat) :
  k <> i -> k <> j -> nth k (swap d l i j) d = nth k l d.
Proof.
  intros Hi Hj. unfold swap. rewrite !nth_set_nth.
  destruct (Nat.eqb_spec k i); [ contradiction | ].
  destruct (Nat.eqb_spec k j); [ contradiction | ]. reflexivity.
Qed.

(** The cells behind the scanned range keep their move. *)
Lemma order_inner_moves_frame :
  forall n i j ms vs k,
    (i < j)%nat -> (j + n <= k)%nat ->
    nth k (fst (order_inner n i j (ms, vs))) 0 = nth k ms 0.
Proof.
  induction n as [|n IH]; intros i j ms vs k Hij Hk; simpl; [ reflexivity | ].
  destruct (nth j vs 0 >? nth i vs 0).
  - rewrite IH by lia. apply nth_swap_other; lia.
  - apply IH; lia.
Qed.

Lemma order_outer_moves_frame :
  forall n i ms vs k,
    (i + n <= k)%nat ->
    nth k (fst (order_outer n i (ms, vs))) 0 = nth k ms 0.
Proof.
  induction n as [|n IH]; intros i ms vs k Hk; simpl; [ reflexivity | ].
  pose proof (order_inner_moves_frame n i (S i) ms vs k ltac:(lia) ltac:(lia)) as Hin.
  destruct (order_inner n i (S i) (ms, vs)) as [ms1 vs1]. simpl in Hin.
  rewrite IH by lia. exact Hin.
Qed.

(** X1.  [order_by_value] leaves the first [size] values in non-increasing
    order, does not touch the cells from index [size] on, neither the
    values nor the moves, keeps the two arrays as long as they were, and
    rearranges the moves together with their values: the (move, value)
    pairs after the call are a permutation of the pairs before it. *)
Theorem order_by_value_sorts (moves : list Z) (values : list Z) (size : nat) :
  List.length moves = List.length values ->
  (size <= List.length values)%nat ->
  let r := order_by_value moves values size in
  descending size (snd r) /\
  (forall k, (size <= k)%nat ->
             nth k (snd r) 0 = nth k values 0 /\ nth k (fst r) 0 = nth k moves 0) /\
  List.length (fst r) = List.length moves /\
  List.length (snd r) = List.length values /\
  Permutation (combine moves values) (combine (fst r) (snd r)).
Proof.
  intros Hlen Hsize. unfold order_by_value.
  destruct (order_outer_values size 0 moves values Hsize ltac:(intros; lia))
    as (_ & Hd & Hk).
  pose proof (order_outer_moves_frame size 0 moves values) as Hm.
  destruct (order_outer_pairs size 0 moves values Hlen Hsize) as (Hl1 & Hl2 & Hp).
  cbv zeta in *.
  split; [ exact Hd | ].
  split; [ intros k Hge; split; [ apply Hk, Hge | apply Hm; lia ] | ].
  split; [ congruence | ]. split; [ exact Hl2 | exact Hp ].
Qed.

Lemma order_by_value_sorts_witness :
  let r := order_by_value [11; 12; 13; 14] [5; 9; 5; 7] 2 in
  descending 2 (snd r) /\
  (forall k, (2 <= k)%nat ->
             nth k (snd r) 0 = nth k [5; 9; 5; 7] 0 /\
             nth k (fst r) 0 = nth k [11; 12; 13; 14] 0) /\
  List.length (fst r) = 4%nat /\
  List.length (snd r) = 4%nat /\
  Permutation (combine [11; 12; 13; 14] [5; 9; 5; 7]) (combine (fst r) (snd r)).
Proof.
  apply (order_by_value_sorts [11; 12; 13; 14] [5; 9; 5; 7] 2);
    [ reflexivity | simpl; lia ].
Defined.

Lemma map_fst_combine_eq {A B : Type} (l : list A) (l' : list B) :
  List.length l = List.length l' -> map fst (combine l l') = l.
Proof.
  revert l'; induction l as [|a l IH]; intros [|b l'] Hlen; simpl in *;
    try discriminate; [ reflexivity | ].
  f_equal. apply IH. lia.
Qed.

Lemma combine_graph {A B : Type} (f : A -> B) (l : list A) (l' : list B) :
  List.length l = List.length l' ->
  Forall (fun p => snd p = f (fst p)) (combine l l') ->
  l' = map f l.
Proof.
  revert l'; induction l as [|a l IH]; intros [|b l'] Hlen Hall; simpl in *;
    try discriminate; [ reflexivity | ].
  inversion Hall as [|p ps Hp Hps]; subst. simpl in Hp. subst b.
  f_equal. apply IH; [ lia | exact Hps ].
Qed.

Context {E : Externals}.

(** X2.  [basic_heuristic] returns the moves it was given, rearranged so that
    their heuristic scores are in non-increasing order. *)
Theorem basic_heuristic_orders (t : search_tree_t) (moves : list Z) :
  let r := basic_heuristic t moves (List.length moves) in
  Permutation moves r /\
  descending (List.length moves) (map (heuristic_value t) r).
Proof.
  unfold basic_heuristic. rewrite firstn_all.
  set (h := heuristic_value t).
  assert (Hlen : List.length moves = List.length (map h moves))
    by now rewrite length_map.
  pose proof (order_by_value_spec moves (map h moves) (List.length moves) Hlen
                ltac:(rewrite length_map; lia)) as (Hd & _ & Hp).
  pose proof (order_outer_pairs (List.length moves) 0 moves (map h moves) Hlen
                ltac:(rewrite length_map; simpl; lia)) as (Hl1 & Hl2 & _).
  unfold order_by_value in *.
  destruct (order_outer _ _ _) as [ms' vs']. simpl in *.
  assert (Hvs : vs' = map h ms').
  { apply combine_graph; [ exact Hl1 | ].
    eapply Permutation_Forall; [ exact Hp | ].
    apply Forall_forall. intros [m v] Hin.
    clear - Hin. induction moves as [|a l IH]; simpl in Hin; [ contradiction | ].
    destruct Hin as [[= <- <-] | Hin]; [ reflexivity | apply IH, Hin ]. }
  split.
  - apply (Permutation_map fst) in Hp.
    rewrite !map_fst_combine_eq in Hp by assumption. exact Hp.
  - rewrite <- Hvs. exact Hd.
Qed.

End Sorting.

(** ** A relation between the tree at entry and at exit of a call

    Any reflexive and transitive relation on trees that holds across each
    elementary store of the search holds across every call that returns. *)

Section TreeRelation.

Import Search SearchProps.

Context {E : Externals}.

Variable R : search_tree_t -> search_tree_t -> Prop.
Hypothesis R_refl : forall t, R t t.
Hypothesis R_trans : forall t1 t2 t3, R t1 t2 -> R t2 t3 -> R t1 t3.
Hypothesis R_board : forall t b, R t (set_board t b).
Hypothesis R_ply : forall t v, R t (set_ply t v).
Hypothesis R_killer : forall t m, R t (update_killer_heuristic t m).
Hypothesis R_quiescence_entry :
  forall t, R t (set_quiescence_nodes (set_raw_nodes t (raw_nodes t + 1))
                                      (quiescence_nodes t + 1)).

Lemma quiescence_loop_rel
    (rec : globals -> search_tree_t -> Z -> Z -> option (Z * globals * search_tree_t))
    (Hrec : forall g t a b v g' t', rec g t a b = Some (v, g', t') -> R t t') :
  forall n moves beta g t alpha best best' g' t',
    quiescence_loop rec moves beta n g t alpha best = Some (best', g', t') ->
    R t t'.
Proof.
  induction n as [|n IH]; intros moves beta g t alpha best best' g' t' Hrun.
  - simpl in Hrun. injection Hrun as <- <- <-. apply R_refl.
  - simpl in Hrun. revert Hrun.
    generalize (nth n moves 0). intros m.
    destruct (is_not_in_check _ _).
    + destruct (rec _ _ _ _) as [[[r g1] t1]|] eqn:Hr; [ | discriminate ].
      apply Hrec in Hr.
      assert (H1 : R t t1) by (eapply R_trans; [ apply R_board | exact Hr ]).
      destruct (_ >? beta).
      * intros [= <- <- <-].
        eapply R_trans; [ exact H1 | ].
        eapply R_trans; [ apply R_killer | apply R_board ].
      * intros Hrun. apply IH in Hrun.
        eapply R_trans; [ exact H1 | ].
        eapply R_trans; [ apply R_board | exact Hrun ].
    + intros Hrun. apply IH in Hrun.
      eapply R_trans; [ apply R_board | ].
      eapply R_trans; [ apply R_board | exact Hrun ].
Qed.

Lemma quiescence_search_rel :
  forall fuel g t alpha beta v g' t',
    quiescence_search fuel g t alpha beta = Some (v, g', t') -> R t t'.
Proof.
  induction fuel as [|fuel IH]; intros g t alpha beta v g' t' Hrun;
    [ discriminate | ].
  simpl in Hrun. revert Hrun.
  destruct (EndTime g <? time_at (time_calls g)).
  - intros [= <- <- <-]. apply R_quiescence_entry.
  - destruct (_ >? beta).
    + intros [= <- <- <-]. apply R_quiescence_entry.
    + destruct (quiescence_loop _ _ _ _ _ _ _ _) as [[[best1 g1] t1]|] eqn:Hl;
        [ | discriminate ].
      intros [= <- <- <-].
      apply (quiescence_loop_rel _ IH) in Hl.
      eapply R_trans; [ apply R_quiescence_entry | ].
      eapply R_trans; [ apply R_ply | ].
      eapply R_trans; [ exact Hl | apply R_ply ].
Qed.

Hypothesis R_depth_one_values : forall t f, R t (set_depth_one_values t f).
Hypothesis R_principle_variation :
  forall t pv, R t (set_principle_variation t pv).
Hypothesis R_alpha_beta_entry :
  forall t, R t (set_alpha_beta_nodes (set_raw_nodes t (raw_nodes t + 1))
                                      (alpha_beta_nodes t + 1)).
Hypothesis R_leaf :
  forall t,
    let t1 := set_alpha_beta_nodes (set_raw_nodes t (raw_nodes t + 1))
                                   (alpha_beta_nodes t + 1) in
    R t (set_alpha_beta_nodes (set_raw_nodes t1 (raw_nodes t1 - 1))
                              (alpha_beta_nodes t1 - 1)).

Lemma pv_store_rel p t cpv v : R t (fst (pv_store p t cpv v)).
Proof. destruct p; simpl; [ apply R_principle_variation | apply R_refl ]. Qed.

Lemma order_moves_rel t moves size : R t (fst (order_moves t moves size)).
Proof.
  unfold order_moves. destruct (ply t =? 1).
  - destruct (order_by_value _ _ _). simpl. apply R_depth_one_values.
  - simpl. apply R_refl.
Qed.

Section Loop.

Variable rec : ab_call.
Hypothesis Hrec :
  forall g t p cpv d a b v g' t' cpv',
    rec g t p cpv d a b = Some (v, g', t', cpv') -> R t t'.

Lemma search_child_rel i fnp depth alpha beta g t lpv v g' t' lpv' :
  search_child rec i fnp depth alpha beta g t lpv = Some (v, g', t', lpv') ->
  R t t'.
Proof.
  unfold search_child.
  destruct (negb (Nat.eqb i 0) && fnp).
  - destruct (rec g t PvLocal lpv (depth - 1) (- alpha - 1) (- alpha))
      as [[[[v1 g1] t1] l1]|] eqn:Hr; [ | discriminate ].
    apply Hrec in Hr. simpl.
    destruct ((- v1 >? alpha) && (- v1 <? beta)).
    + destruct (rec g1 t1 PvLocal l1 (depth - 1) (- beta) (- - v1))
        as [[[[v2 g2] t2] l2]|] eqn:Hr2; [ | discriminate ].
      apply Hrec in Hr2. simpl. intros [= <- <- <- <-].
      eapply R_trans; eassumption.
    + intros [= <- <- <- <-]. exact Hr.
  - destruct (rec g t PvLocal lpv (depth - 1) (- beta) (- alpha))
      as [[[[v1 g1] t1] l1]|] eqn:Hr; [ | discriminate ].
    apply Hrec in Hr. simpl. intros [= <- <- <- <-]. exact Hr.
Qed.

Lemma alpha_beta_loop_rel moves p depth beta fnp :
  forall n i g t cpv lpv alpha best valid_size best' valid' g' t' cpv',
    alpha_beta_loop rec moves p depth beta fnp n i
                    g t cpv lpv alpha best valid_size
    = Some (best', valid', g', t', cpv') ->
    R t t'.
Proof.
  induction n as [|n IH];
    intros i g t cpv lpv alpha best valid_size best' valid' g' t' cpv' Hrun.
  - simpl in Hrun. injection Hrun as <- <- <- <- <-. apply R_refl.
  - simpl in Hrun. revert Hrun.
    generalize (nth i moves 0). intros m.
    destruct (is_not_in_check _ _).
    + destruct (search_child _ _ _ _ _ _ _ _ _) as [[[[value g1] t1] lpv1]|] eqn:Hc;
        [ | discriminate ].
      apply search_child_rel in Hc.
      generalize (if value >? best then value else best). intros best1.
      set (t2 := if ply t1 =? 1
                 then set_depth_one_values t1
                        (upd (depth_one_values t1) (Z.of_nat i) value)
                 else t1).
      assert (Ht2 : R t1 t2)
        by (subst t2; destruct (ply t1 =? 1);
            [ apply R_depth_one_values | apply R_refl ]).
      clearbody t2.
      destruct (if best1 >? alpha then _ else _) as [alpha1 [t3 cpv3]] eqn:Hupd.
      assert (Ht3 : R t2 t3).
      { revert Hupd. destruct (best1 >? alpha);
          [ destruct (negb (length lpv1 =? -1)); [ destruct p | ] | ];
          simpl; intros [= <- <- <-];
          solve [ apply R_refl | apply R_principle_variation ]. }
      clear Hupd.
      assert (H13 : R t t3).
      { eapply R_trans; [ apply R_board | ].
        eapply R_trans; [ exact Hc | ].
        eapply R_trans; eassumption. }
      destruct (alpha1 >? beta).
      * intros [= <- <- <- <- <-].
        eapply R_trans; [ exact H13 | ].
        eapply R_trans; [ apply R_killer | apply R_board ].
      * intros Hrun. apply IH in Hrun.
        eapply R_trans; [ exact H13 | ].
        eapply R_trans; [ apply R_board | exact Hrun ].
    + intros Hrun. apply IH in Hrun.
      eapply R_trans; [ apply R_board | ].
      eapply R_trans; [ apply R_board | exact Hrun ].
Qed.

End Loop.

Lemma alpha_beta_prune_rel :
  forall fuel g t p cpv depth alpha beta v g' t' cpv',
    alpha_beta_prune fuel g t p cpv depth alpha beta = Some (v, g', t', cpv') ->
    R t t'.
Proof.
  induction fuel as [|fuel IH];
    intros g t p cpv depth alpha beta v g' t' cpv' Hrun; [ discriminate | ].
  simpl in Hrun. revert Hrun.
  destruct (EndTime g <? time_at (time_calls g)).
  - destruct p; simpl; intros [= <- <- <- <-].
    + eapply R_trans; [ apply R_alpha_beta_entry | apply R_principle_variation ].
    + apply R_alpha_beta_entry.
  - destruct (depth =? 0).
    + pose proof (R_leaf t) as Hleaf. cbv zeta in Hleaf.
      set (t1 := set_alpha_beta_nodes (set_raw_nodes _ _) _) in *.
      pose proof (pv_store_rel p t1 cpv (set_length (pv_load p t1 cpv) 0)) as Hst.
      destruct (pv_store p t1 cpv _) as [t2 cpv2]. simpl in Hst.
      destruct (quiescence_search fuel _ t2 alpha beta) as [[[v1 g1] t3]|] eqn:Hq;
        [ | discriminate ].
      intros [= <- <- <- <-].
      apply quiescence_search_rel in Hq.
      eapply R_trans; [ exact Hleaf | ].
      eapply R_trans; eassumption.
    + set (t1 := set_ply _ _).
      pose proof (order_moves_rel t1 (gen_all_moves (board t))
                    (List.length (gen_all_moves (board t)))) as Hom.
      destruct (order_moves t1 _ _) as [t2 moves]. simpl in Hom.
      destruct (alpha_beta_loop _ _ _ _ _ _ _ _ _ _ _ _ _ _ _)
        as [[[[[best' valid'] g1] t3] cpv3]|] eqn:Hl; [ | discriminate ].
      intros [= <- <- <- <-].
      apply (alpha_beta_loop_rel _ IH) in Hl.
      eapply R_trans; [ apply R_alpha_beta_entry | ].
      eapply R_trans; [ apply R_ply | ].
      eapply R_trans; [ exact Hom | ].
      eapply R_trans; [ exact Hl | apply R_ply ].
Qed.

End TreeRelation.

(** ** Frame properties of the two search functions *)

Section SearchFrame.

Import Search SearchProps.

Lemma counters_grow_refl (E : Externals) (t : search_tree_t) : counters_grow t t.
Proof. unfold counters_grow. lia. Qed.

Lemma counters_grow_trans (E : Externals) (t1 t2 t3 : search_tree_t) :
  counters_grow t1 t2 -> counters_grow t2 t3 -> counters_grow t1 t3.
Proof. unfold counters_grow. lia. Qed.

Lemma alpha_beta_prune_counters
    (E : Externals) fuel g t p cpv depth alpha beta v g' t' cpv' :
  alpha_beta_prune fuel g t p cpv depth alpha beta = Some (v, g', t', cpv') ->
  counters_grow t t'.
Proof.
  apply (alpha_beta_prune_rel counters_grow (counters_grow_refl E)
           (counters_grow_trans E));
    intros; unfold counters_grow; simpl; lia.
Qed.

Lemma quiescence_search_counters
    (E : Externals) fuel g t alpha beta v g' t' :
  quiescence_search fuel g t alpha beta = Some (v, g', t') ->
  counters_grow t t'.
Proof.
  apply (quiescence_search_rel counters_grow (counters_grow_refl E)
           (counters_grow_trans E));
    intros; unfold counters_grow; simpl; lia.
Qed.

(** X3.  Every call of [alpha_beta_prune] and of [quiescence_search] that
    returns has raised [raw_nodes] by exactly the sum of the increases of
    [alpha_beta_nodes] and [quiescence_nodes], and has lowered neither; so
    [raw_nodes = alpha_beta_nodes + quiescence_nodes] survives every
    call. *)
Theorem search_counts_nodes_consistently
    (E : Externals) (fuel : nat) (g : globals) (t : search_tree_t) (p : pv_ptr)
    (cpv : principle_variation_t) (depth alpha beta : Z) :
  (forall v g' t' cpv',
      alpha_beta_prune fuel g t p cpv depth alpha beta = Some (v, g', t', cpv') ->
      counters_grow t t') /\
  (forall v g' t',
      quiescence_search fuel g t alpha beta = Some (v, g', t') ->
      counters_grow t t').
Proof.
  split.
  - intros v g' t' cpv'. apply alpha_beta_prune_counters.
  - intros v g' t'. apply quiescence_search_counters.
Qed.

Lemma search_counts_nodes_consistently_witness :
  let E := Pawns.externals Pawns.frozen in
  let t := Pawns.fresh_tree Pawns.frozen Pawns.one_pawn_each in
  exists v g' t' cpv',
    alpha_beta_prune 8 Pawns.running t PvTree Pawns.no_pv 2 (-32000) 32000
    = Some (v, g', t', cpv') /\ counters_grow t t'.
Proof.
  cbv zeta.
  destruct (search_counts_nodes_consistently (Pawns.externals Pawns.frozen) 8
              Pawns.running (Pawns.fresh_tree Pawns.frozen Pawns.one_pawn_each)
              PvTree Pawns.no_pv 2 (-32000) 32000) as [Hab _].
  eexists _, _, _, _. split; [ vm_compute; reflexivity | ].
  eapply Hab. vm_compute. reflexivity.
Defined.

(** X4.  [quiescence_search] never writes the tree's principal variation, its
    root scores [depth_one_values], or [alpha_beta_nodes]. *)
Theorem quiescence_leaves_root_data
    (E : Externals) (fuel : nat) (g : globals) (t : search_tree_t)
    (alpha beta v : Z) (g' : globals) (t' : search_tree_t) :
  quiescence_search fuel g t alpha beta = Some (v, g', t') ->
  principle_variation t' = principle_variation t /\
  depth_one_values t' = depth_one_values t /\
  alpha_beta_nodes t' = alpha_beta_nodes t.
Proof.
  apply (quiescence_search_rel
           (fun t t' => principle_variation t' = principle_variation t /\
                        depth_one_values t' = depth_one_values t /\
                        alpha_beta_nodes t' = alpha_beta_nodes t));
    try (intros; simpl; auto; fail).
  intros t1 t2 t3 (H1 & H2 & H3) (H4 & H5 & H6). repeat split; congruence.
Qed.

Lemma quiescence_leaves_root_data_witness :
  let E := Pawns.externals Pawns.frozen in
  let t := Pawns.fresh_tree Pawns.frozen Pawns.one_pawn_each in
  exists v g' t',
    quiescence_search 8 Pawns.running t (-50) 50 = Some (v, g', t') /\
    principle_variation t' = principle_variation t /\
    depth_one_values t' = depth_one_values t /\
    alpha_beta_nodes t' = alpha_beta_nodes t.
Proof.
  cbv zeta. eexists _, _, _. split; [ vm_compute; reflexivity | ].
  eapply (quiescence_leaves_root_data (Pawns.externals Pawns.frozen) 8
            Pawns.running (Pawns.fresh_tree Pawns.frozen Pawns.one_pawn_each)
            (-50) 50).
  vm_compute. reflexivity.
Defined.

(** X5.  Every call of [alpha_beta_prune] and of [quiescence_search] that returns
    leaves [tree->ply] as it found it, and never changes the file-scope
    variables [StartTime], [EndTime] and [EvaluatingPlayer]. *)
Theorem search_restores_ply_and_deadline
    (E : Externals) (fuel : nat) (g : globals) (t : search_tree_t) (p : pv_ptr)
    (cpv : principle_variation_t) (depth alpha beta : Z) :
  (forall v g' t' cpv',
      alpha_beta_prune fuel g t p cpv depth alpha beta = Some (v, g', t', cpv') ->
      ply t' = ply t /\ same_deadline g g') /\
  (forall v g' t',
      quiescence_search fuel g t alpha beta = Some (v, g', t') ->
      ply t' = ply t /\ same_deadline g g').
Proof.
  split.
  - intros v g' t' cpv' Hrun.
    apply (alpha_beta_prune_returns (fun _ => True)
             (fun _ _ _ => I) (fun _ _ _ => I)) in Hrun.
    destruct Hrun as ([Hp _] & Hg & _). auto.
  - intros v g' t' Hrun.
    apply (quiescence_search_returns (fun _ => True) (fun _ _ _ => I)) in Hrun.
    destruct Hrun as ([Hp _] & Hg & _). auto.
Qed.

Lemma search_restores_ply_and_deadline_witness :
  let E := Pawns.externals Pawns.frozen in
  let t := Pawns.fresh_tree Pawns.frozen Pawns.one_pawn_each in
  exists v g' t' cpv',
    alpha_beta_prune 8 Pawns.running t PvTree Pawns.no_pv 2 (-32000) 32000
    = Some (v, g', t', cpv') /\
    ply t' = ply t /\ same_deadline Pawns.running g'.
Proof.
  cbv zeta.
  destruct (search_restores_ply_and_deadline (Pawns.externals Pawns.frozen) 8
              Pawns.running (Pawns.fresh_tree Pawns.frozen Pawns.one_pawn_each)
              PvTree Pawns.no_pv 2 (-32000) 32000) as [Hab _].
  eexists _, _, _, _. split; [ vm_compute; reflexivity | ].
  eapply Hab. vm_compute. reflexivity.
Defined.

End SearchFrame.

(** ** Terminal positions, score bounds and the driver *)

Section SearchEdges.

Import Search SearchProps.

Context {E : Externals}.

(** When every move is illegal the root loop only makes and unmakes moves. *)
Lemma alpha_beta_loop_no_legal (rec : ab_call) moves p depth beta fnp :
  inverses ->
  forall n i g t cpv lpv alpha best valid_size,
    (forall k, (i <= k < i + n)%nat ->
       is_not_in_check (apply_move (board t) (nth k moves 0))
         (lnot (turn (apply_move (board t) (nth k moves 0)))) = false) ->
    exists g' t',
      alpha_beta_loop rec moves p depth beta fnp n i
                      g t cpv lpv alpha best valid_size
      = Some (best, valid_size, g', t', cpv) /\
      board t' = board t /\ ply t' = ply t /\
      principle_variation t' = principle_variation t.
Proof.
  intros Hinv.
  induction n as [|n IH]; intros i g t cpv lpv alpha best valid_size Hill.
  - exists g, t. simpl. auto.
  - simpl. rewrite (Hill i) by lia.
    destruct (IH (S i) (log_applied g (nth i moves 0))
                (do_revert (set_board t (apply_move (board t) (nth i moves 0)))
                           (nth i moves 0))
                cpv lpv alpha best valid_size) as (g' & t' & Hl & Hb & Hp & Hpv).
    { intros k Hk. simpl. rewrite Hinv. apply Hill. lia. }
    exists g', t'. split; [ exact Hl | ].
    split; [ rewrite Hb; simpl; apply Hinv | ].
    split; [ rewrite Hp; reflexivity | rewrite Hpv; reflexivity ].
Qed.

(** X6.  A position without a legal move: [alpha_beta_prune] at a depth other
    than 0, with the deadline not passed, returns 0 when the side to move is
    not in check (stalemate) and [-CheckMate] when it is (checkmate),
    whatever the window; it makes no recursive call, restores the board and
    leaves the principal variations alone. *)
Theorem no_legal_move_score
    (fuel : nat) (g : globals) (t : search_tree_t) (p : pv_ptr)
    (cpv : principle_variation_t) (depth alpha beta : Z) :
  inverses ->
  time_at (time_calls g) <= EndTime g ->
  depth <> 0 ->
  no_legal_move (board t) ->
  exists g' t',
    alpha_beta_prune (S fuel) g t p cpv depth alpha beta
    = Some (if is_not_in_check (board t) (turn (board t)) then 0 else - CheckMate,
            g', t', cpv) /\
    board t' = board t /\ ply t' = ply t /\
    principle_variation t' = principle_variation t.
Proof.
  intros Hinv Htime Hd Hill. simpl.
  destruct (Z.ltb_spec (EndTime g) (time_at (time_calls g))); [ lia | ].
  apply Z.eqb_neq in Hd. rewrite Hd.
  set (t1 := set_ply _ _).
  destruct (order_moves_ok (fun m => In m (gen_all_moves (board t)))
              t1 (gen_all_moves (board t)))
    as (Hall & Hlen & Hb2 & Hp2 & _ & Hpv2).
  { apply Forall_forall. auto. }
  destruct (order_moves t1 _ _) as [t2 moves]. simpl in Hall, Hlen, Hb2, Hp2, Hpv2.
  destruct (alpha_beta_loop_no_legal (alpha_beta_prune fuel) moves p depth beta
              (line (principle_variation t2) (ply t2 - 1) =? nth 0 moves 0) Hinv
              (List.length (gen_all_moves (board t))) 0%nat (snd (time g)) t2
              cpv (lpv_at (time_calls g)) alpha (- CheckMate) 0)
    as (g' & t' & Hl & Hb & Hp & Hpv).
  { intros k Hk. rewrite Hb2. simpl. apply Hill.
    apply (Forall_nth_in _ _ _ _ Hall). rewrite Hlen. lia. }
  simpl in Hl. rewrite Hl. simpl.
  rewrite Hb, Hb2. simpl.
  eexists _, _. split; [ reflexivity | ].
  simpl. rewrite Hb, Hb2, Hp, Hp2, Hpv, Hpv2. simpl.
  split; [ reflexivity | ]. split; [ lia | reflexivity ].
Qed.

(** The root loop never lowers [best]. *)
Lemma alpha_beta_loop_best (rec : ab_call) moves p depth beta fnp :
  forall n i g t cpv lpv alpha best valid_size best' valid' g' t' cpv',
    alpha_beta_loop rec moves p depth beta fnp n i
                    g t cpv lpv alpha best valid_size
    = Some (best', valid', g', t', cpv') ->
    best <= best'.
Proof.
  induction n as [|n IH];
    intros i g t cpv lpv alpha best valid_size best' valid' g' t' cpv' Hrun.
  - simpl in Hrun. injection Hrun as <- <- <- <- <-. lia.
  - simpl in Hrun. revert Hrun.
    generalize (nth i moves 0). intros m.
    destruct (is_not_in_check _ _); [ | apply IH ].
    destruct (search_child _ _ _ _ _ _ _ _ _) as [[[[value g1] t1] lpv1]|];
      [ | discriminate ].
    assert (Hbest : best <= (if value >? best then value else best))
      by (destruct (Z.gtb_spec value best); lia).
    revert Hbest. generalize (if value >? best then value else best).
    intros best1 Hbest.
    destruct (if best1 >? alpha then _ else _) as [alpha1 [t3 cpv3]].
    destruct (alpha1 >? beta).
    + intros [= <- <- <- <- <-]. exact Hbest.
    + intros Hrun. apply IH in Hrun. lia.
Qed.

(** X7.  With a non-negative [CheckMate], a call of [alpha_beta_prune] at a depth
    other than 0 never returns a score below [-CheckMate]: not from the
    loop, not for a position without legal moves and not when the deadline
    has passed. *)
Theorem alpha_beta_score_at_least_minus_mate
    (fuel : nat) (g : globals) (t : search_tree_t) (p : pv_ptr)
    (cpv : principle_variation_t) (depth alpha beta v : Z)
    (g' : globals) (t' : search_tree_t) (cpv' : principle_variation_t) :
  0 <= CheckMate ->
  depth <> 0 ->
  alpha_beta_prune fuel g t p cpv depth alpha beta = Some (v, g', t', cpv') ->
  - CheckMate <= v.
Proof.
  intros Hmate Hd. destruct fuel as [|fuel]; [ discriminate | ].
  simpl. apply Z.eqb_neq in Hd. rewrite Hd.
  destruct (EndTime g <? time_at (time_calls g)).
  - destruct (pv_store _ _ _ _) as [t1 cpv1].
    intros [= <- _ _ _]. destruct (turn (board t1) =? EvaluatingPlayer g); lia.
  - destruct (order_moves _ _ _) as [t2 moves].
    destruct (alpha_beta_loop _ _ _ _ _ _ _ _ _ _ _ _ _ _ _)
      as [[[[[best' valid'] g1] t3] cpv3]|] eqn:Hl; [ | discriminate ].
    apply alpha_beta_loop_best in Hl.
    intros [= <- _ _ _]. destruct (_ && _); lia.
Qed.

End SearchEdges.

Lemma no_legal_move_score_witness :
  let E := Cornered.externals true in
  let t := Cornered.fresh_tree true Pawns.one_pawn_each in
  exists g' t',
    Search.alpha_beta_prune 1 Pawns.running t Search.PvTree Pawns.no_pv 3
                            (-32000) 32000
    = Some (-32000, g', t', Pawns.no_pv) /\
    Search.board t' = Search.board t /\ Search.ply t' = Search.ply t /\
    Search.principle_variation t' = Search.principle_variation t.
Proof.
  apply (@no_legal_move_score (Cornered.externals true) 0 Pawns.running
           (Cornered.fresh_tree true Pawns.one_pawn_each)
           Search.PvTree Pawns.no_pv 3 (-32000) 32000).
  - exact unplay_play.
  - vm_compute. discriminate.
  - discriminate.
  - intros m Hin. vm_compute in Hin.
    destruct Hin as [<- | [<- | [<- | [<- | []]]]]; reflexivity.
Defined.

Lemma alpha_beta_score_at_least_minus_mate_witness :
  let E := Pawns.externals Pawns.frozen in
  let t := Pawns.fresh_tree Pawns.frozen Pawns.one_pawn_each in
  exists v g' t' cpv',
    Search.alpha_beta_prune 8 Pawns.running t Search.PvTree Pawns.no_pv 2
                            (-32000) 32000
    = Some (v, g', t', cpv') /\ - 32000 <= v.
Proof.
  cbv zeta. eexists _, _, _, _. split; [ vm_compute; reflexivity | ].
  eapply (@alpha_beta_score_at_least_minus_mate (Pawns.externals Pawns.frozen) 8
            Pawns.running (Pawns.fresh_tree Pawns.frozen Pawns.one_pawn_each)
            Search.PvTree Pawns.no_pv 2 (-32000) 32000).
  - vm_compute. discriminate.
  - discriminate.
  - vm_compute. reflexivity.
Defined.

(** ** The iterative-deepening driver *)

Section Driver.

Import Search SearchProps.

Context {E : Externals}.

Lemma deepening_loop_tree (fuel : nat) :
  forall n depth g t g' t',
    deepening_loop fuel n depth g t = Some (g', t') ->
    ply t' = ply t /\ counters_grow t t'.
Proof.
  induction n as [|n IH]; intros depth g t g' t' Hrun.
  - simpl in Hrun. injection Hrun as <- <-.
    split; [ reflexivity | apply counters_grow_refl ].
  - cbn [deepening_loop] in Hrun. revert Hrun.
    destruct (alpha_beta_prune fuel g t PvTree _ depth _ _)
      as [[[[v g1] t1] cpv1]|] eqn:Hr; [ | discriminate ].
    pose proof (alpha_beta_prune_counters E _ _ _ _ _ _ _ _ _ _ _ _ Hr) as Hc.
    apply (alpha_beta_prune_returns (fun _ => True)
             (fun _ _ _ => I) (fun _ _ _ => I)) in Hr.
    destruct Hr as ([Hp _] & _).
    cbn [time fst snd EndTime time_calls].
    destruct (_ <? _).
    + intros [= <- <-]. auto.
    + intros Hrun. apply IH in Hrun. destruct Hrun as [Hp' Hc'].
      split; [ congruence | eapply counters_grow_trans; eassumption ].
Qed.

(** X8.  When [get_best_move] returns, the move is [line[0]] of the tree's
    principal variation, the tree is back at ply 0 with
    [raw_nodes = alpha_beta_nodes + quiescence_nodes], [EvaluatingPlayer] is
    the side to move of the position passed in, and, make and unmake being
    inverses, the tree's board is that position again. *)
Theorem get_best_move_leaves_clean_tree
    (fuel : nat) (g : globals) (tree0 : search_tree_t) (b : board_t)
    (alloted_time : Z) (m : Z) (g' : globals) (t' : search_tree_t) :
  get_best_move fuel g tree0 b alloted_time = Some (m, g', t') ->
  m = line (principle_variation t') 0 /\
  ply t' = 0 /\
  raw_nodes t' = alpha_beta_nodes t' + quiescence_nodes t' /\
  EvaluatingPlayer g' = turn b /\
  (inverses -> board t' = b).
Proof.
  unfold get_best_move. cbn [time fst snd].
  destruct (deepening_loop _ _ _ _ _) as [[g1 t1]|] eqn:Hl; [ | discriminate ].
  intros [= <- <- <-].
  pose proof (deepening_loop_tree _ _ _ _ _ _ _ Hl) as [Hp Hc].
  apply deepening_loop_returns in Hl. destruct Hl as ((_ & _ & He) & Hb).
  split; [ reflexivity | ].
  split; [ exact Hp | ].
  split; [ unfold counters_grow in Hc; simpl in Hc; lia | ].
  split; [ exact He | exact Hb ].
Qed.

(** X9.  If the clock is already past the deadline the first time the search
    looks at it, [get_best_move] searches nothing: the root call returns at
    its entry check, the loop stops, and the move returned is [line[0]] of
    the local tree, which nothing has written. *)
Theorem get_best_move_without_time
    (fuel : nat) (g : globals) (tree0 : search_tree_t) (b : board_t)
    (alloted_time : Z) :
  monotone_clock ->
  2 <= MaxDepth ->
  time_at (time_calls g) + 10 < time_at (S (time_calls g)) ->
  exists g' t',
    get_best_move (S fuel) g tree0 b alloted_time
    = Some (line (principle_variation tree0) 0, g', t') /\
    length (principle_variation t') = -1 /\
    raw_nodes t' = 1 /\ applied g' = applied g.
Proof.
  intros Hmono Hdepth Hlate. unfold get_best_move.
  destruct (Z.to_nat (MaxDepth - 1)) as [|n] eqn:Hn; [ lia | ].
  cbn [time fst snd deepening_loop alpha_beta_prune
       set_StartTime set_EndTime set_EvaluatingPlayer
       StartTime EndTime EvaluatingPlayer time_calls applied].
  assert (H1 : (time_at (time_calls g) + 10 <? time_at (S (time_calls g))) = true)
    by (apply Z.ltb_lt; exact Hlate).
  rewrite H1. cbn [pv_store pv_load EndTime time_calls].
  assert (H2 : (time_at (time_calls g) + 10
                <? time_at (S (S (S (time_calls g))))) = true).
  { apply Z.ltb_lt.
    pose proof (Hmono (S (time_calls g)) (S (S (S (time_calls g)))) ltac:(lia)).
    lia. }
  rewrite H2.
  eexists _, _. split; [ reflexivity | ]. repeat split.
Qed.

End Driver.

Lemma get_best_move_leaves_clean_tree_witness :
  let E := Pawns.externals Pawns.ticking in
  exists m g' t',
    Search.get_best_move 100 Pawns.running
      (Pawns.fresh_tree Pawns.ticking Pawns.one_pawn_each)
      Pawns.one_pawn_each 5
    = Some (m, g', t') /\
    m = Search.line (Search.principle_variation t') 0 /\
    Search.ply t' = 0 /\
    Search.raw_nodes t'
    = Search.alpha_beta_nodes t' + Search.quiescence_nodes t' /\
    Search.EvaluatingPlayer g' = 0 /\
    (SearchProps.inverses -> Search.board t' = Pawns.one_pawn_each).
Proof.
  cbv zeta. eexists _, _, _. split; [ vm_compute; reflexivity | ].
  eapply (@get_best_move_leaves_clean_tree (Pawns.externals Pawns.ticking) 100
            Pawns.running (Pawns.fresh_tree Pawns.ticking Pawns.one_pawn_each)
            Pawns.one_pawn_each 5).
  vm_compute. reflexivity.
Defined.

Lemma get_best_move_without_time_witness :
  let E := Pawns.externals (Pawns.jumping 1) in
  exists g' t',
    Search.get_best_move 1 Pawns.running
      (Pawns.fresh_tree (Pawns.jumping 1) Pawns.one_pawn_each)
      Pawns.one_pawn_each 5
    = Some (-1, g', t') /\
    Search.length (Search.principle_variation t') = -1 /\
    Search.raw_nodes t' = 1 /\ Search.applied g' = [].
Proof.
  apply (@get_best_move_without_time (Pawns.externals (Pawns.jumping 1)) 0
           Pawns.running (Pawns.fresh_tree (Pawns.jumping 1) Pawns.one_pawn_each)
           Pawns.one_pawn_each 5).
  - apply jumping_monotone.
  - vm_compute. discriminate.
  - vm_compute. reflexivity.
Defined.

(** ** The key generator never produces zero *)

Section Xorshift.

Import Zobrist ZobristProps.

Lemma lxor_bound (a b : Z) :
  0 <= a < 2 ^ 64 -> 0 <= b < 2 ^ 64 -> 0 <= Z.lxor a b < 2 ^ 64.
Proof.
  intros Ha Hb.
  assert (H0 : 0 <= Z.lxor a b) by (apply Z.lxor_nonneg; lia).
  split; [ exact H0 | ].
  destruct (Z.eq_dec (Z.lxor a b) 0) as [->|Hne]; [ reflexivity | ].
  apply Z.log2_lt_pow2; [ lia | ].
  eapply Z.le_lt_trans; [ apply Z.log2_lxor; lia | ].
  apply Z.max_lub_lt.
  - destruct (Z.eq_dec a 0) as [->|]; [ reflexivity | ].
    apply Z.log2_lt_pow2; lia.
  - destruct (Z.eq_dec b 0) as [->|]; [ reflexivity | ].
    apply Z.log2_lt_pow2; lia.
Qed.

Lemma shiftr_bound (a k : Z) :
  0 <= a < 2 ^ 64 -> 0 < k -> 0 <= Z.shiftr a k < 2 ^ 64 /\
  (0 < a -> Z.shiftr a k < a).
Proof.
  intros Ha Hk. rewrite Z.shiftr_div_pow2 by lia.
  assert (Hp : 2 <= 2 ^ k).
  { change 2 with (2 ^ 1) at 1. apply Z.pow_le_mono_r; lia. }
  assert (H1 : 0 <= a / 2 ^ k) by (apply Z.div_pos; lia).
  assert (H2 : 0 < a -> a / 2 ^ k < a) by (intros; apply Z.div_lt; lia).
  split; [ | exact H2 ].
  split; [ exact H1 | ].
  destruct (Z.eq_dec a 0) as [->|]; [ rewrite Z.div_0_l; lia | ].
  specialize (H2 ltac:(lia)). lia.
Qed.

(** [x ^= x >> k] maps a non-zero 64-bit value to a non-zero 64-bit
    value. *)
Lemma xor_shiftr_nonzero (x k : Z) :
  0 < x < 2 ^ 64 -> 0 < k -> 0 < Z.lxor x (Z.shiftr x k) < 2 ^ 64.
Proof.
  intros Hx Hk.
  destruct (shiftr_bound x k ltac:(lia) Hk) as [Hs Hlt].
  destruct (lxor_bound x (Z.shiftr x k) ltac:(lia) Hs) as [H0 H1].
  split; [ | exact H1 ].
  destruct (Z.eq_dec (Z.lxor x (Z.shiftr x k)) 0) as [Heq|]; [ | lia ].
  apply Z.lxor_eq in Heq. specialize (Hlt ltac:(lia)). lia.
Qed.

(** [x ^= x << 25] on 64 bits maps a non-zero value to a non-zero value. *)
Lemma xor_shiftl_nonzero (x : Z) :
  0 < x < 2 ^ 64 -> 0 < Z.lxor x (u64 (Z.shiftl x 25)) < 2 ^ 64.
Proof.
  intros Hx. unfold u64.
  assert (Hm : 0 <= Z.shiftl x 25 mod 2 ^ 64 < 2 ^ 64)
    by (apply Z.mod_pos_bound; lia).
  destruct (lxor_bound x _ ltac:(lia) Hm) as [H0 H1].
  split; [ | exact H1 ].
  destruct (Z.eq_dec (Z.lxor x (Z.shiftl x 25 mod 2 ^ 64)) 0) as [Heq|]; [ | lia ].
  apply Z.lxor_eq in Heq. rewrite Z.shiftl_mul_pow2 in Heq by lia.
  exfalso.
  assert (Hdiv : (2 ^ 64 | x * (2 ^ 25 - 1))).
  { exists ((x * 2 ^ 25) / 2 ^ 64).
    pose proof (Z.div_mod (x * 2 ^ 25) (2 ^ 64) ltac:(lia)) as Hdm.
    rewrite <- Heq in Hdm. lia. }
  rewrite Z.mul_comm in Hdiv.
  apply Z.gauss in Hdiv; [ | vm_compute; reflexivity ].
  destruct Hdiv as [q Hq]. assert (q = 0 \/ 1 <= q \/ q <= -1) by lia. nia.
Qed.

Lemma rand64_key64 (s : state) :
  key64 (seed s) ->
  key64 (fst (rand64 s)) /\ key64 (seed (snd (rand64 s))).
Proof.
  unfold key64. intros Hs. unfold rand64. cbn [fst snd seed set_seed].
  pose proof (xor_shiftr_nonzero (seed s) 12 Hs ltac:(lia)) as H1.
  pose proof (xor_shiftl_nonzero _ H1) as H2.
  pose proof (xor_shiftr_nonzero _ 27 H2 ltac:(lia)) as H3.
  split; [ | exact H3 ].
  set (s3 := Z.lxor _ (Z.shiftr _ 27)) in *.
  unfold u64.
  assert (Hm : 0 <= (s3 * 2685821657736338717) mod 2 ^ 64 < 2 ^ 64)
    by (apply Z.mod_pos_bound; lia).
  split; [ | lia ].
  destruct (Z.eq_dec ((s3 * 2685821657736338717) mod 2 ^ 64) 0) as [Heq|]; [ | lia ].
  exfalso. apply Z.mod_divide in Heq; [ | lia ].
  rewrite Z.mul_comm in Heq. apply Z.gauss in Heq; [ | vm_compute; reflexivity ].
  destruct Heq as [q Hq]. assert (q = 0 \/ 1 <= q \/ q <= -1) by lia. nia.
Qed.

(** X10.  With a non-zero 64-bit seed, [rand64] returns a non-zero 64-bit key and
    leaves a non-zero 64-bit seed: the generator never reaches the state 0,
    from which every later key would be 0. *)
Theorem rand64_never_zero (s : state) :
  key64 (seed s) ->
  key64 (fst (rand64 s)) /\ key64 (seed (snd (rand64 s))).
Proof.
  unfold key64. intros Hs. unfold rand64. cbn [fst snd seed set_seed].
  pose proof (xor_shiftr_nonzero (seed s) 12 Hs ltac:(lia)) as H1.
  pose proof (xor_shiftl_nonzero _ H1) as H2.
  pose proof (xor_shiftr_nonzero _ 27 H2 ltac:(lia)) as H3.
  split; [ | exact H3 ].
  set (s3 := Z.lxor _ (Z.shiftr _ 27)) in *.
  unfold u64.
  assert (Hm : 0 <= (s3 * 2685821657736338717) mod 2 ^ 64 < 2 ^ 64)
    by (apply Z.mod_pos_bound; lia).
  split; [ | lia ].
  destruct (Z.eq_dec ((s3 * 2685821657736338717) mod 2 ^ 64) 0) as [Heq|]; [ | lia ].
  exfalso. apply Z.mod_divide in Heq; [ | lia ].
  rewrite Z.mul_comm in Heq. apply Z.gauss in Heq; [ | vm_compute; reflexivity ].
  destruct Heq as [q Hq]. assert (q = 0 \/ 1 <= q \/ q <= -1) by lia. nia.
Qed.

Lemma rand64_never_zero_witness :
  key64 (fst (rand64 startup)) /\ key64 (seed (snd (rand64 startup))).
Proof.
  apply (rand64_never_zero startup). vm_compute. split; reflexivity.
Defined.

End Xorshift.

(** ** The keys written by initZobrist *)

Section InitKeys.

Import Zobrist ZobristProps.

Variable H : header.

Lemma upd2_spec {A : Type} (f : Z -> Z -> A) (i j : Z) (v : A) (p q : Z) :
  upd2 f i j v p q = if (p =? i) && (q =? j) then v else f p q.
Proof.
  unfold upd2, upd. destruct (Z.eqb_spec p i) as [->|]; simpl; reflexivity.
Qed.

Lemma in_Z_range (x lo : Z) (n : nat) :
  In x (Z_range lo n) <-> lo <= x < lo + Z.of_nat n.
Proof.
  unfold Z_range. rewrite in_map_iff. split.
  - intros (k & <- & Hk). apply in_seq in Hk. lia.
  - intros Hx. exists (Z.to_nat (x - lo)). split; [ lia | apply in_seq; lia ].
Qed.

Lemma fold_left_frame {X A : Type} (proj : state -> A) (step : state -> X -> state) :
  (forall s x, proj (step s x) = proj s) ->
  forall l s, proj (fold_left step l s) = proj s.
Proof.
  intros Hstep. induction l as [|x l IH]; intros s; simpl; [ reflexivity | ].
  rewrite IH. apply Hstep.
Qed.

(** A loop whose every round draws keys and stores them: each target cell
    of each round ends with a non-zero key, and every cell of the table
    either keeps its content or holds a non-zero key. *)
Lemma fold_left_writes {X C : Type} (tbl : state -> C -> Z)
    (targets : X -> list C) (step : state -> X -> state)
    (Hstep : forall s x, key64 (seed s) ->
       key64 (seed (step s x)) /\
       (forall c, In c (targets x) -> key64 (tbl (step s x) c)) /\
       (forall c, tbl (step s x) c = tbl s c \/ key64 (tbl (step s x) c))) :
  forall l s, key64 (seed s) ->
    key64 (seed (fold_left step l s)) /\
    (forall x c, In x l -> In c (targets x) -> key64 (tbl (fold_left step l s) c)) /\
    (forall c, tbl (fold_left step l s) c = tbl s c
               \/ key64 (tbl (fold_left step l s) c)).
Proof.
  induction l as [|x l IH]; intros s Hs; simpl.
  - split; [ exact Hs | ]. split; [ contradiction | auto ].
  - destruct (Hstep s x Hs) as (H1 & H2 & H3).
    destruct (IH (step s x) H1) as (H4 & H5 & H6).
    split; [ exact H4 | ]. split.
    + intros y c [<- | Hy] Hc; [ | eapply H5; eassumption ].
      destruct (H6 c) as [-> | Hk]; [ apply H2, Hc | exact Hk ].
    + intros c. destruct (H6 c) as [-> | Hk]; [ apply H3 | right; exact Hk ].
Qed.

Lemma init_piece_square_writes (pt : Z) (s : state) (sq : Z) :
  key64 (seed s) ->
  key64 (seed (init_piece_square H pt s sq)) /\
  (forall c, In c (piece_cells H pt sq) ->
             key64 (ZobristKeys (init_piece_square H pt s sq) (fst c) (snd c))) /\
  (forall c : Z * Z,
      ZobristKeys (init_piece_square H pt s sq) (fst c) (snd c)
      = ZobristKeys s (fst c) (snd c)
      \/ key64 (ZobristKeys (init_piece_square H pt s sq) (fst c) (snd c))).
Proof.
  intros Hs. unfold init_piece_square.
  destruct (rand64_key64 s Hs) as [Hk1 Hs1].
  destruct (rand64 s) as [k1 s1] eqn:Hr1. simpl in Hk1, Hs1.
  set (s1' := set_key s1 _ sq k1).
  destruct (rand64_key64 s1' Hs1) as [Hk2 Hs2].
  destruct (rand64 s1') as [k2 s2] eqn:Hr2. simpl in Hk2, Hs2.
  assert (Hzk2 : ZobristKeys s2 = ZobristKeys s1')
    by (unfold rand64 in Hr2; injection Hr2 as _ <-; reflexivity).
  assert (Hzk1 : ZobristKeys s1 = ZobristKeys s)
    by (unfold rand64 in Hr1; injection Hr1 as _ <-; reflexivity).
  assert (Hcell : forall p q,
             ZobristKeys (set_key s2 (makePiece H pt (BLACK H)) sq k2) p q
             = if (p =? makePiece H pt (BLACK H)) && (q =? sq) then k2
               else if (p =? makePiece H pt (WHITE H)) && (q =? sq) then k1
               else ZobristKeys s p q).
  { intros p q. cbn [ZobristKeys set_key]. rewrite Hzk2. subst s1'.
    cbn [ZobristKeys set_key]. rewrite Hzk1, !upd2_spec. reflexivity. }
  split; [ exact Hs2 | ]. split.
  - intros c [<- | [<- | []]]; cbn [fst snd]; rewrite Hcell, !Z.eqb_refl; simpl.
    + destruct (_ =? _); simpl; assumption.
    + assumption.
  - intros [p q]. cbn [fst snd]. rewrite !Hcell.
    destruct (_ && _); [ right; assumption | ].
    destruct (_ && _); [ right; assumption | left; reflexivity ].
Qed.

Lemma init_piece_keys_writes (s : state) :
  key64 (seed s) ->
  key64 (seed (init_piece_keys H s)) /\
  (forall pt sq c,
      PAWN H <= pt <= KING H -> 0 <= sq < SQUARE_NB H ->
      In c (piece_cells H pt sq) ->
      key64 (ZobristKeys (init_piece_keys H s) (fst c) (snd c))).
Proof.
  intros Hs. unfold init_piece_keys.
  set (tbl := fun (s : state) (c : Z * Z) => ZobristKeys s (fst c) (snd c)).
  set (squares := Z_range 0 (Z.to_nat (SQUARE_NB H))).
  destruct (fold_left_writes tbl
              (fun pt => flat_map (piece_cells H pt) squares)
              (fun s pt => fold_left (init_piece_square H pt) squares s))
    with (l := Z_range (PAWN H) (Z.to_nat (KING H - PAWN H + 1))) (s := s)
    as (H1 & H2 & _); [ | exact Hs | ].
  - intros s0 pt Hs0.
    destruct (fold_left_writes tbl (piece_cells H pt) (init_piece_square H pt)
                (fun s1 sq => init_piece_square_writes pt s1 sq) squares s0 Hs0)
      as (G1 & G2 & G3).
    split; [ exact G1 | ]. split; [ | exact G3 ].
    intros c Hc. apply in_flat_map in Hc. destruct Hc as (sq & Hsq & Hc).
    exact (G2 sq c Hsq Hc).
  - split; [ exact H1 | ].
    intros pt sq c Hpt Hsq Hc. apply (H2 pt c).
    + apply in_Z_range. lia.
    + apply in_flat_map. exists sq. split; [ | exact Hc ].
      apply in_Z_range. lia.
Qed.

Lemma init_pawn_king_square_spec (s : state) (sq0 : Z) :
  seed (init_pawn_king_square H s sq0) = seed s /\
  ZobristKeys (init_pawn_king_square H s sq0) = ZobristKeys s /\
  ZobristEnpassKeys (init_pawn_king_square H s sq0) = ZobristEnpassKeys s /\
  (forall p, pawn_king_row H p ->
     ZobristPawnKingKeys (init_pawn_king_square H s sq0) p sq0 = ZobristKeys s p sq0) /\
  (forall p sq, ~ pawn_king_row H p \/ sq <> sq0 ->
     ZobristPawnKingKeys (init_pawn_king_square H s sq0) p sq
     = ZobristPawnKingKeys s p sq).
Proof.
  unfold init_pawn_king_square, pawn_king_row.
  cbn [seed ZobristKeys ZobristEnpassKeys ZobristPawnKingKeys set_pawn_king_key].
  repeat (split; [ reflexivity | ]). split.
  - intros p Hp. rewrite !upd2_spec, Z.eqb_refl, !andb_true_r.
    destruct (Z.eqb_spec p (BLACK_KING H)) as [->|]; [ reflexivity | ].
    destruct (Z.eqb_spec p (WHITE_KING H)) as [->|]; [ reflexivity | ].
    destruct (Z.eqb_spec p (BLACK_PAWN H)) as [->|]; [ reflexivity | ].
    destruct (Z.eqb_spec p (WHITE_PAWN H)) as [->|]; [ reflexivity | ].
    exfalso. destruct Hp as [? | [? | [? | ?]]]; contradiction.
  - intros p sq Hp. rewrite !upd2_spec.
    destruct (Z.eqb_spec sq sq0) as [->|]; [ | rewrite !andb_false_r; reflexivity ].
    destruct Hp as [Hp | Hp]; [ | contradiction ].
    rewrite !andb_true_r.
    destruct (Z.eqb_spec p (BLACK_KING H)); [ exfalso; apply Hp; auto | ].
    destruct (Z.eqb_spec p (WHITE_KING H)); [ exfalso; apply Hp; auto | ].
    destruct (Z.eqb_spec p (BLACK_PAWN H)); [ exfalso; apply Hp; auto | ].
    destruct (Z.eqb_spec p (WHITE_PAWN H)); [ exfalso; apply Hp; auto | ].
    reflexivity.
Qed.

Lemma init_pawn_king_loop_spec (l : list Z) (s : state) :
  seed (fold_left (init_pawn_king_square H) l s) = seed s /\
  ZobristKeys (fold_left (init_pawn_king_square H) l s) = ZobristKeys s /\
  ZobristEnpassKeys (fold_left (init_pawn_king_square H) l s) = ZobristEnpassKeys s /\
  (forall p sq, pawn_king_row H p -> In sq l ->
     ZobristPawnKingKeys (fold_left (init_pawn_king_square H) l s) p sq
     = ZobristKeys s p sq) /\
  (forall p sq, ~ pawn_king_row H p \/ ~ In sq l ->
     ZobristPawnKingKeys (fold_left (init_pawn_king_square H) l s) p sq
     = ZobristPawnKingKeys s p sq).
Proof.
  revert s. induction l as [|sq0 l IH]; intros s; simpl.
  - repeat (split; [ reflexivity | ]). split; [ contradiction | reflexivity ].
  - destruct (init_pawn_king_square_spec s sq0) as (S1 & S2 & S3 & S4 & S5).
    destruct (IH (init_pawn_king_square H s sq0)) as (I1 & I2 & I3 & I4 & I5).
    split; [ congruence | ]. split; [ congruence | ]. split; [ congruence | ].
    split.
    + intros p sq Hp Hin.
      destruct (in_dec Z.eq_dec sq l) as [Hl | Hl].
      * rewrite (I4 p sq Hp Hl), S2. reflexivity.
      * destruct Hin as [<- | Hin]; [ | contradiction ].
        rewrite (I5 p sq0 (or_intror Hl)). apply S4, Hp.
    + intros p sq Hp.
      assert (Hl : ~ pawn_king_row H p \/ ~ In sq l) by tauto.
      rewrite (I5 p sq Hl). apply S5. destruct Hp as [Hp | Hp]; [ left; exact Hp | ].
      right. intros ->. apply Hp. left. reflexivity.
Qed.

Lemma init_enpass_keys_writes (s : state) :
  key64 (seed s) ->
  key64 (seed (init_enpass_keys H s)) /\
  (forall f, 0 <= f < FILE_NB H -> key64 (ZobristEnpassKeys (init_enpass_keys H s) f)) /\
  ZobristKeys (init_enpass_keys H s) = ZobristKeys s /\
  ZobristPawnKingKeys (init_enpass_keys H s) = ZobristPawnKingKeys s.
Proof.
  intros Hs. unfold init_enpass_keys.
  set (step := fun (s : state) (f : Z) =>
                 let '(k, s') := rand64 s in set_enpass_key s' f k).
  destruct (fold_left_writes ZobristEnpassKeys (fun f => [f]) step)
    with (l := Z_range 0 (Z.to_nat (FILE_NB H))) (s := s)
    as (H1 & H2 & _); [ | exact Hs | ].
  - intros s0 f Hs0. destruct (rand64_key64 s0 Hs0) as [Hk Hs1].
    unfold step, rand64 in *.
    cbn [fst snd seed ZobristEnpassKeys set_enpass_key set_seed] in *.
    split; [ exact Hs1 | ]. split.
    + intros c [<- | []]. unfold upd. rewrite Z.eqb_refl. exact Hk.
    + intros c. unfold upd. destruct (c =? f); [ right; exact Hk | left; reflexivity ].
  - split; [ exact H1 | ]. split.
    + intros f Hf. apply (H2 f f); [ apply in_Z_range; lia | left; reflexivity ].
    + split.
      * apply (fold_left_frame ZobristKeys step). intros s0 f. reflexivity.
      * apply (fold_left_frame ZobristPawnKingKeys step). intros s0 f. reflexivity.
Qed.

Lemma rand64_draw (s : state) (k : Z) (s1 : state) :
  key64 (seed s) -> rand64 s = (k, s1) ->
  key64 k /\ key64 (seed s1) /\
  ZobristKeys s1 = ZobristKeys s /\
  ZobristPawnKingKeys s1 = ZobristPawnKingKeys s /\
  ZobristEnpassKeys s1 = ZobristEnpassKeys s.
Proof.
  intros Hs Hr. destruct (rand64_key64 s Hs) as [Hk H1].
  rewrite Hr in Hk, H1. cbn [fst snd] in Hk, H1.
  unfold rand64 in Hr. injection Hr as _ <-.
  repeat (split; [ assumption || reflexivity | ]). reflexivity.
Qed.

Lemma draw_castle_keys_frame (s : state) :
  key64 (seed s) ->
  key64 (seed (draw_castle_keys H s)) /\
  ZobristKeys (draw_castle_keys H s) = ZobristKeys s /\
  ZobristPawnKingKeys (draw_castle_keys H s) = ZobristPawnKingKeys s /\
  ZobristEnpassKeys (draw_castle_keys H s) = ZobristEnpassKeys s.
Proof.
  intros Hs. unfold draw_castle_keys.
  destruct (rand64 s) as [k1 s1] eqn:R1.
  destruct (rand64_draw s k1 s1 Hs R1) as (_ & A1 & A2 & A3 & A4).
  set (t1 := set_castle_key s1 _ k1).
  destruct (rand64 t1) as [k2 s2] eqn:R2.
  destruct (rand64_draw t1 k2 s2 A1 R2) as (_ & B1 & B2 & B3 & B4).
  set (t2 := set_castle_key s2 _ k2).
  destruct (rand64 t2) as [k3 s3] eqn:R3.
  destruct (rand64_draw t2 k3 s3 B1 R3) as (_ & C1 & C2 & C3 & C4).
  set (t3 := set_castle_key s3 _ k3).
  destruct (rand64 t3) as [k4 s4] eqn:R4.
  destruct (rand64_draw t3 k4 s4 C1 R4) as (_ & D1 & D2 & D3 & D4).
  subst t1 t2 t3.
  cbn [seed ZobristKeys ZobristPawnKingKeys ZobristEnpassKeys set_castle_key] in *.
  split; [ exact D1 | ]. repeat split; congruence.
Qed.

Lemma combine_castle_keys_frame (s : state) :
  seed (combine_castle_keys H s) = seed s /\
  ZobristKeys (combine_castle_keys H s) = ZobristKeys s /\
  ZobristPawnKingKeys (combine_castle_keys H s) = ZobristPawnKingKeys s /\
  ZobristEnpassKeys (combine_castle_keys H s) = ZobristEnpassKeys s.
Proof.
  assert (Hr : forall cr right s0,
             seed (combine_right cr right s0) = seed s0 /\
             ZobristKeys (combine_right cr right s0) = ZobristKeys s0 /\
             ZobristPawnKingKeys (combine_right cr right s0) = ZobristPawnKingKeys s0 /\
             ZobristEnpassKeys (combine_right cr right s0) = ZobristEnpassKeys s0).
  { intros cr right s0. unfold combine_right.
    destruct (Z.land cr right =? 0); repeat split; reflexivity. }
  assert (Hstep : forall s0 cr,
             seed (combine_castle_step H s0 cr) = seed s0 /\
             ZobristKeys (combine_castle_step H s0 cr) = ZobristKeys s0 /\
             ZobristPawnKingKeys (combine_castle_step H s0 cr) = ZobristPawnKingKeys s0 /\
             ZobristEnpassKeys (combine_castle_step H s0 cr) = ZobristEnpassKeys s0).
  { intros s0 cr. unfold combine_castle_step. cbv zeta.
    destruct (Hr cr (WHITE_KING_RIGHTS H) s0) as (a1 & a2 & a3 & a4).
    set (x1 := combine_right cr (WHITE_KING_RIGHTS H) s0) in *.
    destruct (Hr cr (WHITE_QUEEN_RIGHTS H) x1) as (b1 & b2 & b3 & b4).
    set (x2 := combine_right cr (WHITE_QUEEN_RIGHTS H) x1) in *.
    destruct (Hr cr (BLACK_KING_RIGHTS H) x2) as (c1 & c2 & c3 & c4).
    set (x3 := combine_right cr (BLACK_KING_RIGHTS H) x2) in *.
    destruct (Hr cr (BLACK_QUEEN_RIGHTS H) x3) as (d1 & d2 & d3 & d4).
    repeat split; congruence. }
  unfold combine_castle_keys. repeat split.
  - apply (fold_left_frame seed). intros; apply Hstep.
  - apply (fold_left_frame ZobristKeys). intros; apply Hstep.
  - apply (fold_left_frame ZobristPawnKingKeys). intros; apply Hstep.
  - apply (fold_left_frame ZobristEnpassKeys). intros; apply Hstep.
Qed.

(** The fields of the state that [initZobrist] returns, in terms of the
    state [s5] in which the castle keys have been combined. *)
Lemma initZobrist_fields (s : state) :
  let s5 := combine_castle_keys H (draw_castle_keys H (init_enpass_keys H
              (init_pawn_king_keys H (init_piece_keys H s)))) in
  ZobristKeys (initZobrist H s) = ZobristKeys s5 /\
  ZobristPawnKingKeys (initZobrist H s) = ZobristPawnKingKeys s5 /\
  ZobristEnpassKeys (initZobrist H s) = ZobristEnpassKeys s5 /\
  (key64 (seed s5) -> key64 (ZobristTurnKey (initZobrist H s))).
Proof.
  intros s5. unfold initZobrist. fold s5.
  destruct (rand64 s5) as [k s6] eqn:R.
  cbn [ZobristKeys ZobristPawnKingKeys ZobristEnpassKeys ZobristTurnKey set_turn_key].
  assert (F : ZobristKeys s6 = ZobristKeys s5 /\
              ZobristPawnKingKeys s6 = ZobristPawnKingKeys s5 /\
              ZobristEnpassKeys s6 = ZobristEnpassKeys s5)
    by (unfold rand64 in R; injection R as _ <-; repeat split; reflexivity).
  destruct F as (F1 & F2 & F3).
  repeat (split; [ assumption | ]).
  intros Hs5. exact (proj1 (rand64_draw s5 k s6 Hs5 R)).
Qed.

(** X11.  Every piece-square key, every en-passant key and the turn key that
    [initZobrist] draws is a non-zero 64-bit value, whatever non-zero seed
    the generator starts from. *)
Theorem initZobrist_keys_nonzero (s : state) :
  key64 (seed s) ->
  (forall pt sq, PAWN H <= pt <= KING H -> 0 <= sq < SQUARE_NB H ->
     key64 (ZobristKeys (initZobrist H s) (makePiece H pt (WHITE H)) sq) /\
     key64 (ZobristKeys (initZobrist H s) (makePiece H pt (BLACK H)) sq)) /\
  (forall f, 0 <= f < FILE_NB H -> key64 (ZobristEnpassKeys (initZobrist H s) f)) /\
  key64 (ZobristTurnKey (initZobrist H s)).
Proof.
  intros Hs. destruct (initZobrist_fields s) as (F1 & _ & F3 & F4).
  rewrite F1, F3. clear F1 F3.
  destruct (init_piece_keys_writes s Hs) as (P1 & P2).
  set (s1 := init_piece_keys H s) in *.
  destruct (init_pawn_king_loop_spec (Z_range 0 (Z.to_nat (SQUARE_NB H))) s1)
    as (K1 & K2 & K3 & _ & _).
  fold (init_pawn_king_keys H s1) in K1, K2, K3.
  set (s2 := init_pawn_king_keys H s1) in *.
  assert (Hs2 : key64 (seed s2)) by (rewrite K1; exact P1).
  destruct (init_enpass_keys_writes s2 Hs2) as (E1 & E2 & E3 & _).
  set (s3 := init_enpass_keys H s2) in *.
  destruct (draw_castle_keys_frame s3 E1) as (D1 & D2 & _ & D4).
  set (s4 := draw_castle_keys H s3) in *.
  destruct (combine_castle_keys_frame s4) as (C1 & C2 & _ & C4).
  set (s5 := combine_castle_keys H s4) in *.
  assert (Hs5 : key64 (seed s5)) by (rewrite C1; exact D1).
  rewrite C2, D2, E3, K2, C4, D4.
  split; [ | split; [ exact E2 | exact (F4 Hs5) ] ].
  intros pt sq Hpt Hsq. split.
  - apply (P2 pt sq (makePiece H pt (WHITE H), sq) Hpt Hsq). left. reflexivity.
  - apply (P2 pt sq (makePiece H pt (BLACK H), sq) Hpt Hsq). right. left. reflexivity.
Qed.

(** X12.  After [initZobrist] the pawn-king table agrees with the main table on
    the four pawn and king rows, for every square of the board; every other
    cell of the pawn-king table is left as it was. *)
Theorem initZobrist_pawn_king_keys (s : state) (p sq : Z) :
  (pawn_king_row H p -> 0 <= sq < SQUARE_NB H ->
   ZobristPawnKingKeys (initZobrist H s) p sq = ZobristKeys (initZobrist H s) p sq) /\
  (~ pawn_king_row H p \/ ~ 0 <= sq < SQUARE_NB H ->
   ZobristPawnKingKeys (initZobrist H s) p sq = ZobristPawnKingKeys s p sq).
Proof.
  destruct (initZobrist_fields s) as (F1 & F2 & _ & _).
  rewrite F1, F2. clear F1 F2.
  set (s1 := init_piece_keys H s).
  assert (P : ZobristPawnKingKeys s1 = ZobristPawnKingKeys s).
  { unfold s1, init_piece_keys.
    apply (fold_left_frame ZobristPawnKingKeys). intros s0 pt.
    apply (fold_left_frame ZobristPawnKingKeys). intros s' sq'.
    unfold init_piece_square, rand64. reflexivity. }
  destruct (init_pawn_king_loop_spec (Z_range 0 (Z.to_nat (SQUARE_NB H))) s1)
    as (_ & K2 & _ & K4 & K5).
  fold (init_pawn_king_keys H s1) in K2, K4, K5.
  set (s2 := init_pawn_king_keys H s1) in *.
  set (s3 := init_enpass_keys H s2).
  assert (E : ZobristKeys s3 = ZobristKeys s2 /\
              ZobristPawnKingKeys s3 = ZobristPawnKingKeys s2).
  { unfold s3, init_enpass_keys. split.
    - apply (fold_left_frame ZobristKeys). intros s0 f. reflexivity.
    - apply (fold_left_frame ZobristPawnKingKeys). intros s0 f. reflexivity. }
  destruct E as [E3 E4].
  set (s4 := draw_castle_keys H s3).
  assert (D : ZobristKeys s4 = ZobristKeys s3 /\
              ZobristPawnKingKeys s4 = ZobristPawnKingKeys s3).
  { unfold s4, draw_castle_keys, rand64.
    cbn [seed ZobristKeys ZobristPawnKingKeys set_castle_key set_seed].
    split; reflexivity. }
  destruct D as [D2 D3].
  destruct (combine_castle_keys_frame s4) as (_ & C2 & C3 & _).
  set (s5 := combine_castle_keys H s4) in *.
  rewrite C2, C3, D2, D3, E3, E4, K2. split.
  - intros Hp Hsq. apply K4; [ exact Hp | apply in_Z_range; lia ].
  - intros Hn. rewrite <- P. apply K5.
    destruct Hn as [Hn | Hn]; [ left; exact Hn | right ].
    intros Hin. apply in_Z_range in Hin. apply Hn. lia.
Qed.

End InitKeys.

Lemma initZobrist_keys_nonzero_witness :
  ZobristProps.key64
    (Zobrist.ZobristTurnKey (Zobrist.initZobrist Zobrist.ethereal_header Zobrist.startup)).
Proof.
  apply (initZobrist_keys_nonzero Zobrist.ethereal_header Zobrist.startup).
  vm_compute. split; reflexivity.
Defined.

Lemma initZobrist_pawn_king_keys_witness :
  Zobrist.ZobristPawnKingKeys
    (Zobrist.initZobrist Zobrist.ethereal_header Zobrist.startup) 20 63
  = Zobrist.ZobristKeys
      (Zobrist.initZobrist Zobrist.ethereal_header Zobrist.startup) 20 63.
Proof.
  destruct (initZobrist_pawn_king_keys Zobrist.ethereal_header Zobrist.startup 20 63)
    as [Hrow _].
  refine (Hrow _ _).
  - right. right. left. reflexivity.
  - simpl. lia.
Defined.

(** ** The tuple stack of the tuner *)

Section TupleStack.

Import Texel TexelProps.

Variable H : header.

Lemma count_nonzero_from (coeffs : list Z) (j k0 : Z) :
  fold_left (fun k c => k + (if c =? 0 then 0 else 1)) coeffs k0
  = k0 + Z.of_nat (List.length (sparse_from j coeffs)).
Proof.
  revert j k0; induction coeffs as [|c rest IH]; intros j k0; simpl; [ lia | ].
  rewrite (IH (j + 1)). destruct (c =? 0); simpl List.length; lia.
Qed.

Lemma count_nonzero_sparse (coeffs : list Z) :
  count_nonzero coeffs = Z.of_nat (List.length (sparse coeffs)).
Proof. unfold count_nonzero, sparse. rewrite (count_nonzero_from coeffs 0). lia. Qed.

Lemma sparse_from_length (coeffs : list Z) (j : Z) :
  (List.length (sparse_from j coeffs) <= List.length coeffs)%nat.
Proof.
  revert j; induction coeffs as [|c rest IH]; intros j; simpl; [ lia | ].
  specialize (IH (j + 1)). destruct (c =? 0); simpl; lia.
Qed.

Lemma sparse_sum_from (w : Z -> Z) (coeffs : list Z) (j : Z) :
  sparse_sum w (sparse_from j coeffs) = dense_sum_from w j coeffs.
Proof.
  revert j; induction coeffs as [|c rest IH]; intros j; simpl; [ reflexivity | ].
  destruct (Z.eqb_spec c 0) as [-> | _]; simpl; rewrite IH; lia.
Qed.

(** The filling loop writes the non-zero coefficients to consecutive
    cells from [k] on and leaves every other cell alone. *)
Lemma fill_tuples_spec (te : TexelEntry) :
  forall coeffs j k m,
    let m' := fill_tuples te coeffs j k m in
    let n := Z.of_nat (List.length (sparse_from j coeffs)) in
    TupleStack m' = TupleStack m /\ TupleStackSize m' = TupleStackSize m /\
    blocks m' = blocks m /\
    (forall b c,
        b <> block (tuples te) \/ c < cell (tuples te) + k \/
        cell (tuples te) + k + n <= c ->
        cells m' b c = cells m b c) /\
    (forall i t, nth_error (sparse_from j coeffs) i = Some t ->
                 cells m' (block (tuples te)) (cell (tuples te) + k + Z.of_nat i) = t).
Proof.
  induction coeffs as [|c rest IH]; intros j k m; simpl.
  - split; [ reflexivity | ]. split; [ reflexivity | ]. split; [ reflexivity | ].
    split; [ reflexivity | ]. intros [|i] t Hi; discriminate.
  - destruct (c =? 0); [ apply IH | ].
    specialize (IH (j + 1) (k + 1)
                   (store m (tuples te) k {| index := j; coeff := c |})).
    cbv zeta in IH. destruct IH as (I1 & I2 & I3 & I4 & I5).
    split; [ exact I1 | ]. split; [ exact I2 | ]. split; [ exact I3 | ].
    simpl List.length. split.
    + intros b c0 Hout. rewrite I4 by lia. cbn [cells store].
      destruct (Nat.eqb_spec b (block (tuples te))) as [-> | _]; [ | reflexivity ].
      destruct (Z.eqb_spec c0 (cell (tuples te) + k)); [ | reflexivity ].
      exfalso. lia.
    + intros [|i] t Hi; simpl in Hi.
      * injection Hi as <-. rewrite I4 by lia. cbn [cells store].
        rewrite Nat.eqb_refl. replace (cell (tuples te) + k + Z.of_nat 0)
          with (cell (tuples te) + k) by lia.
        rewrite Z.eqb_refl. reflexivity.
      * replace (cell (tuples te) + k + Z.of_nat (S i))
          with (cell (tuples te) + (k + 1) + Z.of_nat i) by lia.
        apply I5, Hi.
Qed.

Lemma read_tuples_eq (m m' : memory) (te : TexelEntry) :
  (forall c, cell (tuples te) <= c < cell (tuples te) + ntuples te ->
             cells m' (block (tuples te)) c = cells m (block (tuples te)) c) ->
  read_tuples m' te = read_tuples m te.
Proof.
  intros Hc. unfold read_tuples. apply map_ext_in. intros k Hk.
  apply in_seq in Hk. apply Hc. lia.
Qed.

Lemma read_tuples_list (m : memory) (te : TexelEntry) (l : list TexelTuple) :
  ntuples te = Z.of_nat (List.length l) ->
  (forall i t, nth_error l i = Some t ->
               cells m (block (tuples te)) (cell (tuples te) + Z.of_nat i) = t) ->
  read_tuples m te = l.
Proof.
  intros Hn Hc. unfold read_tuples. rewrite Hn, Nat2Z.id.
  apply nth_error_ext. intros i.
  destruct (nth_error l i) as [t|] eqn:Hi.
  - rewrite nth_error_map.
    assert (Hlt : (i < List.length l)%nat) by (apply nth_error_Some; congruence).
    rewrite (nth_error_nth' _ 0%nat) by (rewrite length_seq; exact Hlt).
    rewrite seq_nth by exact Hlt. simpl. f_equal. apply Hc, Hi.
  - apply nth_error_None. rewrite length_map, length_seq.
    apply nth_error_None, Hi.
Qed.

(** One request that fits in a block. *)
Lemma updateMemory_spec (m : memory) (size : Z) :
  well_formed H m -> 0 <= size <= STACKSIZE H ->
  let te := fst (updateMemory H m size) in
  let m' := snd (updateMemory H m size) in
  well_formed H m' /\ allocated H m' te /\ ntuples te = size /\
  block (tuples te) = block (TupleStack m') /\
  cell (tuples te) + size = cell (TupleStack m') /\
  (forall old, allocated H m old ->
     allocated H m' old /\ disjoint old te /\
     (forall c, cells m' (block (tuples old)) c = cells m (block (tuples old)) c)).
Proof.
  unfold well_formed, allocated, disjoint. intros (W1 & W2 & W3 & W4) Hsize.
  unfold updateMemory. destruct (Z.ltb_spec (TupleStackSize m) size) as [Hlt | Hge];
    cbn [fst snd calloc set_TupleStack set_TupleStackSize TupleStack TupleStackSize
         blocks cells tuples ntuples block cell].
  - split; [ lia | ]. split; [ lia | ]. split; [ reflexivity | ].
    split; [ reflexivity | ]. split; [ reflexivity | ].
    intros old (O1 & O2 & O3 & O4 & O5).
    split; [ lia | ]. split; [ lia | ].
    intros c. destruct (Nat.eqb_spec (block (tuples old)) (blocks m));
      [ lia | reflexivity ].
  - split; [ lia | ]. split; [ lia | ]. split; [ reflexivity | ].
    split; [ reflexivity | ]. split; [ reflexivity | ].
    intros old (O1 & O2 & O3 & O4 & O5).
    split; [ lia | ]. split; [ | reflexivity ].
    destruct (Nat.eq_dec (block (tuples old)) (block (TupleStack m))) as [e | n];
      [ right; left; apply O5, e | left; exact n ].
Qed.

(** The body of the loop for one position. *)
Lemma init_tuples_spec (m : memory) (coeffs : list Z) :
  well_formed H m -> Z.of_nat (List.length coeffs) <= STACKSIZE H ->
  let te := fst (init_tuples H m coeffs) in
  let m' := snd (init_tuples H m coeffs) in
  well_formed H m' /\ allocated H m' te /\
  read_tuples m' te = sparse coeffs /\
  (forall old, allocated H m old ->
     allocated H m' old /\ disjoint old te /\
     read_tuples m' old = read_tuples m old).
Proof.
  intros Hwf Hlen. unfold init_tuples.
  assert (Hk : 0 <= count_nonzero coeffs <= STACKSIZE H).
  { rewrite count_nonzero_sparse. unfold sparse.
    pose proof (sparse_from_length coeffs 0). lia. }
  pose proof (updateMemory_spec m (count_nonzero coeffs) Hwf Hk) as U.
  destruct (updateMemory H m (count_nonzero coeffs)) as [te m1].
  cbv zeta in U. cbn [fst snd] in U |- *.
  destruct U as (U1 & U2 & U3 & U4 & U5 & U6).
  pose proof (fill_tuples_spec te coeffs 0 0 m1) as F. cbv zeta in F.
  destruct F as (F1 & F2 & F3 & F4 & F5).
  fold (sparse coeffs) in F4, F5. rewrite <- count_nonzero_sparse in F4.
  set (m' := fill_tuples te coeffs 0 0 m1) in *.
  assert (Hwf' : well_formed H m')
    by (unfold well_formed in *; rewrite F1, F2, F3; exact U1).
  assert (Hall : forall e, allocated H m1 e -> allocated H m' e)
    by (intros e; unfold allocated; rewrite F1, F3; auto).
  split; [ exact Hwf' | ]. split; [ apply Hall, U2 | ]. split.
  - apply read_tuples_list; [ rewrite U3; apply count_nonzero_sparse | ].
    intros i t Hi. specialize (F5 i t Hi).
    replace (cell (tuples te) + 0 + Z.of_nat i)
      with (cell (tuples te) + Z.of_nat i) in F5 by lia. exact F5.
  - intros old Hold. destruct (U6 old Hold) as (A1 & A2 & A3).
    split; [ apply Hall, A1 | ]. split; [ exact A2 | ].
    apply read_tuples_eq. intros c Hc. rewrite <- A3. apply F4.
    unfold disjoint in A2. rewrite U3 in A2. lia.
Qed.

(** The loop over the positions, from any point of its run: [done] are the
    vectors already handled and [tes] their entries. *)
Lemma initTexelEntries_loop :
  forall (rest done : list (list Z)) (tes : list TexelEntry) (m : memory),
    well_formed H m ->
    Forall (fun coeffs => Z.of_nat (List.length coeffs) <= STACKSIZE H) rest ->
    Forall2 (fun coeffs te => allocated H m te /\ read_tuples m te = sparse coeffs)
            done tes ->
    ForallOrdPairs disjoint tes ->
    let r := fold_left
               (fun (st : list TexelEntry * memory) coeffs =>
                  let '(te, m) := init_tuples H (snd st) coeffs in
                  (fst st ++ [te], m))
               rest (tes, m) in
    well_formed H (snd r) /\
    Forall2 (fun coeffs te =>
               allocated H (snd r) te /\ read_tuples (snd r) te = sparse coeffs)
            (done ++ rest) (fst r) /\
    ForallOrdPairs disjoint (fst r).
Proof.
  induction rest as [|coeffs rest IH]; intros done tes m Hwf Hrest Hdone Hdis.
  - cbn. rewrite app_nil_r. auto.
  - inversion Hrest as [|x l Hx Hl]; subst.
    pose proof (init_tuples_spec m coeffs Hwf Hx) as S. cbv zeta in S.
    cbn [fold_left fst snd].
    destruct (init_tuples H m coeffs) as [te m1]. cbn [fst snd] in S.
    destruct S as (S1 & S2 & S3 & S4).
    replace (done ++ coeffs :: rest) with ((done ++ [coeffs]) ++ rest)
      by (rewrite <- app_assoc; reflexivity).
    apply IH; [ exact S1 | exact Hl | | ].
    + apply Forall2_app.
      * eapply Forall2_impl; [ | exact Hdone ].
        intros c e (A & R). destruct (S4 e A) as (A' & _ & R').
        split; [ exact A' | rewrite R'; exact R ].
      * constructor; [ split; assumption | constructor ].
    + assert (Hold : Forall (fun e => disjoint e te) tes).
      { clear - Hdone S4. induction Hdone as [|c e cs es [A _] _ IHd];
          constructor; [ apply (S4 e A) | exact IHd ]. }
      clear - Hdis Hold. induction Hdis as [|a l Ha Hl IHl]; simpl.
      * constructor; constructor.
      * inversion Hold as [|? ? Hat Hlt]; subst. constructor.
        -- apply Forall_app. split; [ exact Ha | constructor; [ exact Hat | constructor ] ].
        -- apply IHl, Hlt.
Qed.

Lemma ForallOrdPairs_nth {A : Type} (R : A -> A -> Prop) (l : list A) :
  ForallOrdPairs R l ->
  forall i j a b, (i < j)%nat ->
    nth_error l i = Some a -> nth_error l j = Some b -> R a b.
Proof.
  induction 1 as [|x l Hx Hl IH]; intros i j a b Hij Hi Hj.
  - destruct i; discriminate.
  - destruct j as [|j]; [ lia | ]. simpl in Hj.
    destruct i as [|i]; simpl in Hi.
    + injection Hi as <-. rewrite Forall_forall in Hx.
      apply Hx. eapply nth_error_In, Hj.
    + apply (IH i j); [ lia | assumption | assumption ].
Qed.

(** X13.  From a well-formed tuple stack, when no coefficient vector is
    longer than a block: after the loop of [initTexelEntries] the tuples of
    the i-th entry are exactly the non-zero coefficients of the i-th
    position with their indices, in order, so that the sum over the tuples
    of coefficient times weight equals the sum over the whole vector; and
    each entry's tuples lie inside an allocated block. *)
Theorem initTexelEntries_tuples (m : memory) (positions : list (list Z)) :
  well_formed H m ->
  Forall (fun coeffs => Z.of_nat (List.length coeffs) <= STACKSIZE H) positions ->
  let r := initTexelEntries H m positions in
  well_formed H (snd r) /\
  Forall2 (fun coeffs te =>
             allocated H (snd r) te /\
             read_tuples (snd r) te = sparse coeffs /\
             forall w, sparse_sum w (read_tuples (snd r) te) = dense_sum w coeffs)
          positions (fst r).
Proof.
  intros Hwf Hpos.
  destruct (initTexelEntries_loop positions [] [] m Hwf Hpos
              (Forall2_nil _) (FOP_nil _)) as (L1 & L2 & _).
  cbv zeta. unfold initTexelEntries. split; [ exact L1 | ].
  eapply Forall2_impl; [ | exact L2 ].
  intros coeffs te (A & R). split; [ exact A | ]. split; [ exact R | ].
  intros w. rewrite R. apply sparse_sum_from.
Qed.

(** X14.  Under the same conditions no two entries share a cell of the
    tuple stack. *)
Theorem initTexelEntries_entries_disjoint
    (m : memory) (positions : list (list Z)) (i j : nat) (a b : TexelEntry) :
  well_formed H m ->
  Forall (fun coeffs => Z.of_nat (List.length coeffs) <= STACKSIZE H) positions ->
  (i < j)%nat ->
  nth_error (fst (initTexelEntries H m positions)) i = Some a ->
  nth_error (fst (initTexelEntries H m positions)) j = Some b ->
  disjoint a b.
Proof.
  intros Hwf Hpos.
  destruct (initTexelEntries_loop positions [] [] m Hwf Hpos
              (Forall2_nil _) (FOP_nil _)) as (_ & _ & L3).
  apply (ForallOrdPairs_nth disjoint _ L3).
Qed.

(** X15.  [updateMemory] does not compare a request with the size of a
    block: a request for more than [STACKSIZE] tuples gets the start of a
    new block, so the entry extends beyond the block's last cell, and
    [TupleStackSize] is left negative. *)
Theorem updateMemory_oversized (m : memory) (size : Z) :
  well_formed H m -> STACKSIZE H < size ->
  let te := fst (updateMemory H m size) in
  let m' := snd (updateMemory H m size) in
  tuples te = {| block := blocks m; cell := 0 |} /\
  STACKSIZE H < cell (tuples te) + ntuples te /\
  TupleStackSize m' < 0.
Proof.
  unfold well_formed. intros (W1 & W2 & W3 & W4) Hsize. unfold updateMemory.
  destruct (Z.ltb_spec (TupleStackSize m) size) as [Hlt | Hge]; [ | lia ].
  cbn. repeat split; lia.
Qed.

End TupleStack.

Lemma initTexelEntries_tuples_witness :
  let H := {| Texel.NPOSITIONS := 3; Texel.STACKSIZE := 4 |} in
  let positions := [[0; 5; 0; -2]; [1; 1; 1]; [0; 0]] in
  let r := Texel.initTexelEntries H (Texel.tuner_memory H) positions in
  TexelProps.well_formed H (snd r) /\
  Forall2 (fun coeffs te =>
             TexelProps.allocated H (snd r) te /\
             TexelProps.read_tuples (snd r) te = TexelProps.sparse coeffs /\
             forall w, TexelProps.sparse_sum w (TexelProps.read_tuples (snd r) te)
                       = TexelProps.dense_sum w coeffs)
          positions (fst r).
Proof.
  cbv zeta.
  refine (initTexelEntries_tuples {| Texel.NPOSITIONS := 3; Texel.STACKSIZE := 4 |}
            (Texel.tuner_memory {| Texel.NPOSITIONS := 3; Texel.STACKSIZE := 4 |})
            [[0; 5; 0; -2]; [1; 1; 1]; [0; 0]] _ _).
  - unfold TexelProps.well_formed. simpl. lia.
  - repeat constructor; simpl; lia.
Defined.

Lemma initTexelEntries_entries_disjoint_witness :
  let H := {| Texel.NPOSITIONS := 3; Texel.STACKSIZE := 4 |} in
  TexelProps.disjoint
    {| Texel.tuples := {| Texel.block := 0; Texel.cell := 0 |}; Texel.ntuples := 2 |}
    {| Texel.tuples := {| Texel.block := 0; Texel.cell := 2 |}; Texel.ntuples := 1 |}.
Proof.
  cbv zeta.
  refine (initTexelEntries_entries_disjoint
            {| Texel.NPOSITIONS := 3; Texel.STACKSIZE := 4 |}
            (Texel.tuner_memory {| Texel.NPOSITIONS := 3; Texel.STACKSIZE := 4 |})
            [[0; 5; 0; -2]; [0; 7]; [1; 1; 1]] 0 1 _ _ _ _ _ _ _).
  - unfold TexelProps.well_formed. simpl. lia.
  - repeat constructor; simpl; lia.
  - lia.
  - vm_compute. reflexivity.
  - vm_compute. reflexivity.
Defined.

Lemma updateMemory_oversized_witness :
  let H := {| Texel.NPOSITIONS := 3; Texel.STACKSIZE := 4 |} in
  let te := fst (Texel.updateMemory H (Texel.tuner_memory H) 5) in
  let m' := snd (Texel.updateMemory H (Texel.tuner_memory H) 5) in
  Texel.tuples te = {| Texel.block := 1; Texel.cell := 0 |} /\
  4 < Texel.cell (Texel.tuples te) + Texel.ntuples te /\
  Texel.TupleStackSize m' < 0.
Proof.
  cbv zeta.
  refine (updateMemory_oversized {| Texel.NPOSITIONS := 3; Texel.STACKSIZE := 4 |}
            (Texel.tuner_memory {| Texel.NPOSITIONS := 3; Texel.STACKSIZE := 4 |})
            5 _ _).
  - unfold TexelProps.well_formed. simpl. lia.
  - simpl. lia.
Defined.

(** ** The shuffle of the entries *)

Section ShuffleEntries.

Import Texel.

Variable H : header.
Context {entry rng : Type}.
Variable rand64 : rng -> Z * rng.

Lemma shuffle_round_permutes (g : rng) (tes : list entry) :
  List.length tes = Z.to_nat (NPOSITIONS H) -> 0 < NPOSITIONS H ->
  exists g' tes',
    shuffle_round H rand64 (g, tes) = Some (g', tes') /\
    Permutation tes tes' /\ List.length tes' = List.length tes.
Proof.
  intros Hlen Hpos. unfold shuffle_round.
  destruct (rand64 g) as [r1 g1]. destruct (rand64 g1) as [r2 g2].
  pose proof (Z.mod_pos_bound r1 (NPOSITIONS H) Hpos) as HA.
  pose proof (Z.mod_pos_bound r2 (NPOSITIONS H) Hpos) as HB.
  set (A := Z.to_nat (r1 mod NPOSITIONS H)).
  set (B := Z.to_nat (r2 mod NPOSITIONS H)).
  assert (HAl : (A < List.length tes)%nat) by (unfold A; lia).
  assert (HBl : (B < List.length tes)%nat) by (unfold B; lia).
  destruct (nth_error tes A) as [temp|] eqn:EA;
    [ | apply nth_error_None in EA; lia ].
  destruct (nth_error tes B) as [b|] eqn:EB;
    [ | apply nth_error_None in EB; lia ].
  eexists. eexists. split; [ reflexivity | ].
  pose proof (swap_length temp tes B A) as Hsl.
  pose proof (swap_perm temp tes B A HBl HAl) as Hsp.
  unfold Search.swap in Hsl, Hsp.
  rewrite (nth_error_nth tes A temp EA), (nth_error_nth tes B temp EB) in Hsl, Hsp.
  split; [ exact Hsp | exact Hsl ].
Qed.

Lemma shuffle_loop_permutes (n : nat) :
  forall (g : rng) (tes : list entry),
    List.length tes = Z.to_nat (NPOSITIONS H) -> 0 < NPOSITIONS H ->
    exists g' tes',
      shuffle_loop H rand64 n (g, tes) = Some (g', tes') /\
      Permutation tes tes' /\ List.length tes' = List.length tes.
Proof.
  induction n as [|n IH]; intros g tes Hlen Hpos; cbn [shuffle_loop].
  - exists g, tes. auto.
  - destruct (shuffle_round_permutes g tes Hlen Hpos) as (g1 & tes1 & -> & P1 & L1).
    destruct (IH g1 tes1 ltac:(congruence) Hpos) as (g2 & tes2 & -> & P2 & L2).
    exists g2, tes2. split; [ reflexivity | ].
    split; [ eapply perm_trans; eassumption | congruence ].
Qed.

(** X16.  On an array of [NPOSITIONS] entries [shuffleTexelEntries] stays
    inside the array and returns the same entries in another order, for
    every generator: no entry is lost and none is duplicated. *)
Theorem shuffleTexelEntries_permutes (g : rng) (tes : list entry) :
  List.length tes = Z.to_nat (NPOSITIONS H) ->
  exists g' tes',
    shuffleTexelEntries H rand64 g tes = Some (g', tes') /\
    Permutation tes tes' /\ List.length tes' = List.length tes.
Proof.
  intros Hlen. unfold shuffleTexelEntries.
  destruct (Z.ltb_spec 0 (NPOSITIONS H)) as [Hpos | Hneg].
  - apply shuffle_loop_permutes; assumption.
  - replace (Z.to_nat (NPOSITIONS H)) with 0%nat by lia.
    exists g, tes. auto.
Qed.

End ShuffleEntries.

Lemma shuffleTexelEntries_permutes_witness :
  exists g' tes',
    Texel.shuffleTexelEntries {| Texel.NPOSITIONS := 3; Texel.STACKSIZE := 4 |}
      (fun s => Zobrist.rand64 s) Zobrist.startup [10; 20; 30] = Some (g', tes') /\
    Permutation [10; 20; 30] tes' /\ List.length tes' = 3%nat.
Proof.
  refine (shuffleTexelEntries_permutes {| Texel.NPOSITIONS := 3; Texel.STACKSIZE := 4 |}
            (fun s => Zobrist.rand64 s) Zobrist.startup [10; 20; 30] _).
  reflexivity.
Defined.

(** ** The static evaluation and the side to move *)

Section Evaluation.

Import Search SearchProps.

Context {E : Externals}.

Lemma piece_loop_acc (b : board_t) (locs : list Z) :
  forall sign value,
    piece_loop b sign value locs = value + sign * piece_loop b 1 0 locs.
Proof.
  induction locs as [|location rest IH]; intros sign value; cbn [piece_loop];
    [ lia | ].
  destruct (location =? -1); [ lia | ].
  destruct (_ =? QueenFlag); [ rewrite (IH sign), (IH 1 (0 + _)); ring | ].
  destruct (_ =? RookFlag); [ rewrite (IH sign), (IH 1 (0 + _)); ring | ].
  destruct (_ =? BishopFlag); [ rewrite (IH sign), (IH 1 (0 + _)); ring | ].
  destruct (_ =? KnightFlag); [ rewrite (IH sign), (IH 1 (0 + _)); ring | ].
  apply IH.
Qed.

Lemma piece_loop_squares (b b' : board_t) (locs : list Z) :
  (forall sq, squares b' sq = squares b sq) ->
  forall sign value, piece_loop b' sign value locs = piece_loop b sign value locs.
Proof.
  intros Hsq.
  induction locs as [|location rest IH]; intros sign value; simpl; [ reflexivity | ].
  rewrite Hsq, !IH. reflexivity.
Qed.

Lemma pawn_loop_acc (b : board_t) (locs : list Z) :
  forall sign value,
    pawn_loop b sign value locs = value + sign * pawn_loop b 1 0 locs.
Proof.
  induction locs as [|location rest IH]; intros sign value; cbn [pawn_loop];
    [ lia | ].
  destruct (location =? -1); [ lia | ].
  destruct (turn b =? ColourWhite); [ rewrite (IH sign), (IH 1 (0 + _)); ring | ].
  destruct (turn b =? ColourBlack); [ rewrite (IH sign), (IH 1 (0 + _)); ring | ].
  apply IH.
Qed.

Lemma pawn_loop_tables (b b' : board_t) (locs : list Z) :
  ColourWhite = 0 -> ColourBlack = 1 ->
  (turn b = 0 \/ turn b = 1) -> (turn b' = 0 \/ turn b' = 1) ->
  (forall sq, In sq locs -> sq <> -1 ->
              WHITE_PAWN_POSITION_VALUE sq = BLACK_PAWN_POSITION_VALUE sq) ->
  forall value, pawn_loop b' 1 value locs = pawn_loop b 1 value locs.
Proof.
  intros HW HB Hb Hb' Hagree.
  induction locs as [|location rest IH]; intros value; simpl; [ reflexivity | ].
  destruct (Z.eqb_spec location (-1)) as [|Hloc]; [ reflexivity | ].
  rewrite HW, HB.
  assert (Hv : WHITE_PAWN_POSITION_VALUE location = BLACK_PAWN_POSITION_VALUE location)
    by (apply Hagree; [ left; reflexivity | exact Hloc ]).
  assert (IH' := fun v => IH ltac:(intros sq Hsq; apply Hagree; right; exact Hsq) v).
  destruct Hb as [-> | ->], Hb' as [-> | ->]; simpl; rewrite ?Hv; apply IH'.
Qed.

(** X17.  With the colours 0 and 1 and a pawn table that does not depend on
    the colour on the listed pawn squares, [evaluate_board] is
    antisymmetric in the side to move: the board with the other side to
    move gets the negated value. *)
Theorem evaluate_board_antisymmetric (b b' : board_t) :
  ColourWhite = 0 -> ColourBlack = 1 ->
  turn b = 0 \/ turn b = 1 ->
  other_to_move b b' ->
  pawn_tables_agree b ->
  evaluate_board b' = - evaluate_board b.
Proof.
  intros HW HB Hb (Ht & Hsq & Hpl & Hpw & Hpc) Hagree.
  assert (Hb' : turn b' = 0 \/ turn b' = 1)
    by (rewrite Ht; unfold lnot; destruct (turn b =? 0); auto).
  assert (Hnn : lnot (lnot (turn b)) = turn b)
    by (destruct Hb as [-> | ->]; reflexivity).
  unfold evaluate_board. rewrite Ht, Hnn, !Hpl, !Hpw, !Hpc.
  rewrite (piece_loop_acc b' _ (-1)), (piece_loop_acc b' _ 1 0).
  rewrite (pawn_loop_acc b' _ (-1)), (pawn_loop_acc b' _ 1 (_ + _)).
  rewrite (piece_loop_acc b _ (-1)), (piece_loop_acc b _ 1 0).
  rewrite (pawn_loop_acc b _ (-1)), (pawn_loop_acc b _ 1 (_ + _)).
  rewrite !(piece_loop_squares b b') by exact Hsq.
  rewrite (pawn_loop_tables b b' (pawn_locations b (turn b)) HW HB Hb Hb')
    by (intros sq; apply Hagree).
  rewrite (pawn_loop_tables b b' (pawn_locations b (lnot (turn b))) HW HB Hb Hb')
    by (intros sq; apply Hagree).
  ring.
Qed.

End Evaluation.

Lemma evaluate_board_antisymmetric_witness :
  @Search.evaluate_board (Pawns.externals Pawns.frozen)
    (Pawns.pass {| Pawns.white_to_move := true; Pawns.white_pawns := 3;
                   Pawns.black_pawns := 1 |})
  = - @Search.evaluate_board (Pawns.externals Pawns.frozen)
        {| Pawns.white_to_move := true; Pawns.white_pawns := 3;
           Pawns.black_pawns := 1 |}.
Proof.
  refine (@evaluate_board_antisymmetric (Pawns.externals Pawns.frozen)
            {| Pawns.white_to_move := true; Pawns.white_pawns := 3;
               Pawns.black_pawns := 1 |} _ _ _ _ _ _).
  - reflexivity.
  - reflexivity.
  - left. reflexivity.
  - unfold SearchProps.other_to_move. simpl. repeat split; reflexivity.
  - intros c sq Hin Hsq. simpl in Hin. destruct Hin as [<- | []]. lia.
Defined.

